(** * route-api: polyline decoding, haversine fuel-stop planning and geocoding

    A shallow embedding of the Python sources under [planner/]:
    - [planner/utils.py]                              ([Polyline])
    - [planner/services/hybrid_fuel_optimization.py]  ([Planner] on binary64
      floats, over the arithmetic of [Binary64]; [ExactPlanner] for its
      geometry over the real numbers)
    - [planner/services/geocoding.py], [base.py] and [geocode_location] of
      [routing.py]                                    ([Geocode])
    - [planner/services/routing.py], [base.py]        ([Routing])

    Python integers are unbounded and are modelled by [Z]; Python strings are
    sequences of code points and are modelled by [list Z] (with [codes] to
    write them as string literals). *)

From Stdlib Require Import String Ascii ZArith List Lia Bool QArith Qround Qabs Lqa.
From Stdlib Require Import Reals Lra Zfloor Machin DecimalString SpecFloat.
Import ListNotations.

(** Outcome of a Python computation that may raise.  [OutOfFuel] is an
    artefact of the bounded loops of the model; [decode_polyline_deltas]
    shows that it is never returned. *)
Inductive outcome (A : Type) : Type :=
| Done (a : A)
| IndexError
| OutOfFuel.
Arguments Done {A} a.
Arguments IndexError {A}.
Arguments OutOfFuel {A}.

Module Polyline.
Local Open Scope Z_scope.

(** [ord] of every character of a string literal. *)
Definition codes (s : string) : list Z :=
  map (fun c => Z.of_N (N_of_ascii c)) (list_ascii_of_string s).

(** ** [decode_polyline], from planner/utils.py *)

(** The inner [while True] loop (lines 33-39 and 55-61):
    [b = ord(polyline[index]) - 63; index += 1;
     result |= (b & 0x1f) << shift; shift += 5; if b < 0x20: break]. *)
Fixpoint read_value (fuel : nat) (polyline : list Z) (index : nat)
         (shift result : Z) : outcome (Z * nat) :=
  match fuel with
  | O => OutOfFuel
  | S fuel' =>
      match nth_error polyline index with
      | None => IndexError
      | Some c =>
          let b := c - 63 in
          let index := S index in
          let result := Z.lor result (Z.shiftl (Z.land b 31) shift) in
          let shift := shift + 5 in
          if b <? 32 then Done (result, index)
          else read_value fuel' polyline index shift result
      end
  end.

(** Lines 42-45 and 64-67:
    [if result & 1: result = ~(result >> 1) else: result = result >> 1]. *)
Definition signed_value (result : Z) : Z :=
  if negb (Z.land result 1 =? 0) then Z.lnot (Z.shiftr result 1)
  else Z.shiftr result 1.

(** The outer [while index < len(polyline)] loop (lines 27-73). *)
Fixpoint decode_loop (fuel : nat) (polyline : list Z) (index : nat)
         (lat lng : Z) (coordinates : list (Z * Z)) : outcome (list (Z * Z)) :=
  if (index <? length polyline)%nat then
    match fuel with
    | O => OutOfFuel
    | S fuel' =>
        match read_value (S (length polyline)) polyline index 0 0 with
        | Done (result, index) =>
            let lat := lat + signed_value result in
            match read_value (S (length polyline)) polyline index 0 0 with
            | Done (result, index) =>
                let lng := lng + signed_value result in
                decode_loop fuel' polyline index lat lng
                            (coordinates ++ [(lng, lat)])
            | IndexError => IndexError
            | OutOfFuel => OutOfFuel
            end
        | IndexError => IndexError
        | OutOfFuel => OutOfFuel
        end
    end
  else Done coordinates.

(** [decode_polyline]: [if not polyline: return []], then the loop from
    [index = 0; lat = 0; lng = 0; coordinates = []].  The result is the list
    of [(lng, lat)] tuples of Python integers. *)
Definition decode_polyline (polyline : list Z) : outcome (list (Z * Z)) :=
  match polyline with
  | [] => Done []
  | _ => decode_loop (length polyline) polyline 0 0 0 []
  end.

(** ** The codec in the words of the specification *)

(** Value of a run of 5-bit chunks, least significant chunk first. *)
Fixpoint chunk_value (chunks : list Z) : Z :=
  match chunks with
  | [] => 0
  | c :: cs => c + 32 * chunk_value cs
  end.

(** Cut the character stream into chunk runs: a character [c] carries the
    chunk [(c - 63) mod 32] and ends its run when [c - 63 < 32].  A stream
    that stops inside a run has no reading. *)
Fixpoint chunk_runs (cur : list Z) (s : list Z) : option (list Z) :=
  match s with
  | [] => match cur with [] => Some [] | _ => None end
  | c :: s' =>
      let cur' := cur ++ [(c - 63) mod 32] in
      if c - 63 <? 32
      then option_map (cons (chunk_value cur')) (chunk_runs [] s')
      else chunk_runs cur' s'
  end.

(** A delta [v] travels doubled, and inverted when negative: [2v] or
    [-2v-1].  This is the inverse reading. *)
Definition zigzag_decode (n : Z) : Z :=
  if Z.even n then n / 2 else - ((n + 1) / 2).

(** Deltas come in pairs, latitude first. *)
Fixpoint pair_deltas (vs : list Z) : option (list (Z * Z)) :=
  match vs with
  | [] => Some []
  | dlat :: dlng :: vs' => option_map (cons (dlat, dlng)) (pair_deltas vs')
  | [_] => None
  end.

(** Running sums of the deltas: the accumulated (latitude, longitude). *)
Fixpoint accumulate (lat lng : Z) (ds : list (Z * Z)) : list (Z * Z) :=
  match ds with
  | [] => []
  | (dlat, dlng) :: ds' =>
      (lat + dlat, lng + dlng) :: accumulate (lat + dlat) (lng + dlng) ds'
  end.

Definition deltas (s : list Z) : option (list (Z * Z)) :=
  match chunk_runs [] s with
  | Some ns => pair_deltas (map zigzag_decode ns)
  | None => None
  end.

(** The accumulated (latitude, longitude) integers of a well-formed
    encoded string, in units of 1e-5 degree. *)
Definition accumulated_points (s : list Z) : option (list (Z * Z)) :=
  option_map (accumulate 0 0) (deltas s).

(** Coordinate of the specification: (latitude, longitude) in degrees. *)
Record Coordinate : Type := mkCoordinate { latitude : Q; longitude : Q }.

(** What the specification's [decodePolyline] returns: every accumulated
    value scaled by 1e-5, latitude first. *)
Definition scaled_coordinate (p : Z * Z) : Coordinate :=
  {| latitude := (inject_Z (fst p) * (1 # 100000))%Q;
     longitude := (inject_Z (snd p) * (1 # 100000))%Q |}.

Definition spec_decodePolyline (s : list Z) : option (list Coordinate) :=
  option_map (map scaled_coordinate) (accumulated_points s).

(** A tuple returned by the code, read as a Coordinate (first component
    latitude, second longitude), agrees with a Coordinate of the spec. *)
Definition same_coordinate (p : Z * Z) (c : Coordinate) : Prop :=
  (inject_Z (fst p) == latitude c)%Q /\ (inject_Z (snd p) == longitude c)%Q.

Definition swap (p : Z * Z) : Z * Z := (snd p, fst p).

(** ** [encodePolyline] *)

(** Modelled from the spec: the 1e-5 precision of [encodePolyline], which
    planner/utils.py does not define.  The nearest point of the 1e-5 degree
    grid, as an integer number of steps. *)
Definition e5 (x : Q) : Z := Qfloor (x * inject_Z 100000 + (1 # 2))%Q.

(** Modelled from the spec: the sign step of [encodePolyline], "doubled
    and inverted if negative". *)
Definition zigzag (v : Z) : Z :=
  if v <? 0 then Z.lnot (Z.shiftl v 1) else Z.shiftl v 1.

(** Modelled from the spec: the chunk step of [encodePolyline].  5-bit
    chunks, least significant first, each offset by 63; every chunk but the
    last carries the continuation bit 0x20. *)
Fixpoint encode_chunks (fuel : nat) (n : Z) : list Z :=
  match fuel with
  | O => [n + 63]
  | S fuel' =>
      if 32 <=? n
      then (Z.lor 32 (Z.land n 31) + 63) :: encode_chunks fuel' (Z.shiftr n 5)
      else [n + 63]
  end.

(** Modelled from the spec: one delta of [encodePolyline]. *)
Definition encode_value (v : Z) : list Z :=
  encode_chunks (Z.to_nat (Z.log2 (zigzag v))) (zigzag v).

(** Modelled from the spec: the delta step of [encodePolyline], latitude
    first, starting from the previous grid point. *)
Fixpoint encode_from (lat lng : Z) (coords : list Coordinate) : list Z :=
  match coords with
  | [] => []
  | c :: coords' =>
      let lat' := e5 (latitude c) in
      let lng' := e5 (longitude c) in
      encode_value (lat' - lat) ++ encode_value (lng' - lng)
                   ++ encode_from lat' lng' coords'
  end.

(** Modelled from the spec: [encodePolyline] is not defined in
    planner/utils.py (only its inverse is).  The specification describes it
    as the standard signed-delta codec: each coordinate is put on the 1e-5
    grid, the difference to the previous point is taken (latitude, then
    longitude), doubled and inverted if negative, and written as 5-bit
    chunks offset by 63. *)
Definition encodePolyline (coords : list Coordinate) : list Z :=
  encode_from 0 0 coords.

(** A decoded tuple, read as (latitude, longitude) degrees, lies within
    1e-5 of a coordinate. *)
Definition within_1e5 (p : Z * Z) (c : Coordinate) : Prop :=
  (Qabs (inject_Z (fst p) - latitude c) <= 1 # 100000)%Q /\
  (Qabs (inject_Z (snd p) - longitude c) <= 1 # 100000)%Q.

(** The grid point of a coordinate, longitude first. *)
Definition grid_lng_lat (c : Coordinate) : Z * Z :=
  (e5 (longitude c), e5 (latitude c)).

(** ** [polyline_to_geojson], from planner/utils.py *)

(** The GeoJSON object of [coordinates_to_geojson_line_string]
    (lines 78-91): the keys ["type"] and ["coordinates"]. *)
Record GeoJSON : Type := {
  geojson_type : string;
  geojson_coordinates : list (Z * Z)
}.

Definition coordinates_to_geojson_line_string (coordinates : list (Z * Z))
  : GeoJSON :=
  {| geojson_type := "LineString"; geojson_coordinates := coordinates |}.

(** [polyline_to_geojson] (lines 94-105); an exception of
    [decode_polyline] propagates. *)
Definition polyline_to_geojson (polyline : list Z) : outcome GeoJSON :=
  match decode_polyline polyline with
  | Done coordinates => Done (coordinates_to_geojson_line_string coordinates)
  | IndexError => IndexError
  | OutOfFuel => OutOfFuel
  end.

(** A character ends a run when [ord(c) - 63 < 0x20] (lines 38 and 60). *)
Definition ends_run (c : Z) : bool := c - 63 <? 32.

(** Number of run-ending characters of a string. *)
Definition run_ends (s : list Z) : nat := length (filter ends_run s).

(** Translation of a tuple by another. *)
Definition offset (by_ p : Z * Z) : Z * Z := (fst by_ + fst p, snd by_ + snd p).

(** ** Reading one run from a suffix of the string (proof device) *)

Fixpoint read_run (cur : list Z) (s : list Z) : option (Z * list Z) :=
  match s with
  | [] => None
  | c :: s' =>
      let cur' := cur ++ [(c - 63) mod 32] in
      if c - 63 <? 32 then Some (chunk_value cur', s') else read_run cur' s'
  end.

Definition chunks_ok (cur : list Z) : Prop := Forall (fun c => 0 <= c < 32) cur.

Lemma chunk_value_app cur c :
  chunk_value (cur ++ [c]) = chunk_value cur + c * 32 ^ Z.of_nat (length cur).
Proof.
  induction cur as [|x cur IH].
  - simpl. lia.
  - cbn [app chunk_value length]. rewrite IH, Nat2Z.inj_succ, Z.pow_succ_r by lia.
    ring.
Qed.

Lemma chunk_value_bound cur :
  chunks_ok cur -> 0 <= chunk_value cur < 32 ^ Z.of_nat (length cur).
Proof.
  induction 1 as [|x cur Hx _ IH].
  - simpl. lia.
  - cbn [chunk_value length]. rewrite Nat2Z.inj_succ, Z.pow_succ_r by lia. lia.
Qed.

Lemma chunks_ok_snoc cur b : chunks_ok cur -> chunks_ok (cur ++ [b mod 32]).
Proof.
  intros H. apply Forall_app. split; [exact H|].
  constructor; [apply Z.mod_pos_bound; lia | constructor].
Qed.

Lemma pow32_shift n : 32 ^ Z.of_nat n = 2 ^ (5 * Z.of_nat n).
Proof.
  change 32 with (2 ^ 5). rewrite <- Z.pow_mul_r by lia. reflexivity.
Qed.

(** [result |= chunk << shift] adds the chunk at its place value when
    [result] lies below [2 ^ shift]. *)
Lemma testbit_above r s n :
  0 <= r < 2 ^ s -> s <= n -> Z.testbit r n = false.
Proof.
  intros Hr Hn.
  destruct (Z.eq_dec r 0) as [->|Hr0]; [apply Z.bits_0|].
  apply Z.bits_above_log2; [lia|].
  apply Z.log2_lt_pow2; [lia|].
  assert (2 ^ s <= 2 ^ n) by (apply Z.pow_le_mono_r; lia). lia.
Qed.

Lemma lor_shiftl_add r c s :
  0 <= s -> 0 <= r < 2 ^ s -> 0 <= c ->
  Z.lor r (Z.shiftl c s) = r + c * 2 ^ s.
Proof.
  intros Hs Hr Hc.
  assert (Hland : Z.land r (Z.shiftl c s) = 0).
  { apply Z.bits_inj'; intros n Hn. rewrite Z.land_spec, Z.bits_0.
    destruct (Z_lt_le_dec n s) as [Hlt|Hge].
    - rewrite (Z.shiftl_spec_low c s n) by lia. apply andb_false_r.
    - rewrite (testbit_above r s n) by lia. reflexivity. }
  rewrite <- Z.shiftl_mul_pow2 by lia.
  rewrite <- Z.lxor_lor by exact Hland.
  symmetry. apply Z.add_nocarry_lxor. exact Hland.
Qed.

Lemma land_31_mod b : Z.land b 31 = b mod 32.
Proof. change 31 with (Z.ones 5). rewrite Z.land_ones by lia. reflexivity. Qed.

Lemma signed_value_zigzag n : signed_value n = zigzag_decode n.
Proof.
  unfold signed_value, zigzag_decode.
  change 1 with (Z.ones 1) at 1. rewrite Z.land_ones by lia.
  rewrite Z.shiftr_div_pow2 by lia. change (2 ^ 1) with 2.
  rewrite <- Z.negb_odd, Zodd_mod.
  pose proof (Z.mod_pos_bound n 2 ltac:(lia)) as Hb.
  pose proof (Z.div_mod n 2 ltac:(lia)) as Hd.
  destruct (Z.eqb_spec (n mod 2) 0) as [E|E].
  - rewrite E. reflexivity.
  - assert (E1 : n mod 2 = 1) by lia. rewrite E1. cbn [Z.eqb negb Pos.eqb].
    unfold Z.lnot.
    replace (n + 1) with (n / 2 * 2 + 2) by lia.
    replace (n / 2 * 2 + 2) with ((n / 2 + 1) * 2) by ring.
    rewrite Z.div_mul by lia. lia.
Qed.

(** The inner loop started at the boundary [pre | rest] with the chunks
    [cur] already folded into [result] reads exactly one run of [rest]. *)
Lemma read_value_run rest : forall pre cur fuel shift result,
  chunks_ok cur ->
  shift = 5 * Z.of_nat (length cur) ->
  result = chunk_value cur ->
  (length rest < fuel)%nat ->
  match read_run cur rest with
  | Some (v, rest') =>
      exists pre', pre ++ rest = pre' ++ rest' /\
                   (length rest' < length rest)%nat /\
                   read_value fuel (pre ++ rest) (length pre) shift result
                   = Done (v, length pre')
  | None =>
      read_value fuel (pre ++ rest) (length pre) shift result = IndexError
  end.
Proof.
  induction rest as [|c rest IH]; intros pre cur fuel shift result Hok Hs Hr Hf.
  - cbn [read_run]. destruct fuel as [|fuel]; [cbn in Hf; lia|].
    cbn [read_value]. rewrite app_nil_r.
    replace (nth_error pre (length pre)) with (@None Z); [reflexivity|].
    symmetry. apply nth_error_None. lia.
  - destruct fuel as [|fuel]; [cbn in Hf; lia|].
    cbn [read_run read_value].
    rewrite nth_error_app2, Nat.sub_diag by lia. cbn [nth_error].
    pose proof (chunk_value_bound cur Hok) as Hb.
    rewrite pow32_shift in Hb.
    assert (Hres : Z.lor result (Z.shiftl (Z.land (c - 63) 31) shift)
                   = chunk_value (cur ++ [(c - 63) mod 32])).
    { rewrite land_31_mod, chunk_value_app, pow32_shift. subst shift result.
      apply lor_shiftl_add; try lia.
      apply Z.mod_pos_bound. lia. }
    rewrite Hres.
    destruct (c - 63 <? 32).
    + exists (pre ++ [c]). rewrite <- app_assoc. cbn [app length].
      rewrite length_app. cbn [length]. repeat split; try lia.
      now rewrite Nat.add_1_r.
    + specialize (IH (pre ++ [c]) (cur ++ [(c - 63) mod 32]) fuel
                     (shift + 5) (chunk_value (cur ++ [(c - 63) mod 32]))).
      rewrite <- app_assoc in IH. cbn [app] in IH.
      rewrite !length_app in IH. cbn [length] in IH.
      rewrite !Nat.add_1_r in IH.
      assert (Hshift : shift + 5 = 5 * Z.of_nat (S (length cur))) by lia.
      specialize (IH (chunks_ok_snoc cur (c - 63) Hok) Hshift eq_refl
                     ltac:(cbn [length] in Hf; lia)).
      destruct (read_run (cur ++ [(c - 63) mod 32]) rest) as [[v rest']|].
      * destruct IH as (pre' & Heq & Hlen & Hrd).
        exists pre'. cbn [length]. repeat split; trivial. lia.
      * exact IH.
Qed.

(** [chunk_runs] in terms of [read_run]. *)
Lemma chunk_runs_read_run cur s :
  s <> [] ->
  chunk_runs cur s =
  match read_run cur s with
  | Some (v, s') => option_map (cons v) (chunk_runs [] s')
  | None => None
  end.
Proof.
  revert cur. induction s as [|c s IH]; intros cur Hne; [congruence|].
  cbn [chunk_runs read_run].
  destruct (c - 63 <? 32); [reflexivity|].
  destruct s as [|c' s].
  - cbn. now destruct (cur ++ [(c - 63) mod 32]) eqn:E;
      [apply app_eq_nil in E; destruct E; discriminate|].
  - apply IH. discriminate.
Qed.

Lemma deltas_nil : deltas [] = Some [].
Proof. reflexivity. Qed.

(** Unfolding [deltas] over the first two runs of a non-empty string. *)
Lemma deltas_step s :
  s <> [] ->
  deltas s =
  match read_run [] s with
  | Some (v1, s1) =>
      match read_run [] s1 with
      | Some (v2, s2) =>
          option_map (cons (zigzag_decode v1, zigzag_decode v2)) (deltas s2)
      | None => None
      end
  | None => None
  end.
Proof.
  intros Hne. unfold deltas. rewrite chunk_runs_read_run by exact Hne.
  destruct (read_run [] s) as [[v1 s1]|]; [|reflexivity].
  destruct s1 as [|c1 s1].
  - reflexivity.
  - rewrite (chunk_runs_read_run [] (c1 :: s1)) by discriminate.
    destruct (read_run [] (c1 :: s1)) as [[v2 s2]|]; [|reflexivity].
    destruct (chunk_runs [] s2) as [ns|]; cbn; [|reflexivity].
    destruct (pair_deltas (map zigzag_decode ns)); reflexivity.
Qed.

(** The outer loop, started at the boundary [pre | rest], appends the
    accumulated points of [rest] with their components exchanged. *)
Lemma decode_loop_deltas n : forall rest pre fuel lat lng coordinates,
  (length rest <= n)%nat -> (length rest <= fuel)%nat ->
  decode_loop fuel (pre ++ rest) (length pre) lat lng coordinates =
  match deltas rest with
  | Some ds => Done (coordinates ++ map swap (accumulate lat lng ds))
  | None => IndexError
  end.
Proof.
  induction n as [|n IH]; intros rest pre fuel lat lng coordinates Hn Hf.
  - destruct rest; [|cbn in Hn; lia].
    rewrite deltas_nil, app_nil_r. cbn [accumulate map].
    rewrite app_nil_r.
    destruct fuel; cbn [decode_loop]; rewrite Nat.ltb_irrefl; reflexivity.
  - destruct rest as [|c rest].
    { rewrite deltas_nil, app_nil_r. cbn [accumulate map].
      rewrite app_nil_r.
      destruct fuel; cbn [decode_loop]; rewrite Nat.ltb_irrefl; reflexivity. }
    destruct fuel as [|fuel]; [cbn in Hf; lia|].
    rewrite deltas_step by discriminate.
    cbn [decode_loop].
    assert (Hlt : (length pre <? length (pre ++ c :: rest))%nat = true).
    { apply Nat.ltb_lt. rewrite length_app. cbn [length]. lia. }
    rewrite Hlt.
    pose proof (read_value_run (c :: rest) pre [] (S (length (pre ++ c :: rest)))
                  0 0 (Forall_nil _) eq_refl eq_refl) as H1.
    rewrite length_app in H1 at 1.
    specialize (H1 ltac:(lia)).
    destruct (read_run [] (c :: rest)) as [[v1 s1]|]; [|now rewrite H1].
    destruct H1 as (pre1 & Heq1 & Hlen1 & Hrd1). rewrite Hrd1.
    pose proof (read_value_run s1 pre1 [] (S (length (pre ++ c :: rest)))
                  0 0 (Forall_nil _) eq_refl eq_refl) as H2.
    rewrite Heq1 in H2 at 1. rewrite length_app in H2 at 1.
    specialize (H2 ltac:(lia)).
    rewrite <- Heq1 in H2.
    destruct (read_run [] s1) as [[v2 s2]|]; [|now rewrite H2].
    destruct H2 as (pre2 & Heq2 & Hlen2 & Hrd2). rewrite Hrd2.
    rewrite Heq2.
    rewrite IH by (cbn [length] in *; lia).
    rewrite !signed_value_zigzag.
    destruct (deltas s2) as [ds|]; cbn [option_map]; [|reflexivity].
    cbn [accumulate map swap fst snd]. rewrite <- app_assoc. reflexivity.
Qed.

(** [decode_polyline] is total and is the exchanged accumulation. *)
Lemma decode_polyline_deltas (polyline : list Z) :
  decode_polyline polyline =
  match accumulated_points polyline with
  | Some pts => Done (map swap pts)
  | None => IndexError
  end.
Proof.
  unfold accumulated_points, decode_polyline.
  destruct polyline as [|c polyline]; [reflexivity|].
  pose proof (decode_loop_deltas (length (c :: polyline)) (c :: polyline) []
                (length (c :: polyline)) 0 0 [] (le_n _) (le_n _)) as H.
  cbn [app length] in H. cbn [length]. rewrite H.
  destruct (deltas (c :: polyline)); reflexivity.
Qed.

(** ** Reading back what [encodePolyline] writes *)

Lemma zigzag_nonneg v : 0 <= zigzag v.
Proof.
  unfold zigzag. rewrite Z.shiftl_mul_pow2 by lia. change (2 ^ 1) with 2.
  destruct (Z.ltb_spec v 0); unfold Z.lnot; lia.
Qed.

Lemma zigzag_decode_zigzag v : zigzag_decode (zigzag v) = v.
Proof.
  unfold zigzag, zigzag_decode.
  rewrite Z.shiftl_mul_pow2 by lia. change (2 ^ 1) with 2.
  destruct (Z.ltb_spec v 0).
  - unfold Z.lnot.
    replace (Z.pred (- (v * 2))) with (1 + 2 * (- v - 1)) by lia.
    rewrite Z.even_add_mul_2. cbn [Z.even].
    replace (1 + 2 * (- v - 1) + 1) with (- v * 2) by lia.
    rewrite Z.div_mul by lia. lia.
  - replace (v * 2) with (0 + 2 * v) by lia.
    rewrite Z.even_add_mul_2. cbn [Z.even].
    replace (0 + 2 * v) with (v * 2) by lia.
    now rewrite Z.div_mul by lia.
Qed.

Lemma lor_32_chunk n : Z.lor 32 (Z.land n 31) = 32 + n mod 32.
Proof.
  rewrite land_31_mod.
  pose proof (Z.mod_pos_bound n 32 ltac:(lia)) as Hb.
  rewrite Z.lor_comm. change 32 with (Z.shiftl 1 5) at 2.
  rewrite lor_shiftl_add; change (2 ^ 5) with 32; lia.
Qed.

Lemma read_run_encode_chunks fuel : forall n cur rest,
  0 <= n < 32 * 32 ^ Z.of_nat fuel ->
  read_run cur (encode_chunks fuel n ++ rest)
  = Some (chunk_value cur + n * 32 ^ Z.of_nat (length cur), rest).
Proof.
  assert (Hlast : forall n cur rest, 0 <= n < 32 ->
            read_run cur ([n + 63] ++ rest)
            = Some (chunk_value cur + n * 32 ^ Z.of_nat (length cur), rest)).
  { intros n cur rest Hn. cbn [app read_run].
    replace (n + 63 - 63) with n by lia.
    destruct (Z.ltb_spec n 32); [|lia].
    now rewrite Z.mod_small, chunk_value_app by lia. }
  induction fuel as [|fuel IH]; intros n cur rest Hn.
  - apply Hlast. cbn in Hn. lia.
  - cbn [encode_chunks].
    destruct (Z.leb_spec 32 n) as [Hge|Hlt]; [|apply Hlast; lia].
    cbn [app read_run]. rewrite lor_32_chunk.
    pose proof (Z.mod_pos_bound n 32 ltac:(lia)) as Hb.
    replace (32 + n mod 32 + 63 - 63) with (32 + n mod 32) by lia.
    destruct (Z.ltb_spec (32 + n mod 32) 32); [lia|].
    replace ((32 + n mod 32) mod 32) with (n mod 32)
      by (replace (32 + n mod 32) with (n mod 32 + 1 * 32) by lia;
          rewrite Z.mod_add by lia; symmetry; apply Z.mod_mod; lia).
    rewrite Z.shiftr_div_pow2 by lia. change (2 ^ 5) with 32.
    rewrite IH.
    + rewrite chunk_value_app, length_app. cbn [length].
      rewrite Nat.add_1_r, Nat2Z.inj_succ, Z.pow_succ_r by lia.
      f_equal. f_equal.
      pose proof (Z.div_mod n 32 ltac:(lia)) as Hd. nia.
    + rewrite Nat2Z.inj_succ, Z.pow_succ_r in Hn by lia.
      split; [apply Z.div_pos; lia|].
      apply Z.div_lt_upper_bound; lia.
Qed.

Lemma read_run_encode_value v rest :
  read_run [] (encode_value v ++ rest) = Some (zigzag v, rest).
Proof.
  unfold encode_value. rewrite read_run_encode_chunks.
  - cbn [chunk_value length Z.of_nat]. f_equal. f_equal. lia.
  - pose proof (zigzag_nonneg v) as Hn. split; [exact Hn|].
    rewrite Z2Nat.id by apply Z.log2_nonneg.
    destruct (Z.eq_dec (zigzag v) 0) as [->|Hne]; [cbn; lia|].
    pose proof (Z.log2_spec (zigzag v) ltac:(lia)) as [_ Hup].
    rewrite Z.pow_succ_r in Hup by apply Z.log2_nonneg.
    assert (2 ^ Z.log2 (zigzag v) <= 32 ^ Z.log2 (zigzag v))
      by (apply Z.pow_le_mono_l; lia).
    lia.
Qed.

Lemma encode_chunks_not_nil fuel n : encode_chunks fuel n <> [].
Proof. destruct fuel; cbn; [|destruct (32 <=? n)]; discriminate. Qed.

(** The accumulated points of an encoding are the grid points of the
    coordinates. *)
Lemma accumulate_encode_from coords : forall lat lng,
  option_map (accumulate lat lng) (deltas (encode_from lat lng coords))
  = Some (map (fun c => (e5 (latitude c), e5 (longitude c))) coords).
Proof.
  induction coords as [|c coords IH]; intros lat lng; [reflexivity|].
  cbn [encode_from map].
  rewrite deltas_step.
  - rewrite read_run_encode_value, read_run_encode_value.
    rewrite !zigzag_decode_zigzag.
    specialize (IH (e5 (latitude c)) (e5 (longitude c))).
    destruct (deltas (encode_from (e5 (latitude c)) (e5 (longitude c)) coords))
      as [ds|]; cbn [option_map] in *; [|discriminate].
    cbn [accumulate].
    replace (lat + (e5 (latitude c) - lat)) with (e5 (latitude c)) by lia.
    replace (lng + (e5 (longitude c) - lng)) with (e5 (longitude c)) by lia.
    congruence.
  - intros E. apply app_eq_nil in E. destruct E as [E _].
    revert E. apply encode_chunks_not_nil.
Qed.

Lemma decode_encode (coords : list Coordinate) :
  decode_polyline (encodePolyline coords) = Done (map grid_lng_lat coords).
Proof.
  rewrite decode_polyline_deltas. unfold accumulated_points, encodePolyline.
  rewrite accumulate_encode_from, map_map. reflexivity.
Qed.

(** The grid point is the nearest one: at most half a step away. *)
Lemma e5_nearest (x : Q) :
  (Qabs (inject_Z (e5 x) - x * inject_Z 100000) <= 1 # 2)%Q.
Proof.
  unfold e5.
  pose proof (Qfloor_le (x * inject_Z 100000 + (1 # 2))) as Hlo.
  pose proof (Qlt_floor (x * inject_Z 100000 + (1 # 2))) as Hhi.
  set (f := Qfloor (x * inject_Z 100000 + (1 # 2))) in *.
  rewrite inject_Z_plus in Hhi. change (inject_Z 1) with 1%Q in Hhi.
  generalize dependent (x * inject_Z 100000)%Q. intros y f Hlo Hhi.
  apply Qabs_Qle_condition. split; Lqa.lra.
Qed.

(** ** Settled properties of the codec *)

(** C1.  Code defect: the decoded values are never scaled by 1e-5.  On
    the encoding ["_p~iF~ps|U"] of the single point (38.5, -120.2) the
    specification's decoder yields the coordinate (38.5, -120.2), while
    [decode_polyline] returns the tuple of integers (-12020000, 3850000).
    It agrees with the coordinate neither as it stands nor with its
    components exchanged, so the longitude-first order of the tuple (which
    is the function's documented order) does not account for the
    difference. *)
Theorem decode_polyline_not_scaled_lat_lon :
  exists out cs,
    codes "_p~iF~ps|U" <> [] /\
    decode_polyline (codes "_p~iF~ps|U") = Done out /\
    out = [(-12020000, 3850000)] /\
    spec_decodePolyline (codes "_p~iF~ps|U") = Some cs /\
    Forall2 (fun c d => latitude c == latitude d /\ longitude c == longitude d)%Q
            cs [mkCoordinate (385 # 10) (- 1202 # 10)] /\
    ~ Forall2 same_coordinate out cs /\
    ~ Forall2 same_coordinate (map swap out) cs.
Proof.
  eexists. eexists. split; [discriminate|].
  split; [vm_compute; reflexivity|].
  split; [reflexivity|].
  split; [vm_compute; reflexivity|].
  split; [|split].
  - constructor; [|constructor]. split; reflexivity.
  - intros H. inversion H as [|p c ps cs' [Hlat _] _]; subst.
    vm_compute in Hlat. discriminate.
  - intros H. inversion H as [|p c ps cs' [Hlat _] _]; subst.
    vm_compute in Hlat. discriminate.
Qed.

(** X24.  What [decode_polyline] computes on a well-formed string: in
    order, one tuple per pair of runs, holding the running sums of the
    zigzag-decoded 5-bit-chunk deltas (latitude delta first, then longitude
    delta), the longitude sum first.  The sums are the integers themselves,
    in units of 1e-5 degree. *)
Theorem decode_polyline_accumulates (polyline : list Z) (pts : list (Z * Z)) :
  polyline <> [] ->
  accumulated_points polyline = Some pts ->
  decode_polyline polyline = Done (map swap pts).
Proof.
  intros _ Hpts. rewrite decode_polyline_deltas, Hpts. reflexivity.
Qed.

Lemma decode_polyline_accumulates_witness :
  decode_polyline (codes "_p~iF~ps|U_ulLnnqC_mqNvxq`@")
  = Done (map swap [(3850000, -12020000); (4070000, -12095000);
                    (4325200, -12645300)]).
Proof.
  apply (decode_polyline_accumulates (codes "_p~iF~ps|U_ulLnnqC_mqNvxq`@")).
  - discriminate.
  - vm_compute. reflexivity.
Defined.

(** C5.  Code defect, the one of C1: encoding the single coordinate
    (38.5, -120.2) gives ["_p~iF~ps|U"], and decoding that gives the tuple
    of integers (-12020000, 3850000), which is not within 1e-5 of
    (38.5, -120.2), neither as it stands nor with its components
    exchanged.  The empty sequence and the empty string do go to one
    another. *)
Theorem decode_encode_not_within_1e5 :
  exists out,
    encodePolyline [mkCoordinate (385 # 10) (- 1202 # 10)]
    = codes "_p~iF~ps|U" /\
    decode_polyline (encodePolyline [mkCoordinate (385 # 10) (- 1202 # 10)])
    = Done out /\
    out = [(-12020000, 3850000)] /\
    ~ Forall2 within_1e5 out [mkCoordinate (385 # 10) (- 1202 # 10)] /\
    ~ Forall2 within_1e5 (map swap out)
        [mkCoordinate (385 # 10) (- 1202 # 10)] /\
    encodePolyline [] = [] /\
    decode_polyline [] = Done [].
Proof.
  eexists. split; [vm_compute; reflexivity|].
  split; [vm_compute; reflexivity|]. split; [reflexivity|].
  split; [|split; [|split; reflexivity]].
  - intros H. inversion H as [|p c ps cs' [Hlat _] _]; subst.
    vm_compute in Hlat. apply Hlat. reflexivity.
  - intros H. inversion H as [|p c ps cs' [Hlat _] _]; subst.
    vm_compute in Hlat. apply Hlat. reflexivity.
Qed.

(** Up to the missing scaling the round trip is exact on the 1e-5 grid:
    decoding an encoding returns one tuple per coordinate, in order,
    holding the coordinate's nearest grid point counted in grid steps,
    longitude first. *)
Lemma decode_encode_grid (coords : list Coordinate) :
  decode_polyline (encodePolyline coords) = Done (map grid_lng_lat coords) /\
  Forall (fun c =>
     (Qabs (inject_Z (fst (grid_lng_lat c)) - longitude c * inject_Z 100000)
      <= 1 # 2)%Q /\
     (Qabs (inject_Z (snd (grid_lng_lat c)) - latitude c * inject_Z 100000)
      <= 1 # 2)%Q) coords.
Proof.
  split; [apply decode_encode|].
  apply Forall_forall. intros c _. split; apply e5_nearest.
Qed.

(** ** Malformed strings, point counts and concatenation *)

Lemma ends_run_last_app s c : last (s ++ [c]) 0 = c.
Proof. apply last_last. Qed.

(** [chunk_runs] reads a string exactly when it does not stop inside a
    run, and then finds one value per run-ending character. *)
Lemma chunk_runs_shape s : forall cur,
  match chunk_runs cur s with
  | Some ns => length ns = run_ends s /\
               match s with [] => cur = [] | _ => ends_run (last s 0) = true end
  | None => match s with [] => cur <> [] | _ => ends_run (last s 0) = false end
  end.
Proof.
  induction s as [|c s IH]; intros cur.
  - cbn. destruct cur; [split; reflexivity|discriminate].
  - cbn [chunk_runs]. unfold run_ends. cbn [filter]. fold (ends_run c).
    assert (Hlast : s <> [] -> last (c :: s) 0 = last s 0)
      by (destruct s; [congruence|reflexivity]).
    destruct (ends_run c) eqn:Ec.
    + specialize (IH []).
      destruct (chunk_runs [] s) as [ns|]; cbn [option_map].
      * destruct IH as [Hlen Hs]. cbn [length]. fold (run_ends s).
        split; [now rewrite Hlen|].
        destruct s as [|c' s]; [exact Ec|]. now rewrite Hlast.
      * destruct s as [|c' s]; [now destruct IH|]. now rewrite Hlast.
    + specialize (IH (cur ++ [(c - 63) mod 32])).
      destruct (chunk_runs (cur ++ [(c - 63) mod 32]) s) as [ns|].
      * destruct IH as [Hlen Hs]. fold (run_ends s). split; [exact Hlen|].
        destruct s as [|c' s]; [|now rewrite Hlast].
        apply app_eq_nil in Hs. destruct Hs; discriminate.
      * destruct s as [|c' s]; [exact Ec|]. now rewrite Hlast.
Qed.

Lemma pair_deltas_shape vs :
  match pair_deltas vs with
  | Some ds => length vs = (2 * length ds)%nat
  | None => Nat.odd (length vs) = true
  end.
Proof.
  enough (H : match pair_deltas vs with
              | Some ds => length vs = (2 * length ds)%nat
              | None => Nat.odd (length vs) = true
              end /\
              forall a, match pair_deltas (a :: vs) with
                        | Some ds => length (a :: vs) = (2 * length ds)%nat
                        | None => Nat.odd (length (a :: vs)) = true
                        end) by apply H.
  induction vs as [|b vs [IH IH']].
  - split; [reflexivity|]. intros a. reflexivity.
  - split; [apply IH'|]. intros a. cbn [pair_deltas].
    destruct (pair_deltas vs) as [ds|]; cbn [option_map length] in *.
    + lia.
    + exact IH.
Qed.

Lemma accumulate_length ds : forall lat lng,
  length (accumulate lat lng ds) = length ds.
Proof.
  induction ds as [|[a b] ds IH]; intros lat lng; cbn; [|rewrite IH];
    reflexivity.
Qed.

(** What [decode_polyline] does on every string. *)
Lemma decode_polyline_shape (polyline : list Z) :
  match decode_polyline polyline with
  | Done out => ends_run (last polyline 0) = true /\
                run_ends polyline = (2 * length out)%nat
  | IndexError => ends_run (last polyline 0) = false \/
                  Nat.odd (run_ends polyline) = true
  | OutOfFuel => False
  end.
Proof.
  rewrite decode_polyline_deltas. unfold accumulated_points, deltas.
  pose proof (chunk_runs_shape polyline []) as Hr.
  destruct (chunk_runs [] polyline) as [ns|].
  - destruct Hr as [Hlen Hend].
    assert (Hend' : ends_run (last polyline 0) = true)
      by (destruct polyline; [reflexivity|exact Hend]).
    pose proof (pair_deltas_shape (map zigzag_decode ns)) as Hp.
    rewrite length_map, Hlen in Hp.
    destruct (pair_deltas (map zigzag_decode ns)) as [ds|]; cbn [option_map].
    + split; [exact Hend'|]. now rewrite length_map, accumulate_length.
    + now right.
  - cbn [option_map]. left. destruct polyline; [now destruct Hr|exact Hr].
Qed.

Lemma deltas_inv polyline out :
  decode_polyline polyline = Done out ->
  exists ds, deltas polyline = Some ds /\ out = map swap (accumulate 0 0 ds).
Proof.
  rewrite decode_polyline_deltas. unfold accumulated_points.
  destruct (deltas polyline) as [ds|]; cbn [option_map]; [|discriminate].
  intros [= <-]. eauto.
Qed.

Lemma chunk_runs_app s1 : forall cur ns1 s2,
  chunk_runs cur s1 = Some ns1 ->
  chunk_runs cur (s1 ++ s2)
  = match s1 with
    | [] => chunk_runs cur s2
    | _ => option_map (app ns1) (chunk_runs [] s2)
    end.
Proof.
  induction s1 as [|c s1 IH]; intros cur ns1 s2 H; [reflexivity|].
  cbn [app chunk_runs] in *.
  destruct (c - 63 <? 32).
  - destruct (chunk_runs [] s1) as [ns|] eqn:E; [|discriminate].
    cbn [option_map] in H. injection H as <-.
    rewrite (IH [] ns s2 E).
    destruct s1 as [|c' s1].
    + cbn in E. injection E as <-.
      destruct (chunk_runs [] s2); reflexivity.
    + destruct (chunk_runs [] s2); reflexivity.
  - rewrite (IH _ ns1 s2 H).
    destruct s1 as [|c' s1]; [|reflexivity].
    cbn in H. destruct (cur ++ [(c - 63) mod 32]) eqn:E; [|discriminate].
    apply app_eq_nil in E. destruct E; discriminate.
Qed.

Lemma pair_deltas_app vs1 : forall ds1 vs2,
  pair_deltas vs1 = Some ds1 ->
  pair_deltas (vs1 ++ vs2) = option_map (app ds1) (pair_deltas vs2).
Proof.
  enough (H : (forall ds1 vs2, pair_deltas vs1 = Some ds1 ->
                 pair_deltas (vs1 ++ vs2) = option_map (app ds1) (pair_deltas vs2))
              /\
              (forall a ds1 vs2, pair_deltas (a :: vs1) = Some ds1 ->
                 pair_deltas ((a :: vs1) ++ vs2)
                 = option_map (app ds1) (pair_deltas vs2))) by apply H.
  induction vs1 as [|b vs1 [IH IH']].
  - split.
    + intros ds1 vs2 [= <-]. cbn [app]. now destruct (pair_deltas vs2).
    + intros a ds1 vs2 H. discriminate.
  - split; [apply IH'|]. intros a ds1 vs2 H. cbn [app pair_deltas] in *.
    destruct (pair_deltas vs1) as [ds|] eqn:E; [|discriminate].
    cbn [option_map] in H. injection H as <-.
    rewrite (IH ds vs2 eq_refl).
    now destruct (pair_deltas vs2).
Qed.

Lemma deltas_app s1 s2 ds1 ds2 :
  deltas s1 = Some ds1 -> deltas s2 = Some ds2 ->
  deltas (s1 ++ s2) = Some (ds1 ++ ds2).
Proof.
  unfold deltas. intros H1 H2.
  destruct (chunk_runs [] s1) as [ns1|] eqn:E1; [|discriminate].
  destruct (chunk_runs [] s2) as [ns2|] eqn:E2; [|discriminate].
  rewrite (chunk_runs_app s1 [] ns1 s2 E1).
  destruct s1 as [|c s1].
  - cbn in E1. injection E1 as <-. cbn in H1. injection H1 as <-.
    now rewrite E2.
  - rewrite E2. cbn [option_map]. rewrite map_app.
    rewrite (pair_deltas_app _ _ _ H1), H2. reflexivity.
Qed.

Lemma accumulate_offset ds : forall lat lng,
  accumulate lat lng ds = map (offset (lat, lng)) (accumulate 0 0 ds).
Proof.
  assert (Hgen : forall ds lat lng a b,
            accumulate (lat + a) (lng + b) ds
            = map (offset (lat, lng)) (accumulate a b ds)).
  { clear. induction ds as [|[dlat dlng] ds IH]; intros lat lng a b;
      [reflexivity|].
    cbn [accumulate map]. unfold offset at 1. cbn [fst snd].
    rewrite <- !Z.add_assoc. now rewrite IH. }
  intros lat lng. rewrite <- (Hgen ds lat lng 0 0). now rewrite !Z.add_0_r.
Qed.

Lemma last_cons_default {A} (l : list A) : forall x d, last (x :: l) d = last l x.
Proof.
  induction l as [|y l IH]; intros x d; [reflexivity|].
  change (last (x :: y :: l) d) with (last (y :: l) d).
  now rewrite !IH.
Qed.

Lemma accumulate_app ds1 : forall lat lng ds2,
  accumulate lat lng (ds1 ++ ds2)
  = accumulate lat lng ds1
    ++ map (offset (last (accumulate lat lng ds1) (lat, lng)))
           (accumulate 0 0 ds2).
Proof.
  induction ds1 as [|[dlat dlng] ds1 IH]; intros lat lng ds2.
  - cbn [app accumulate last]. apply accumulate_offset.
  - cbn [app accumulate]. rewrite IH, last_cons_default. reflexivity.
Qed.

Lemma swap_offset a p : swap (offset a p) = offset (swap a) (swap p).
Proof. reflexivity. Qed.

Lemma last_map_swap l : forall d, last (map swap l) (swap d) = swap (last l d).
Proof.
  induction l as [|x l IH]; intros d; [reflexivity|].
  destruct l; [reflexivity|]. exact (IH d).
Qed.

(** ** Further properties of the decoder *)

(** X1.  [decode_polyline] always returns: it raises IndexError exactly
    when the string stops inside a run (its last character has the
    continuation bit, [ord(c) - 63 >= 0x20]) or holds an odd number of
    runs (a latitude without its longitude), and returns a list
    otherwise. *)
Theorem decode_polyline_index_error (polyline : list Z) :
  (decode_polyline polyline = IndexError <->
   ends_run (last polyline 0) = false \/ Nat.odd (run_ends polyline) = true) /\
  (decode_polyline polyline <> IndexError ->
   exists out, decode_polyline polyline = Done out).
Proof.
  pose proof (decode_polyline_shape polyline) as H.
  destruct (decode_polyline polyline) as [out| |]; [| |contradiction].
  - destruct H as [Hend Hruns]. split; [|eauto].
    split; [discriminate|]. intros [Hbad|Hodd].
    + congruence.
    + rewrite Hruns, Nat.odd_mul in Hodd. discriminate.
  - split; [tauto|]. intros Hne. now destruct Hne.
Qed.

(** X2.  When [polyline_to_geojson] returns, the object is a LineString
    whose coordinates are those of [decode_polyline], one per two runs
    of the string; it raises IndexError exactly when [decode_polyline]
    does. *)
Theorem polyline_to_geojson_line_string (polyline : list Z) :
  (forall geojson,
     polyline_to_geojson polyline = Done geojson ->
     geojson_type geojson = "LineString"%string /\
     decode_polyline polyline = Done (geojson_coordinates geojson) /\
     run_ends polyline = (2 * length (geojson_coordinates geojson))%nat) /\
  (polyline_to_geojson polyline = IndexError <->
   decode_polyline polyline = IndexError).
Proof.
  unfold polyline_to_geojson.
  pose proof (decode_polyline_shape polyline) as H.
  destruct (decode_polyline polyline) as [out| |]; [| |contradiction].
  - split; [|split; discriminate].
    intros geojson [= <-]. cbn. repeat split. apply H.
  - split; [discriminate|tauto].
Qed.

(** X3.  Decoding composes with concatenation: when two strings decode,
    so does their concatenation, to the points of the first followed by
    the points of the second translated by the last point of the first
    (by nothing when the first has no point). *)
Theorem decode_polyline_app (s1 s2 : list Z) (out1 out2 : list (Z * Z)) :
  decode_polyline s1 = Done out1 ->
  decode_polyline s2 = Done out2 ->
  decode_polyline (s1 ++ s2)
  = Done (out1 ++ map (offset (last out1 (0, 0))) out2).
Proof.
  intros H1 H2.
  destruct (deltas_inv _ _ H1) as (ds1 & Hd1 & ->).
  destruct (deltas_inv _ _ H2) as (ds2 & Hd2 & ->).
  rewrite decode_polyline_deltas. unfold accumulated_points.
  rewrite (deltas_app _ _ _ _ Hd1 Hd2). cbn [option_map].
  rewrite accumulate_app, map_app. f_equal. f_equal.
  change (0, 0) with (swap (0, 0)) at 2. rewrite last_map_swap.
  rewrite !map_map. apply map_ext. intros p. apply swap_offset.
Qed.

Lemma decode_polyline_app_witness :
  decode_polyline (codes "_p~iF~ps|U" ++ codes "_ulLnnqC")
  = Done ([(-12020000, 3850000)]
          ++ map (offset (last [(-12020000, 3850000)] (0, 0)))
                 [(-75000, 220000)]).
Proof.
  apply (decode_polyline_app (codes "_p~iF~ps|U") (codes "_ulLnnqC")).
  - vm_compute. reflexivity.
  - vm_compute. reflexivity.
Defined.

End Polyline.

(** * Python floats as IEEE 754 binary64 *)

Module Binary64.
Local Open Scope Z_scope.

(** A Python float is a binary64 value: a signed zero, a signed infinity,
    NaN, or a finite number [(-1)^s * m * 2^e], for which the type
    [spec_float] of the Standard Library is used.  The arithmetic
    operations are defined below as IEEE 754 defines them, by rounding the
    exact result to the nearest binary64 value, ties to even. *)
Definition float : Type := spec_float.

Definition prec : Z := 53.
Definition emax : Z := 1024.
Definition emin : Z := -1074.

(** The binary64 values among the terms of [float]: the mantissa of a
    finite number has at most 53 bits. *)
Definition representable (x : float) : Prop :=
  match x with
  | S754_finite _ m _ => Zpos m < 2 ^ prec
  | _ => True
  end.

Definition is_nan (x : float) : bool :=
  match x with S754_nan => true | _ => false end.

Definition is_inf (x : float) : bool :=
  match x with S754_infinity _ => true | _ => false end.

(** [x == 0.0]. *)
Definition is_zero (x : float) : bool :=
  match x with S754_zero _ => true | _ => false end.

(** [math.isfinite]. *)
Definition is_finite (x : float) : bool :=
  match x with S754_zero _ | S754_finite _ _ _ => true | _ => false end.

(** ** Rounding to nearest, ties to even *)

(** The integer nearest to [a / b], for [b > 0]; ties go to the even one. *)
Definition round_half_even (a b : Z) : Z :=
  let q := a / b in
  match 2 * (a mod b) ?= b with
  | Lt => q
  | Gt => q + 1
  | Eq => if Z.even q then q else q + 1
  end.

(** The fraction [(n / d) / 2^e], as numerator and denominator. *)
Definition scaled (n d e : Z) : Z * Z :=
  if 0 <=? e then (n, d * 2 ^ e) else (n * 2 ^ (- e), d).

(** [floor (log2 (n / d))], for [n, d > 0]. *)
Definition floor_log2 (n d : Z) : Z :=
  let k := Z.log2 n - Z.log2 d in
  let '(a, b) := scaled n d k in
  if b <=? a then k else k - 1.

(** The binary64 value nearest to [n / d], for [n, d > 0], with sign [s]:
    the exponent is the one of the binade of [n / d] (not below that of the
    subnormal numbers), the mantissa the nearest integer; a mantissa of
    [2^53] moves to the next binade, and what exceeds the largest finite
    number becomes an infinity. *)
Definition round_nearest (s : bool) (n d : Z) : float :=
  let e := Z.max (floor_log2 n d - (prec - 1)) emin in
  let '(a, b) := scaled n d e in
  let m := round_half_even a b in
  if m =? 0 then S754_zero s
  else
    let '(m, e) := if m =? 2 ^ prec then (2 ^ (prec - 1), e + 1) else (m, e) in
    if emax - prec <? e then S754_infinity s
    else S754_finite s (Z.to_pos m) e.

(** The binary64 value nearest to [n / d], for [d > 0]; an exact zero is
    [+0.0]. *)
Definition round_rational (n d : Z) : float :=
  if n =? 0 then S754_zero false
  else round_nearest (n <? 0) (Z.abs n) d.

(** A decimal literal [m * 10^e]. *)
Definition literal (m e : Z) : float :=
  if 0 <=? e then round_rational (m * 10 ^ e) 1
  else round_rational m (10 ^ (- e)).

(** ** Arithmetic *)

Definition opp (x : float) : float :=
  match x with
  | S754_nan => S754_nan
  | S754_infinity s => S754_infinity (negb s)
  | S754_zero s => S754_zero (negb s)
  | S754_finite s m e => S754_finite (negb s) m e
  end.

(** The signed mantissa of a finite number. *)
Definition signed (s : bool) (m : positive) : Z :=
  if s then Zneg m else Zpos m.

(** IEEE 754 addition. *)
Definition add (x y : float) : float :=
  match x, y with
  | S754_nan, _ | _, S754_nan => S754_nan
  | S754_infinity sx, S754_infinity sy =>
      if Bool.eqb sx sy then x else S754_nan
  | S754_infinity _, _ => x
  | _, S754_infinity _ => y
  | S754_zero sx, S754_zero sy =>
      if Bool.eqb sx sy then x else S754_zero false
  | S754_zero _, _ => y
  | _, S754_zero _ => x
  | S754_finite sx mx ex, S754_finite sy my ey =>
      let g := Z.min ex ey in
      let sum := signed sx mx * 2 ^ (ex - g) + signed sy my * 2 ^ (ey - g) in
      if 0 <=? g then round_rational (sum * 2 ^ g) 1
      else round_rational sum (2 ^ (- g))
  end.

(** IEEE 754 subtraction. *)
Definition sub (x y : float) : float := add x (opp y).

(** IEEE 754 multiplication. *)
Definition mul (x y : float) : float :=
  match x, y with
  | S754_nan, _ | _, S754_nan => S754_nan
  | S754_infinity _, S754_zero _ | S754_zero _, S754_infinity _ => S754_nan
  | S754_infinity sx, S754_infinity sy
  | S754_infinity sx, S754_finite sy _ _
  | S754_finite sx _ _, S754_infinity sy => S754_infinity (xorb sx sy)
  | S754_zero sx, S754_zero sy
  | S754_zero sx, S754_finite sy _ _
  | S754_finite sx _ _, S754_zero sy => S754_zero (xorb sx sy)
  | S754_finite sx mx ex, S754_finite sy my ey =>
      let e := ex + ey in
      if 0 <=? e then round_nearest (xorb sx sy) (Zpos mx * Zpos my * 2 ^ e) 1
      else round_nearest (xorb sx sy) (Zpos mx * Zpos my) (2 ^ (- e))
  end.

(** IEEE 754 division. *)
Definition div (x y : float) : float :=
  match x, y with
  | S754_nan, _ | _, S754_nan => S754_nan
  | S754_infinity _, S754_infinity _ | S754_zero _, S754_zero _ => S754_nan
  | S754_infinity sx, S754_zero sy
  | S754_infinity sx, S754_finite sy _ _
  | S754_finite sx _ _, S754_zero sy => S754_infinity (xorb sx sy)
  | S754_zero sx, S754_infinity sy
  | S754_zero sx, S754_finite sy _ _
  | S754_finite sx _ _, S754_infinity sy => S754_zero (xorb sx sy)
  | S754_finite sx mx ex, S754_finite sy my ey =>
      let g := Z.min ex ey in
      round_nearest (xorb sx sy)
                    (Zpos mx * 2 ^ (ex - g)) (Zpos my * 2 ^ (ey - g))
  end.

(** IEEE 754 comparison: by value, the two zeros being equal and NaN
    being unordered. *)
Definition compare (x y : float) : option comparison :=
  match x, y with
  | S754_nan, _ | _, S754_nan => None
  | S754_infinity sx, S754_infinity sy =>
      Some (if Bool.eqb sx sy then Eq else if sx then Lt else Gt)
  | S754_infinity s, _ => Some (if s then Lt else Gt)
  | _, S754_infinity s => Some (if s then Gt else Lt)
  | S754_zero _, S754_zero _ => Some Eq
  | S754_zero _, S754_finite s _ _ => Some (if s then Gt else Lt)
  | S754_finite s _ _, S754_zero _ => Some (if s then Lt else Gt)
  | S754_finite sx mx ex, S754_finite sy my ey =>
      let g := Z.min ex ey in
      Some (signed sx mx * 2 ^ (ex - g) ?= signed sy my * 2 ^ (ey - g))
  end.

(** [x <= y] and [x < y]. *)
Definition le (x y : float) : bool :=
  match compare x y with Some (Lt | Eq) => true | _ => false end.

Definition lt (x y : float) : bool :=
  match compare x y with Some Lt => true | _ => false end.

(** ** Python operations *)

(** Outcome of a Python computation on numbers. *)
Inductive result (A : Type) : Type :=
| Ok (a : A)
| ZeroDivisionError
| OverflowError
| ValueError.
Arguments Ok {A} a.
Arguments ZeroDivisionError {A}.
Arguments OverflowError {A}.
Arguments ValueError {A}.

Definition bind {A B} (m : result A) (k : A -> result B) : result B :=
  match m with
  | Ok a => k a
  | ZeroDivisionError => ZeroDivisionError
  | OverflowError => OverflowError
  | ValueError => ValueError
  end.

(** [x / y] on floats. *)
Definition truediv (x y : float) : result float :=
  if is_zero y then ZeroDivisionError else Ok (div x y).

(** [float(n)], the conversion of an integer that takes part in float
    arithmetic. *)
Definition of_int (n : Z) : result float :=
  let x := round_rational n 1 in
  if is_inf x then OverflowError else Ok x.

(** [a / b] on integers: the quotient correctly rounded. *)
Definition int_truediv (a b : Z) : result float :=
  if b =? 0 then ZeroDivisionError
  else
    let negative := xorb (a <? 0) (b <? 0) in
    if a =? 0 then Ok (S754_zero negative)
    else
      let x := round_nearest negative (Z.abs a) (Z.abs b) in
      if is_inf x then OverflowError else Ok x.

(** [math.ceil]. *)
Definition ceil (x : float) : result Z :=
  match x with
  | S754_nan => ValueError
  | S754_infinity _ => OverflowError
  | S754_zero _ => Ok 0
  | S754_finite s m e =>
      if 0 <=? e then Ok (signed s m * 2 ^ e)
      else Ok (- ((- signed s m) / 2 ^ (- e)))
  end.

(** [round(x, 2)]: the exact value of [x] is rounded to the nearest
    multiple of 1/100, ties to even, and that decimal number to the nearest
    float. *)
Definition round2 (x : float) : float :=
  match x with
  | S754_finite s m e =>
      let '(a, b) := scaled (Zpos m * 100) 1 (- e) in
      let hundredths := round_half_even a b in
      if hundredths =? 0 then S754_zero s
      else round_nearest s hundredths 100
  | _ => x
  end.

(** ** Properties of the rounding *)

Lemma round_half_even_le a b c :
  0 < b -> a <= c * b -> round_half_even a b <= c.
Proof.
  intros Hb H. unfold round_half_even.
  pose proof (Z.div_mod a b ltac:(lia)) as E.
  pose proof (Z.mod_pos_bound a b Hb) as Hr.
  set (q := a / b) in *. set (r := a mod b) in *.
  assert (Hq : q <= c) by nia.
  destruct (Z.compare_spec (2 * r) b) as [He|Hl|Hg].
  - destruct (Z.even q); [lia|]. assert (q <> c) by nia. lia.
  - lia.
  - assert (q <> c) by nia. lia.
Qed.

Lemma round_half_even_ge a b c :
  0 < b -> c * b <= a -> c <= round_half_even a b.
Proof.
  intros Hb H. unfold round_half_even.
  pose proof (Z.div_mod a b ltac:(lia)) as E.
  pose proof (Z.mod_pos_bound a b Hb) as Hr.
  set (q := a / b) in *. set (r := a mod b) in *.
  assert (Hq : c <= q) by nia.
  destruct (Z.compare_spec (2 * r) b); [destruct (Z.even q)|..]; lia.
Qed.

Lemma round_half_even_gt a b c :
  0 < b -> (2 * c + 1) * b < 2 * a -> c + 1 <= round_half_even a b.
Proof.
  intros Hb H. unfold round_half_even.
  pose proof (Z.div_mod a b ltac:(lia)) as E.
  pose proof (Z.mod_pos_bound a b Hb) as Hr.
  set (q := a / b) in *. set (r := a mod b) in *.
  assert (Hq : c <= q) by nia.
  destruct (Z.compare_spec (2 * r) b) as [He|Hl|Hg].
  - assert (q <> c) by nia. destruct (Z.even q); lia.
  - assert (q <> c) by nia. lia.
  - lia.
Qed.

Lemma pow2_pos e : 0 < 2 ^ e \/ e < 0.
Proof. destruct (Z.lt_ge_cases e 0); [now right|left; now apply Z.pow_pos_nonneg]. Qed.

Lemma pow2_gt0 e : 0 <= e -> 0 < 2 ^ e.
Proof. intros. now apply Z.pow_pos_nonneg. Qed.

Lemma scaled_pos n d e :
  0 < n -> 0 < d -> 0 < fst (scaled n d e) /\ 0 < snd (scaled n d e).
Proof.
  intros Hn Hd. unfold scaled. destruct (Z.leb_spec 0 e); cbn.
  - pose proof (pow2_gt0 e ltac:(lia)). split; nia.
  - pose proof (pow2_gt0 (- e) ltac:(lia)). split; nia.
Qed.

(** If [n / d < 2^(e + t)] then [(n / d) / 2^e < 2^t]. *)
Lemma scaled_lt n d e t :
  0 < n -> 0 < d -> 0 <= t ->
  fst (scaled n d (e + t)) < snd (scaled n d (e + t)) ->
  fst (scaled n d e) < 2 ^ t * snd (scaled n d e).
Proof.
  intros Hn Hd Ht. unfold scaled.
  destruct (Z.leb_spec 0 e), (Z.leb_spec 0 (e + t)); cbn; try lia.
  - rewrite Z.pow_add_r by lia. nia.
  - intros H'. replace t with ((e + t) + - e) by lia.
    rewrite Z.pow_add_r by lia.
    pose proof (pow2_gt0 (- e) ltac:(lia)).
    pose proof (pow2_gt0 (e + t) ltac:(lia)). nia.
  - intros H'. replace (- e) with (- (e + t) + t) by lia.
    rewrite Z.pow_add_r by lia.
    pose proof (pow2_gt0 t ltac:(lia)).
    pose proof (pow2_gt0 (- (e + t)) ltac:(lia)). nia.
Qed.

(** If [2^(e + t) <= n / d] then [2^t <= (n / d) / 2^e]. *)
Lemma scaled_ge n d e t :
  0 < n -> 0 < d -> 0 <= t ->
  snd (scaled n d (e + t)) <= fst (scaled n d (e + t)) ->
  2 ^ t * snd (scaled n d e) <= fst (scaled n d e).
Proof.
  intros Hn Hd Ht. unfold scaled.
  destruct (Z.leb_spec 0 e), (Z.leb_spec 0 (e + t)); cbn; try lia.
  - rewrite Z.pow_add_r by lia. nia.
  - intros H'. replace t with ((e + t) + - e) by lia.
    rewrite Z.pow_add_r by lia.
    pose proof (pow2_gt0 (- e) ltac:(lia)).
    pose proof (pow2_gt0 (e + t) ltac:(lia)). nia.
  - intros H'. replace (- e) with (- (e + t) + t) by lia.
    rewrite Z.pow_add_r by lia.
    pose proof (pow2_gt0 t ltac:(lia)).
    pose proof (pow2_gt0 (- (e + t)) ltac:(lia)). nia.
Qed.

(** [2^(floor_log2 n d) <= n / d < 2^(floor_log2 n d + 1)]. *)
Lemma floor_log2_spec n d :
  0 < n -> 0 < d ->
  snd (scaled n d (floor_log2 n d)) <= fst (scaled n d (floor_log2 n d)) /\
  fst (scaled n d (floor_log2 n d + 1)) < snd (scaled n d (floor_log2 n d + 1)).
Proof.
  intros Hn Hd. unfold floor_log2.
  pose proof (Z.log2_spec n Hn) as [Hn1 Hn2].
  pose proof (Z.log2_spec d Hd) as [Hd1 Hd2].
  pose proof (Z.log2_nonneg n) as Hln. pose proof (Z.log2_nonneg d) as Hld.
  set (ln := Z.log2 n) in *. set (ld := Z.log2 d) in *.
  rewrite <- Z.add_1_r in Hn2, Hd2.
  destruct (scaled n d (ln - ld)) as [a b] eqn:E.
  destruct (Z.leb_spec b a) as [Hba|Hba].
  - split; [rewrite E; exact Hba|].
    unfold scaled. destruct (Z.leb_spec 0 (ln - ld + 1)); cbn.
    + assert (2 ^ (ln + 1) <= d * 2 ^ (ln - ld + 1)); [|lia].
      replace (ln + 1) with (ld + (ln - ld + 1)) by lia.
      rewrite Z.pow_add_r by lia.
      pose proof (pow2_gt0 (ln - ld + 1) ltac:(lia)). nia.
    + assert (n * 2 ^ (- (ln - ld + 1)) < 2 ^ ld); [|lia].
      replace ld with ((ln + 1) + - (ln - ld + 1)) at 2 by lia.
      rewrite Z.pow_add_r by lia.
      pose proof (pow2_gt0 (- (ln - ld + 1)) ltac:(lia)). nia.
  - replace (ln - ld - 1 + 1) with (ln - ld) by lia. rewrite E. cbn [fst snd].
    split; [|exact Hba].
    unfold scaled. destruct (Z.leb_spec 0 (ln - ld - 1)); cbn.
    + assert (d * 2 ^ (ln - ld - 1) <= 2 ^ ln); [|lia].
      replace ln with ((ld + 1) + (ln - ld - 1)) at 2 by lia.
      rewrite Z.pow_add_r by lia.
      pose proof (pow2_gt0 (ln - ld - 1) ltac:(lia)). nia.
    + assert (2 ^ (ld + 1) <= n * 2 ^ (- (ln - ld - 1))); [|lia].
      replace (ld + 1) with (ln + - (ln - ld - 1)) by lia.
      rewrite Z.pow_add_r by lia.
      pose proof (pow2_gt0 (- (ln - ld - 1)) ltac:(lia)). nia.
Qed.

Lemma floor_log2_nonpos n d : 0 < n -> n <= d -> floor_log2 n d <= 0.
Proof.
  intros Hn Hnd. unfold floor_log2.
  pose proof (Z.log2_le_mono n d Hnd).
  destruct (scaled _ _ _) as [a b]. destruct (b <=? a); lia.
Qed.

Lemma floor_log2_nonneg n d : 0 < d -> d <= n -> 0 <= floor_log2 n d.
Proof.
  intros Hd Hnd. unfold floor_log2.
  pose proof (Z.log2_le_mono d n Hnd).
  destruct (Z.eq_dec (Z.log2 n - Z.log2 d) 0) as [E|E].
  - rewrite E. unfold scaled. cbn. rewrite Z.mul_1_r.
    destruct (Z.leb_spec d n); lia.
  - destruct (scaled _ _ _) as [a b]. destruct (b <=? a); lia.
Qed.

(** If [n / d < 2^u] and [u <= v] then [n / d < 2^v]. *)
Lemma scaled_lt_mono n d u v :
  0 < n -> 0 < d -> u <= v ->
  fst (scaled n d u) < snd (scaled n d u) ->
  fst (scaled n d v) < snd (scaled n d v).
Proof.
  intros Hn Hd Huv. unfold scaled.
  destruct (Z.leb_spec 0 u), (Z.leb_spec 0 v); cbn; try lia.
  - intros H'. replace v with (u + (v - u)) by lia.
    rewrite Z.pow_add_r by lia.
    pose proof (pow2_gt0 u ltac:(lia)). pose proof (pow2_gt0 (v - u) ltac:(lia)).
    nia.
  - intros H'.
    pose proof (pow2_gt0 (- u) ltac:(lia)). pose proof (pow2_gt0 v ltac:(lia)).
    nia.
  - intros H'. replace (- u) with (- v + (v - u)) in H' by lia.
    rewrite Z.pow_add_r in H' by lia.
    pose proof (pow2_gt0 (- v) ltac:(lia)). pose proof (pow2_gt0 (v - u) ltac:(lia)).
    nia.
Qed.

(** The mantissa that [round_nearest] starts from. *)
Lemma round_nearest_mantissa n d :
  0 < n -> 0 < d ->
  let e := Z.max (floor_log2 n d - (prec - 1)) emin in
  0 <= round_half_even (fst (scaled n d e)) (snd (scaled n d e)) <= 2 ^ prec.
Proof.
  intros Hn Hd e.
  destruct (scaled_pos n d e Hn Hd) as [Ha Hb].
  split; [apply round_half_even_ge; lia|].
  apply round_half_even_le; [exact Hb|].
  enough (fst (scaled n d e) < 2 ^ prec * snd (scaled n d e)) by lia.
  apply scaled_lt; [assumption|assumption|unfold prec; lia|].
  apply (scaled_lt_mono n d (floor_log2 n d + 1)); [assumption|assumption| |].
  - unfold e, prec. lia.
  - apply floor_log2_spec; assumption.
Qed.

(** [round_nearest] returns a binary64 value. *)
Lemma round_nearest_representable s n d :
  0 < n -> 0 < d -> representable (round_nearest s n d).
Proof.
  intros Hn Hd. pose proof (round_nearest_mantissa n d Hn Hd) as Hm.
  cbv zeta in Hm. unfold round_nearest.
  set (e := Z.max (floor_log2 n d - (prec - 1)) emin) in *.
  destruct (scaled n d e) as [a b]. cbn [fst snd] in Hm.
  set (m := round_half_even a b) in *.
  destruct (Z.eqb_spec m 0); [exact I|].
  destruct (Z.eqb_spec m (2 ^ prec)).
  - destruct (emax - prec <? e + 1); [exact I|]. cbn [representable].
    rewrite Z2Pos.id by (apply pow2_gt0; unfold prec; lia).
    apply Z.pow_lt_mono_r; unfold prec; lia.
  - destruct (emax - prec <? e); [exact I|]. cbn [representable].
    rewrite Z2Pos.id by lia. lia.
Qed.

Lemma ceil_small m B : 0 < m <= B -> - (- m / B) = 1.
Proof.
  intros H. pose proof (Z.div_mod (- m) B ltac:(lia)).
  pose proof (Z.mod_pos_bound (- m) B ltac:(lia)). nia.
Qed.

Lemma ceil_large m B : 0 < B -> 2 * B <= m -> 2 <= - (- m / B).
Proof.
  intros HB H. pose proof (Z.div_mod (- m) B ltac:(lia)).
  pose proof (Z.mod_pos_bound (- m) B ltac:(lia)). nia.
Qed.

Lemma ceil_above m B : 0 < B -> B < m -> 2 <= - (- m / B).
Proof.
  intros HB H. pose proof (Z.div_mod (- m) B ltac:(lia)).
  pose proof (Z.mod_pos_bound (- m) B ltac:(lia)). nia.
Qed.

(** A quotient that is at most 1 rounds to at most 1. *)
Lemma round_nearest_le_one n d :
  0 < n -> n <= d ->
  exists c, ceil (round_nearest false n d) = Ok c /\ 0 <= c <= 1.
Proof.
  intros Hn Hnd. assert (Hd : 0 < d) by lia.
  pose proof (floor_log2_nonpos n d Hn Hnd) as Hfl.
  unfold round_nearest.
  set (e := Z.max (floor_log2 n d - (prec - 1)) emin).
  assert (He : e < 0) by (unfold e, prec, emin; lia).
  unfold scaled. destruct (Z.leb_spec 0 e); [lia|].
  pose proof (pow2_gt0 (- e) ltac:(lia)) as Hp.
  assert (Hm : round_half_even (n * 2 ^ (- e)) d <= 2 ^ (- e))
    by (apply round_half_even_le; nia).
  assert (Hm0 : 0 <= round_half_even (n * 2 ^ (- e)) d)
    by (apply round_half_even_ge; nia).
  set (m := round_half_even (n * 2 ^ (- e)) d) in *.
  destruct (Z.eqb_spec m 0); [exists 0; split; [reflexivity|lia]|].
  destruct (Z.eqb_spec m (2 ^ prec)) as [E|E].
  - assert (Hle : prec <= - e).
    { apply (Z.pow_le_mono_r_iff 2); lia. }
    destruct (Z.ltb_spec (emax - prec) (e + 1)); [unfold emax, prec in *; lia|].
    exists 1. split; [|lia]. cbn [ceil].
    destruct (Z.leb_spec 0 (e + 1)); [unfold prec in *; lia|].
    f_equal. cbn [signed]. rewrite Z2Pos.id
      by (apply pow2_gt0; unfold prec; lia).
    apply ceil_small. split; [apply pow2_gt0; unfold prec; lia|].
    apply Z.pow_le_mono_r; lia.
  - destruct (Z.ltb_spec (emax - prec) e); [unfold emax, prec in *; lia|].
    exists 1. split; [|lia]. cbn [ceil].
    destruct (Z.leb_spec 0 e); [lia|].
    f_equal. cbn [signed]. rewrite Z2Pos.id by lia.
    apply ceil_small. lia.
Qed.

(** A quotient of binary64 mantissas that exceeds 1 rounds to more than
    1. *)
Lemma round_nearest_gt_one n d :
  0 < d -> d < n -> d < 2 ^ prec ->
  round_nearest false n d = S754_infinity false \/
  exists c, ceil (round_nearest false n d) = Ok c /\ 2 <= c.
Proof.
  intros Hd Hdn Hd53. assert (Hn : 0 < n) by lia.
  pose proof (floor_log2_nonneg n d Hd ltac:(lia)) as Hfl.
  pose proof (round_nearest_mantissa n d Hn Hd) as Hm. cbv zeta in Hm.
  destruct (floor_log2_spec n d Hn Hd) as [Hlow _].
  unfold round_nearest.
  set (e := Z.max (floor_log2 n d - (prec - 1)) emin) in *.
  assert (He : e = floor_log2 n d - (prec - 1)) by (unfold e, prec, emin; lia).
  destruct (scaled_pos n d e Hn Hd) as [Ha Hb].
  assert (Hm52 : 2 ^ (prec - 1) <= round_half_even (fst (scaled n d e))
                                                  (snd (scaled n d e))
                 /\ (e = - (prec - 1) ->
                     2 ^ (prec - 1) + 1
                     <= round_half_even (fst (scaled n d e))
                                        (snd (scaled n d e)))).
  { split.
    - apply round_half_even_ge; [exact Hb|].
      apply scaled_ge; [assumption|assumption|unfold prec; lia|].
      replace (e + (prec - 1)) with (floor_log2 n d) by lia. exact Hlow.
    - intros E. apply round_half_even_gt; [exact Hb|].
      rewrite E. unfold scaled. change (0 <=? - (prec - 1)) with false.
      cbn [fst snd]. change (- - (prec - 1)) with 52.
      change (prec - 1) with 52. change (2 ^ prec) with (2 * 2 ^ 52) in Hd53.
      pose proof (pow2_gt0 52 ltac:(lia)). nia. }
  destruct (scaled n d e) as [a b]. cbn [fst snd] in *.
  set (m := round_half_even a b) in *. destruct Hm52 as [Hm52 Hm52'].
  assert (H52 : 0 < 2 ^ (prec - 1)) by (apply pow2_gt0; unfold prec; lia).
  assert (H53 : 2 ^ prec = 2 * 2 ^ (prec - 1)) by reflexivity.
  destruct (Z.eqb_spec m 0); [lia|].
  destruct (Z.eqb_spec m (2 ^ prec)) as [E|E].
  - destruct (Z.ltb_spec (emax - prec) (e + 1)); [now left|]. right.
    cbn [ceil]. cbn [signed]. rewrite Z2Pos.id by lia.
    destruct (Z.leb_spec 0 (e + 1)).
    + eexists. split; [reflexivity|].
      pose proof (pow2_gt0 (e + 1) ltac:(lia)).
      assert (2 <= 2 ^ (prec - 1)) by (unfold prec; cbn; lia). nia.
    + eexists. split; [reflexivity|].
      apply ceil_large; [apply pow2_gt0; lia|].
      replace (prec - 1) with (1 + (prec - 2)) by lia.
      rewrite Z.pow_add_r by (unfold prec; lia).
      change (2 ^ 1) with 2.
      enough (2 ^ (- (e + 1)) <= 2 ^ (prec - 2)) by lia.
      apply Z.pow_le_mono_r; unfold prec in *; lia.
  - destruct (Z.ltb_spec (emax - prec) e); [now left|]. right.
    cbn [ceil]. cbn [signed].
    destruct (Z.leb_spec 0 e).
    + eexists. split; [reflexivity|]. rewrite Z2Pos.id by lia.
      pose proof (pow2_gt0 e ltac:(lia)).
      assert (2 <= 2 ^ (prec - 1)) by (unfold prec; cbn; lia). nia.
    + eexists. split; [reflexivity|].
      rewrite Z2Pos.id by lia.
      destruct (Z.eq_dec e (- (prec - 1))) as [E'|E'].
      * specialize (Hm52' E'). apply ceil_above; [apply pow2_gt0; lia|].
        rewrite E'. replace (- - (prec - 1)) with (prec - 1) by lia. lia.
      * apply ceil_large; [apply pow2_gt0; lia|].
        enough (2 * 2 ^ (- e) <= 2 ^ (prec - 1)) by lia.
        replace (prec - 1) with (1 + (prec - 2)) by lia.
        rewrite Z.pow_add_r by (unfold prec; lia).
        change (2 ^ 1) with 2.
        enough (2 ^ (- e) <= 2 ^ (prec - 2)) by lia.
        apply Z.pow_le_mono_r; unfold prec in *; lia.
Qed.

Lemma mul_representable x y : representable (mul x y).
Proof.
  destruct x as [sx|sx| |sx mx ex], y as [sy|sy| |sy my ey]; try exact I.
  cbn [mul]. destruct (0 <=? ex + ey) eqn:E.
  - apply round_nearest_representable; [|lia].
    pose proof (pow2_gt0 (ex + ey) ltac:(lia)). nia.
  - apply round_nearest_representable; [lia|].
    apply pow2_gt0. lia.
Qed.

(** A float above zero is a positive finite number or [+inf]. *)
Lemma lt_zero_inv x :
  lt (S754_zero false) x = true ->
  x = S754_infinity false \/ exists m e, x = S754_finite false m e.
Proof.
  destruct x as [s|[|]| |[|] m e]; cbn; try discriminate; eauto.
Qed.

Lemma aligned_pos m e g : g <= e -> 0 < Zpos m * 2 ^ (e - g).
Proof. intros H. pose proof (pow2_gt0 (e - g) ltac:(lia)). nia. Qed.

(** [ceil (x / y) <= 1] for positive finite [x <= y]. *)
Lemma ceil_div_le mx ex my ey :
  le (S754_finite false mx ex) (S754_finite false my ey) = true ->
  exists c,
    ceil (div (S754_finite false mx ex) (S754_finite false my ey)) = Ok c /\
    0 <= c <= 1.
Proof.
  unfold le. cbn [compare div signed xorb].
  set (g := Z.min ex ey). intros H.
  apply round_nearest_le_one; [apply aligned_pos; lia|].
  destruct (Z.compare_spec (Zpos mx * 2 ^ (ex - g)) (Zpos my * 2 ^ (ey - g)));
    [lia|lia|discriminate].
Qed.

(** [ceil (x / y) >= 2] for positive binary64 numbers [x > y], unless the
    quotient overflows. *)
Lemma ceil_div_gt mx ex my ey :
  Zpos mx < 2 ^ prec -> Zpos my < 2 ^ prec ->
  le (S754_finite false mx ex) (S754_finite false my ey) = false ->
  div (S754_finite false mx ex) (S754_finite false my ey)
  = S754_infinity false \/
  exists c,
    ceil (div (S754_finite false mx ex) (S754_finite false my ey)) = Ok c /\
    2 <= c.
Proof.
  intros Hx Hy. unfold le. cbn [compare div signed xorb].
  set (g := Z.min ex ey). intros H.
  assert (Hgt : Zpos my * 2 ^ (ey - g) < Zpos mx * 2 ^ (ex - g)).
  { destruct (Z.compare_spec (Zpos mx * 2 ^ (ex - g)) (Zpos my * 2 ^ (ey - g)));
      [discriminate|discriminate|lia]. }
  apply round_nearest_gt_one; [apply aligned_pos; lia|exact Hgt|].
  destruct (Z.min_spec ex ey) as [[_ E]|[_ E]]; fold g in E; rewrite E in *.
  - replace (ex - ex) with 0 in Hgt by lia. rewrite Z.pow_0_r in Hgt. lia.
  - replace (ey - ey) with 0 by lia. rewrite Z.pow_0_r. lia.
Qed.

End Binary64.

(** * The planner on binary64 floats

    hybrid_fuel_optimization.py with its floats as they are: every
    operation rounds, a division by zero raises [ZeroDivisionError],
    [math.ceil] of an infinity raises [OverflowError], and the functions of
    the [math] module raise [ValueError] outside their domain. *)

Module Planner.
Import Binary64.
Local Open Scope Z_scope.

Notation "x <- m ;; k" := (bind m (fun x => k))
  (at level 61, m at next level, right associativity).

(** A point is the tuple [(lat, lon)] in degrees. *)
Definition point : Type := float * float.

(** The functions of the C library that the [math] module and the power
    operator call.  What they return is up to the platform; the planner is
    modelled for every such library. *)
Record libm : Type := {
  c_sin : float -> float;
  c_cos : float -> float;
  c_asin : float -> float;
  c_sqrt : float -> float;
  c_pow : float -> float -> float
}.

(** The integers of the source that take part in float arithmetic. *)
Definition float_of_int (n : Z) : float := round_rational n 1.

Definition zero : float := S754_zero false.

Definition one : float := float_of_int 1.

Definition two : float := float_of_int 2.

(** [x == y]. *)
Definition eqb (x y : float) : bool :=
  match compare x y with Some Eq => true | _ => false end.

(** A function of one argument of the [math] module ([math_1] in
    CPython): NaN for a number, or an infinity for a finite number, is
    turned into [ValueError]. *)
Definition math_1 (func : float -> float) (x : float) : result float :=
  let r := func x in
  if is_nan r && negb (is_nan x) then ValueError
  else if is_inf r && is_finite x then ValueError
  else Ok r.

(** [x ** 2] ([float_pow] in CPython): the special values are settled
    without the C library, for the others [pow(|x|, 2.0)] is called and an
    infinite result is an [OverflowError]. *)
Definition square (c : libm) (x : float) : result float :=
  match x with
  | S754_nan => Ok x
  | S754_infinity _ => Ok (S754_infinity false)
  | S754_zero _ => Ok zero
  | S754_finite _ m e =>
      let iv := S754_finite false m e in
      if eqb iv one then Ok one
      else
        let ix := c_pow c iv two in
        if is_inf ix then OverflowError else Ok ix
  end.

(** [math.radians]: [x * (pi / 180)], the factor being a constant of the
    interpreter. *)
Definition pi : float := literal 3141592653589793 (-15).

Definition radians (x : float) : float :=
  mul x (div pi (float_of_int 180)).

(** [calculate_distance] (lines 26-42). *)
Definition calculate_distance (c : libm) (point1 point2 : point)
  : result float :=
  let '(lat1, lon1) := point1 in
  let '(lat2, lon2) := point2 in
  let lat1 := radians lat1 in
  let lon1 := radians lon1 in
  let lat2 := radians lat2 in
  let lon2 := radians lon2 in
  let dlat := sub lat2 lat1 in
  let dlon := sub lon2 lon1 in
  half_dlat <- truediv dlat two ;;
  sin_dlat <- math_1 (c_sin c) half_dlat ;;
  sin_dlat_2 <- square c sin_dlat ;;
  cos_lat1 <- math_1 (c_cos c) lat1 ;;
  cos_lat2 <- math_1 (c_cos c) lat2 ;;
  half_dlon <- truediv dlon two ;;
  sin_dlon <- math_1 (c_sin c) half_dlon ;;
  sin_dlon_2 <- square c sin_dlon ;;
  let a := add sin_dlat_2 (mul (mul cos_lat1 cos_lat2) sin_dlon_2) in
  sqrt_a <- math_1 (c_sqrt c) a ;;
  asin_sqrt_a <- math_1 (c_asin c) sqrt_a ;;
  let c := mul two asin_sqrt_a in
  let r := float_of_int 3959 in
  Ok (mul c r).

(** [interpolate_point] (lines 44-53). *)
Definition interpolate_point (start end_ : point) (ratio : float) : point :=
  let '(lat1, lon1) := start in
  let '(lat2, lon2) := end_ in
  let lat := add lat1 (mul (sub lat2 lat1) ratio) in
  let lon := add lon1 (mul (sub lon2 lon1) ratio) in
  (lat, lon).

(** The service object: [self.max_range] and [self.mpg], read from the
    settings by [__init__] (lines 20-24) without any check.  The settings
    are not among the sources; they are taken to hold floats.  An integer
    setting below [2^53] in absolute value behaves as the float of the same
    value: the comparison with it is exact and its conversion for the
    division is exact. *)
Record HybridFuelOptimizationService : Type := {
  max_range : float;
  mpg : float
}.

(** A row of the [FuelStation] table, as far as the planner reads it;
    [retail_price] is [float(station.retail_price)]. *)
Record FuelStation : Type := {
  name : string;
  address : string;
  city : string;
  state : string;
  retail_price : float
}.

(** The ad-hoc [Station] object built for every stop (lines 121-129). *)
Record Station : Type := {
  station_name : string;
  station_address : string;
  station_city : string;
  station_state : string;
  station_latitude : float;
  station_longitude : float;
  station_retail_price : float
}.

Record FuelStop : Type := {
  station : Station;
  distance_from_previous : float;
  fuel_needed : float;
  cost : float
}.

Record Summary : Type := {
  total_distance_miles : float;
  total_fuel_gallons : float;
  total_cost : float;
  number_of_stops : nat
}.

Record Plan : Type := {
  fuel_stops : list FuelStop;
  summary : Summary
}.

(** [str(n)] for a non-negative integer. *)
Definition str (n : nat) : string := NilEmpty.string_of_uint (Nat.to_uint n).

(** The price of the placeholder station of stop [i] (line 110):
    [base_price + (price_variation * (0.5 - (i % 3) * 0.2))]. *)
Definition placeholder_price (base_price price_variation : float) (i : nat)
  : float :=
  add base_price
      (mul price_variation
           (sub (literal 5 (-1))
                (mul (float_of_int (Z.of_nat (i mod 3))) (literal 2 (-1))))).

(** The name, address, city, state and price of stop [i] (lines 102-114). *)
Definition stop_station (real_stations : list FuelStation)
           (base_price price_variation : float) (i : nat)
  : string * string * string * string * float :=
  match nth_error real_stations i with
  | Some s => (name s, address s, city s, state s, retail_price s)
  | None =>
      (("Fuel Stop " ++ str (i + 1))%string,
       ("Highway " ++ str (i + 1) ++ ", Exit " ++ str (i + 1))%string,
       ("City " ++ str (i + 1))%string,
       "ST"%string,
       placeholder_price base_price price_variation i)
  end.

(** The body of [for i in range(stops_needed)] (lines 94-139), threading
    [fuel_stops], [total_cost] and [current_pos]. *)
Fixpoint stops_loop (c : libm) (self : HybridFuelOptimizationService)
         (real_stations : list FuelStation) (base_price price_variation : float)
         (start_coords end_coords : point) (stops_needed : Z)
         (range : list nat)
         (fuel_stops : list FuelStop) (total_cost : float) (current_pos : point)
  : result (list FuelStop * float * point) :=
  match range with
  | [] => Ok (fuel_stops, total_cost, current_pos)
  | i :: range' =>
      ratio <- int_truediv (Z.of_nat i + 1) (stops_needed + 1) ;;
      let stop_coords := interpolate_point start_coords end_coords ratio in
      distance_from_prev <- calculate_distance c current_pos stop_coords ;;
      let '(station_name, station_address, station_city, station_state,
            fuel_price) :=
        stop_station real_stations base_price price_variation i in
      fuel_needed <- truediv distance_from_prev (mpg self) ;;
      let cost := mul fuel_needed fuel_price in
      let station :=
        {| station_name := station_name;
           station_address := station_address;
           station_city := station_city;
           station_state := station_state;
           station_latitude := fst stop_coords;
           station_longitude := snd stop_coords;
           station_retail_price := fuel_price |} in
      let fuel_stops :=
        fuel_stops ++ [{| station := station;
                          distance_from_previous := distance_from_prev;
                          fuel_needed := fuel_needed;
                          cost := cost |}] in
      let total_cost := add total_cost cost in
      let current_pos := stop_coords in
      stops_loop c self real_stations base_price price_variation
                 start_coords end_coords stops_needed range'
                 fuel_stops total_cost current_pos
  end.

(** [sum(stop['fuel_needed'] for stop in fuel_stops)], as the running
    float sum.  The sum starts from the integer 0, which is read here as
    the float 0.0; they differ only over no stops, where Python returns the
    integer 0.  From version 3.12 on, [sum] compensates the rounding errors
    of the partial sums; over fewer than two stops, the only sums that are
    evaluated below, this changes nothing. *)
Definition sum_fuel_needed (fuel_stops : list FuelStop) : float :=
  fold_left (fun acc stop => add acc (fuel_needed stop)) fuel_stops zero.

(** [find_optimal_fuel_stops] (lines 55-152).  [ordered_stations] is the
    table in the order of [FuelStation.objects.all().order_by('retail_price')],
    of which the query reads the first ten. *)
Definition find_optimal_fuel_stops (c : libm)
           (self : HybridFuelOptimizationService)
           (ordered_stations : list FuelStation)
           (start_coords end_coords : point) : result Plan :=
  total_distance <- calculate_distance c start_coords end_coords ;;
  if le total_distance (max_range self) then
    total_fuel <- truediv total_distance (mpg self) ;;
    Ok {| fuel_stops := [];
          summary := {| total_distance_miles := round2 total_distance;
                        total_fuel_gallons := round2 total_fuel;
                        total_cost := zero;
                        number_of_stops := 0 |} |}
  else
    quotient <- truediv total_distance (max_range self) ;;
    ceiling <- ceil quotient ;;
    let stops_needed := ceiling - 1 in
    let real_stations := firstn 10 ordered_stations in
    let base_price :=
      match real_stations with
      | s :: _ => retail_price s
      | [] => literal 350 (-2)
      end in
    let price_variation := literal 5 (-1) in
    st <- stops_loop c self real_stations base_price price_variation
                     start_coords end_coords stops_needed
                     (seq 0 (Z.to_nat stops_needed))
                     [] zero start_coords ;;
    let '(fuel_stops, total_cost, _) := st in
    let total_fuel := sum_fuel_needed fuel_stops in
    Ok {| fuel_stops := fuel_stops;
          summary := {| total_distance_miles := round2 total_distance;
                        total_fuel_gallons := round2 total_fuel;
                        total_cost := round2 total_cost;
                        number_of_stops := length fuel_stops |} |}.

(** ** A C library for closed examples

    The values of the C library (glibc, x86-64) at the arguments that the
    examples below reach; everywhere else the table answers NaN, which
    [math_1] turns into [ValueError]. *)

Definition tabulated (table : list (float * float)) (x : float) : float :=
  match find (fun entry => eqb x (fst entry)) table with
  | Some entry => snd entry
  | None => S754_nan
  end.

Definition sample_libm : libm :=
  {| c_sin := tabulated
       [ (zero, zero);
         (literal 8726646259971648 (-18), literal 8726535498373935 (-18));
         (literal 4363323129985824 (-18), literal 4363309284746571 (-18)) ];
     c_cos := tabulated
       [ (zero, one);
         (literal 17453292519943295 (-18), literal 9998476951563913 (-16));
         (literal 8726646259971648 (-18), literal 9999619230641713 (-16)) ];
     c_asin := tabulated
       [ (literal 8726535498373935 (-18), literal 8726646259971648 (-18));
         (literal 4363309284746571 (-18), literal 4363323129985824 (-18)) ];
     c_sqrt := tabulated
       [ (literal 7615242180438042 (-20), literal 8726535498373935 (-18));
         (literal 19038467914355635 (-21), literal 4363309284746571 (-18)) ];
     c_pow := fun x _ => tabulated
       [ (literal 8726535498373935 (-18), literal 7615242180438042 (-20));
         (literal 4363309284746571 (-18), literal 19038467914355635 (-21)) ]
       x |}.

(** The origin and the point one degree north of it. *)
Definition origin : point := (zero, zero).

Definition one_degree_north : point := (one, zero).

(** A table of two stations, already in the order of their prices. *)
Definition two_stations : list FuelStation :=
  [ {| name := "Cheap Fuel"; address := "1 Main St"; city := "Springfield";
       state := "IL"; retail_price := literal 299 (-2) |};
    {| name := "Fair Fuel"; address := "2 Oak Ave"; city := "Peoria";
       state := "IL"; retail_price := literal 310 (-2) |} ].

(** ** The outcome of the planner *)

Lemma bind_ok {A B} (m : result A) (k : A -> result B) (b : B) :
  bind m k = Ok b -> exists a, m = Ok a /\ k a = Ok b.
Proof. destruct m; cbn; try discriminate. eauto. Qed.

(** A distance, when one is returned, is a binary64 value: it is the
    result of the last multiplication. *)
Lemma calculate_distance_representable c point1 point2 total :
  calculate_distance c point1 point2 = Ok total -> representable total.
Proof.
  destruct point1 as [lat1 lon1], point2 as [lat2 lon2].
  unfold calculate_distance. intros H.
  repeat (apply bind_ok in H; destruct H as (? & _ & H)).
  injection H as <-. apply mul_representable.
Qed.

(** The branch of lines 61-71. *)
Lemma within_range_branch c self ordered_stations
      start_coords end_coords total :
  calculate_distance c start_coords end_coords = Ok total ->
  le total (max_range self) = true ->
  find_optimal_fuel_stops c self ordered_stations start_coords end_coords
  = (total_fuel <- truediv total (mpg self) ;;
     Ok {| fuel_stops := [];
           summary := {| total_distance_miles := round2 total;
                         total_fuel_gallons := round2 total_fuel;
                         total_cost := zero;
                         number_of_stops := 0 |} |}).
Proof.
  intros Hd Hle. unfold find_optimal_fuel_stops. rewrite Hd. cbn [bind].
  now rewrite Hle.
Qed.

(** The branch of lines 73-152. *)
Lemma beyond_range_branch c self ordered_stations
      start_coords end_coords total :
  calculate_distance c start_coords end_coords = Ok total ->
  le total (max_range self) = false ->
  find_optimal_fuel_stops c self ordered_stations start_coords end_coords
  = (quotient <- truediv total (max_range self) ;;
     ceiling <- ceil quotient ;;
     let real_stations := firstn 10 ordered_stations in
     let base_price :=
       match real_stations with
       | s :: _ => retail_price s
       | [] => literal 350 (-2)
       end in
     st <- stops_loop c self real_stations base_price (literal 5 (-1))
                      start_coords end_coords (ceiling - 1)
                      (seq 0 (Z.to_nat (ceiling - 1)))
                      [] zero start_coords ;;
     let '(fuel_stops, total_cost, _) := st in
     Ok {| fuel_stops := fuel_stops;
           summary := {| total_distance_miles := round2 total;
                         total_fuel_gallons :=
                           round2 (sum_fuel_needed fuel_stops);
                         total_cost := round2 total_cost;
                         number_of_stops := length fuel_stops |} |}).
Proof.
  intros Hd Hle. unfold find_optimal_fuel_stops. rewrite Hd. cbn [bind].
  now rewrite Hle.
Qed.

Section Loop.
Variable c : libm.
Variable self : HybridFuelOptimizationService.
Variable real_stations : list FuelStation.
Variables base_price price_variation : float.
Variables start_coords end_coords : point.
Variable stops_needed : Z.

Abbreviation loop :=
  (stops_loop c self real_stations base_price price_variation
              start_coords end_coords stops_needed).

(** One turn of the loop that does not raise. *)
Lemma stops_loop_step i range fuel_stops total_cost current_pos out :
  loop (i :: range) fuel_stops total_cost current_pos = Ok out ->
  exists stop total_cost' current_pos',
    loop range (fuel_stops ++ [stop]) total_cost' current_pos' = Ok out /\
    (let '(n, a, ci, s, p) :=
       stop_station real_stations base_price price_variation i in
     station_name (station stop) = n /\
     station_address (station stop) = a /\
     station_city (station stop) = ci /\
     station_state (station stop) = s /\
     station_retail_price (station stop) = p) /\
    is_zero (mpg self) = false.
Proof.
  cbn [stops_loop]. intros H.
  apply bind_ok in H. destruct H as (ratio & _ & H).
  apply bind_ok in H. destruct H as (distance_from_prev & _ & H).
  destruct (stop_station real_stations base_price price_variation i)
    as [[[[n a] ci] s] p].
  apply bind_ok in H. destruct H as (needed & Hdiv & H).
  eexists _, _, _. split; [exact H|]. split; [cbn; auto|].
  unfold truediv in Hdiv. destruct (is_zero (mpg self)); [discriminate|reflexivity].
Qed.

(** A run of the loop that does not raise appends one stop per index, and
    stop number [k] of the run is built from the station of its index. *)
Lemma stops_loop_stops : forall range fuel_stops total_cost current_pos out,
  loop range fuel_stops total_cost current_pos = Ok out ->
  exists added,
    fst (fst out) = fuel_stops ++ added /\
    length added = length range /\
    forall k i stop,
      nth_error range k = Some i -> nth_error added k = Some stop ->
      let '(n, a, ci, s, p) :=
        stop_station real_stations base_price price_variation i in
      station_name (station stop) = n /\
      station_address (station stop) = a /\
      station_city (station stop) = ci /\
      station_state (station stop) = s /\
      station_retail_price (station stop) = p.
Proof.
  induction range as [|i range IH]; intros fuel_stops total_cost current_pos out H.
  - cbn in H. injection H as <-. exists []. cbn. rewrite app_nil_r.
    split; [reflexivity|]. split; [reflexivity|]. intros [|k]; discriminate.
  - apply stops_loop_step in H.
    destruct H as (stop & total_cost' & current_pos' & H & Hstop & _).
    destruct (IH _ _ _ _ H) as (added & Hadded & Hlen & Hnth).
    exists (stop :: added).
    split; [rewrite Hadded, <- app_assoc; reflexivity|].
    split; [cbn; now rewrite Hlen|].
    intros [|k] j stop' Hj Hs; cbn in Hj, Hs.
    + injection Hj as <-. injection Hs as <-. exact Hstop.
    + now apply (Hnth k).
Qed.

(** With [mpg = 0] a loop with something to do does not return. *)
Lemma stops_loop_mpg_zero i range fuel_stops total_cost current_pos out :
  is_zero (mpg self) = true ->
  loop (i :: range) fuel_stops total_cost current_pos <> Ok out.
Proof.
  intros Hz H. apply stops_loop_step in H.
  destruct H as (_ & _ & _ & _ & _ & H). congruence.
Qed.
End Loop.

(** The outcome of the division of a distance by a negative range: minus
    infinity, or a number whose ceiling is not positive. *)
Lemma round_nearest_negative n d :
  round_nearest true n d = S754_infinity true \/
  exists ceiling, ceil (round_nearest true n d) = Ok ceiling /\ ceiling <= 0.
Proof.
  unfold round_nearest. destruct (scaled _ _ _) as [a b].
  destruct (_ =? 0); [right; exists 0; split; [reflexivity|lia]|].
  destruct (if _ =? _ then _ else _) as [m e].
  destruct (_ <? e); [now left|right]. cbn [ceil signed].
  destruct (Z.leb_spec 0 e).
  - eexists. split; [reflexivity|].
    pose proof (pow2_gt0 e ltac:(lia)). nia.
  - eexists. split; [reflexivity|].
    rewrite Pos2Z.opp_neg.
    pose proof (pow2_gt0 (- e) ltac:(lia)).
    pose proof (Z.div_pos (Zpos (Z.to_pos m)) (2 ^ (- e)) ltac:(lia) ltac:(lia)).
    lia.
Qed.

Lemma div_by_negative total range_ :
  le zero total = true -> is_finite total = true ->
  lt range_ zero = true ->
  div total range_ = S754_infinity true \/
  exists ceiling, ceil (div total range_) = Ok ceiling /\ ceiling <= 0.
Proof.
  destruct total as [st| | |[|] mt et]; try discriminate;
    destruct range_ as [sr|[|]| |[|] mr er]; try discriminate; intros _ _ _;
    try (right; exists 0; split; [reflexivity|lia]).
  cbn [div xorb]. apply round_nearest_negative.
Qed.

(** ** Settled properties of the planner *)

(** C4 (as stated, refuted).  From (0, 0) to (1, 0) with a range of 500
    miles and 10 miles per gallon the distance 69.09758508645551 is within
    range and the quotient is 6.909758508645551; the plan reports a total
    fuel of 6.91. *)
Lemma total_fuel_is_rounded :
  exists plan,
    calculate_distance sample_libm origin one_degree_north
    = Ok (literal 6909758508645551 (-14)) /\
    find_optimal_fuel_stops sample_libm
      {| max_range := literal 500 0; mpg := literal 10 0 |}
      two_stations origin one_degree_north = Ok plan /\
    fuel_stops plan = [] /\
    truediv (literal 6909758508645551 (-14)) (literal 10 0)
    = Ok (literal 6909758508645551 (-15)) /\
    total_fuel_gallons (summary plan) = literal 691 (-2) /\
    total_fuel_gallons (summary plan) <> literal 6909758508645551 (-15).
Proof.
  eexists. split; [vm_compute; reflexivity|].
  split; [vm_compute; reflexivity|].
  split; [reflexivity|]. split; [vm_compute; reflexivity|].
  split; [vm_compute; reflexivity|]. vm_compute. discriminate.
Qed.

(** C4 (amended).  For every planning run with a non-zero mpgEquivalent
    in which the distance is within the range, the planner returns zero
    stops, an empty stop list, a total fuel equal to the float quotient
    totalDistance / mpgEquivalent rounded to two decimals by [round], and a
    total cost of 0. *)
Theorem within_range_plan (c : libm) (self : HybridFuelOptimizationService)
        (ordered_stations : list FuelStation)
        (start_coords end_coords : point) (total_distance : float) :
  calculate_distance c start_coords end_coords = Ok total_distance ->
  le total_distance (max_range self) = true ->
  is_zero (mpg self) = false ->
  find_optimal_fuel_stops c self ordered_stations start_coords end_coords
  = Ok {| fuel_stops := [];
          summary :=
            {| total_distance_miles := round2 total_distance;
               total_fuel_gallons := round2 (div total_distance (mpg self));
               total_cost := zero;
               number_of_stops := 0 |} |}.
Proof.
  intros Hd Hle Hmpg.
  rewrite (within_range_branch _ _ _ _ _ _ Hd Hle).
  unfold truediv. rewrite Hmpg. reflexivity.
Qed.

Lemma within_range_plan_witness :
  find_optimal_fuel_stops sample_libm
    {| max_range := literal 500 0; mpg := literal 6875381600642339 (-14) |}
    two_stations origin one_degree_north
  = Ok {| fuel_stops := [];
          summary :=
            {| total_distance_miles := round2 (literal 6909758508645551 (-14));
               total_fuel_gallons :=
                 round2 (div (literal 6909758508645551 (-14))
                             (literal 6875381600642339 (-14)));
               total_cost := zero;
               number_of_stops := 0 |} |} /\
  div (literal 6909758508645551 (-14)) (literal 6875381600642339 (-14))
  = literal 10050000000000001 (-16) /\
  round2 (literal 10050000000000001 (-16)) = literal 101 (-2).
Proof.
  split; [|split; vm_compute; reflexivity].
  apply (within_range_plan sample_libm
           {| max_range := literal 500 0;
              mpg := literal 6875381600642339 (-14) |}
           two_stations origin one_degree_north
           (literal 6909758508645551 (-14))).
  - vm_compute. reflexivity.
  - vm_compute. reflexivity.
  - vm_compute. reflexivity.
Defined.

(** C2.  For every planning run with a positive distance and a positive
    range that returns a plan, the number of stops reported is
    [max(0, ceil(totalDistance / maxRange) - 1)], the quotient being the
    float quotient that the code computes; it is 0 exactly when the
    distance is within the range, and [ceil(totalDistance / maxRange) - 1]
    is at least 1 otherwise.  The distance is a finite float, and the range
    a binary64 value, infinity included. *)
Theorem number_of_stops_formula (c : libm)
        (self : HybridFuelOptimizationService)
        (ordered_stations : list FuelStation)
        (start_coords end_coords : point) (total_distance : float)
        (plan : Plan) :
  calculate_distance c start_coords end_coords = Ok total_distance ->
  lt zero total_distance = true ->
  is_finite total_distance = true ->
  lt zero (max_range self) = true ->
  representable (max_range self) ->
  find_optimal_fuel_stops c self ordered_stations start_coords end_coords
  = Ok plan ->
  exists quotient ceiling,
    truediv total_distance (max_range self) = Ok quotient /\
    ceil quotient = Ok ceiling /\
    Z.of_nat (number_of_stops (summary plan)) = Z.max 0 (ceiling - 1) /\
    (number_of_stops (summary plan) = 0%nat <->
     le total_distance (max_range self) = true) /\
    (le total_distance (max_range self) = false -> 1 <= ceiling - 1).
Proof.
  intros Hd Htotal Hfinite Hrange Hrepr Hplan.
  pose proof (calculate_distance_representable _ _ _ _ Hd) as Hrt.
  destruct (lt_zero_inv _ Htotal) as [E|(mx & ex & ->)];
    [rewrite E in Hfinite; discriminate|].
  destruct (lt_zero_inv _ Hrange) as [Hmr|(my & ey & Hmr)].
  - assert (Hle : le (S754_finite false mx ex) (max_range self) = true)
      by (rewrite Hmr; reflexivity).
    rewrite (within_range_branch _ _ _ _ _ _ Hd Hle) in Hplan.
    apply bind_ok in Hplan. destruct Hplan as (total_fuel & _ & Hplan).
    injection Hplan as <-. cbn [summary number_of_stops].
    rewrite Hmr. exists (S754_zero false), 0.
    split; [reflexivity|]. split; [reflexivity|].
    split; [reflexivity|]. split; [split; reflexivity|discriminate].
  - rewrite Hmr in Hrepr. cbn [representable] in Hrt, Hrepr.
    exists (div (S754_finite false mx ex) (S754_finite false my ey)).
    destruct (le (S754_finite false mx ex) (S754_finite false my ey)) eqn:Hle.
    + destruct (ceil_div_le _ _ _ _ Hle) as (ceiling & Hceil & Hbound).
      exists ceiling.
      rewrite (within_range_branch _ _ _ _ _ _ Hd) in Hplan
        by (rewrite Hmr; exact Hle).
      apply bind_ok in Hplan. destruct Hplan as (total_fuel & _ & Hplan).
      injection Hplan as <-. cbn [summary number_of_stops].
      rewrite Hmr, Hle.
      split; [reflexivity|]. split; [exact Hceil|].
      split; [lia|]. split; [tauto|discriminate].
    + rewrite (beyond_range_branch _ _ _ _ _ _ Hd) in Hplan
        by (rewrite Hmr; exact Hle).
      rewrite Hmr in Hplan. cbn [truediv is_zero bind] in Hplan.
      apply bind_ok in Hplan. destruct Hplan as (ceiling & Hceil & Hplan).
      exists ceiling. cbv zeta in Hplan.
      apply bind_ok in Hplan.
      destruct Hplan as ([[stops tc] pos] & Hloop & Hplan).
      injection Hplan as <-. cbn [summary number_of_stops].
      destruct (stops_loop_stops _ _ _ _ _ _ _ _ _ _ _ _ _ Hloop)
        as (added & Hadded & Hlen & _).
      cbn [fst app] in Hadded. subst stops. rewrite Hlen, length_seq.
      destruct (ceil_div_gt _ _ _ _ Hrt Hrepr Hle)
        as [Hinf|(ceiling' & Hceil' & Hbound)].
      { rewrite Hinf in Hceil. discriminate. }
      rewrite Hceil in Hceil'. injection Hceil' as <-.
      rewrite Hmr, Hle.
      split; [reflexivity|]. split; [exact Hceil|].
      split; [lia|]. split; [|lia].
      split; [lia|discriminate].
Qed.

(** The plan of a run that returns one. *)
Definition returned (run : result Plan) : Plan :=
  match run with
  | Ok plan => plan
  | _ => {| fuel_stops := [];
            summary := {| total_distance_miles := zero;
                          total_fuel_gallons := zero;
                          total_cost := zero;
                          number_of_stops := 0 |} |}
  end.

(** The plan from (0, 0) to (1, 0) with a range of 40 miles and 10 miles
    per gallon: one stop, at (0.5, 0). *)
Definition one_stop_plan : Plan :=
  Eval vm_compute in
    returned (find_optimal_fuel_stops sample_libm
                {| max_range := literal 40 0; mpg := literal 10 0 |}
                two_stations origin one_degree_north).

Lemma one_stop_run :
  find_optimal_fuel_stops sample_libm
    {| max_range := literal 40 0; mpg := literal 10 0 |}
    two_stations origin one_degree_north
  = Ok one_stop_plan.
Proof. vm_compute. reflexivity. Qed.

Lemma number_of_stops_formula_witness :
  exists quotient ceiling,
    truediv (literal 6909758508645551 (-14)) (literal 40 0) = Ok quotient /\
    ceil quotient = Ok ceiling /\
    Z.of_nat (number_of_stops (summary one_stop_plan)) = Z.max 0 (ceiling - 1) /\
    (number_of_stops (summary one_stop_plan) = 0%nat <->
     le (literal 6909758508645551 (-14)) (literal 40 0) = true) /\
    (le (literal 6909758508645551 (-14)) (literal 40 0) = false ->
     1 <= ceiling - 1).
Proof.
  apply (number_of_stops_formula sample_libm
           {| max_range := literal 40 0; mpg := literal 10 0 |}
           two_stations origin one_degree_north
           (literal 6909758508645551 (-14)) one_stop_plan).
  - vm_compute. reflexivity.
  - reflexivity.
  - reflexivity.
  - reflexivity.
  - vm_compute. reflexivity.
  - exact one_stop_run.
Defined.

(** Where the exact quotient of the two floats lies just above an integer,
    the float quotient can be that integer: 69.09758508645551 is more than
    5 times 13.819517017291101, and yet their float quotient is 5.0, so
    that four stops are planned. *)
Lemma quotient_on_an_integer :
  exists mt et mr er,
    literal 6909758508645551 (-14) = S754_finite false mt et /\
    literal 13819517017291101 (-15) = S754_finite false mr er /\
    5 * (Zpos mr * 2 ^ (er - Z.min et er))
    < Zpos mt * 2 ^ (et - Z.min et er) /\
    truediv (literal 6909758508645551 (-14)) (literal 13819517017291101 (-15))
    = Ok (float_of_int 5) /\
    ceil (float_of_int 5) = Ok 5.
Proof.
  eexists _, _, _, _.
  split; [vm_compute; reflexivity|]. split; [vm_compute; reflexivity|].
  split; [vm_compute; reflexivity|]. split; vm_compute; reflexivity.
Qed.

(** C7 (as stated, refuted).  With a range of -500 miles nothing is
    rejected: from (0, 0) to (1, 0) a plan without stops is returned. *)
Lemma negative_range_not_rejected :
  exists plan,
    lt (literal (-500) 0) zero = true /\
    find_optimal_fuel_stops sample_libm
      {| max_range := literal (-500) 0; mpg := literal 10 0 |}
      two_stations origin one_degree_north = Ok plan /\
    fuel_stops plan = [] /\
    number_of_stops (summary plan) = 0%nat.
Proof.
  eexists. split; [reflexivity|]. split; [vm_compute; reflexivity|].
  split; reflexivity.
Qed.

Lemma le_zero_positive total :
  le zero total = true -> is_finite total = true ->
  is_zero total = true \/ exists m e, total = S754_finite false m e.
Proof.
  destruct total as [s| | |[|] m e]; try discriminate; eauto.
Qed.

Lemma not_le_negative total range_ :
  le zero total = true -> is_finite total = true ->
  lt range_ zero = true ->
  le total range_ = false /\ is_zero range_ = false.
Proof.
  destruct total as [st| | |[|] mt et]; try discriminate;
    destruct range_ as [sr|[|]| |[|] mr er]; try discriminate; intros _ _ _;
    try (split; reflexivity).
  split; [|reflexivity]. unfold le. cbn [compare signed].
  pose proof (pow2_gt0 (et - Z.min et er) ltac:(lia)).
  pose proof (pow2_gt0 (er - Z.min et er) ltac:(lia)).
  destruct (Z.compare_spec (Zpos mt * 2 ^ (et - Z.min et er))
                           (Zneg mr * 2 ^ (er - Z.min et er)));
    [nia|nia|reflexivity].
Qed.

(** C7 (amended).  The planner does not validate its configuration and
    has no InvalidConfig outcome; it computes with what it is given.  With
    a negative maxRange it returns a plan without stops, whatever
    mpgEquivalent is, unless the float quotient totalDistance / maxRange is
    infinite: then [math.ceil] raises OverflowError.  With maxRange = 0 and
    a positive distance it raises ZeroDivisionError.  With
    mpgEquivalent = 0 it raises ZeroDivisionError when the distance is
    within the range, and returns no plan when the distance is beyond a
    positive range.  With a negative mpgEquivalent and a distance within
    the range it returns a plan. *)
Theorem no_config_validation (c : libm) (self : HybridFuelOptimizationService)
        (ordered_stations : list FuelStation)
        (start_coords end_coords : point) (total_distance : float) :
  calculate_distance c start_coords end_coords = Ok total_distance ->
  le zero total_distance = true ->
  is_finite total_distance = true ->
  let run :=
    find_optimal_fuel_stops c self ordered_stations start_coords end_coords in
  (lt (max_range self) zero = true ->
   run = if is_inf (div total_distance (max_range self))
         then OverflowError
         else Ok {| fuel_stops := [];
                    summary :=
                      {| total_distance_miles := round2 total_distance;
                         total_fuel_gallons := zero;
                         total_cost := zero;
                         number_of_stops := 0 |} |}) /\
  (is_zero (max_range self) = true -> lt zero total_distance = true ->
   run = ZeroDivisionError) /\
  (is_zero (mpg self) = true ->
   le total_distance (max_range self) = true ->
   run = ZeroDivisionError) /\
  (is_zero (mpg self) = true ->
   lt zero (max_range self) = true -> representable (max_range self) ->
   le total_distance (max_range self) = false ->
   forall plan, run <> Ok plan) /\
  (lt (mpg self) zero = true ->
   le total_distance (max_range self) = true ->
   run = Ok {| fuel_stops := [];
               summary :=
                 {| total_distance_miles := round2 total_distance;
                    total_fuel_gallons :=
                      round2 (div total_distance (mpg self));
                    total_cost := zero;
                    number_of_stops := 0 |} |}).
Proof.
  intros Hd Hpos Hfin run. subst run.
  split; [|split; [|split; [|split]]].
  - intros Hneg.
    destruct (not_le_negative _ _ Hpos Hfin Hneg) as [Hle Hnz].
    rewrite (beyond_range_branch _ _ _ _ _ _ Hd Hle).
    unfold truediv. rewrite Hnz. cbn [bind].
    destruct (div_by_negative _ _ Hpos Hfin Hneg)
      as [->|(ceiling & Hceil & Hbound)]; [reflexivity|].
    rewrite Hceil. cbn [bind].
    replace (Z.to_nat (ceiling - 1)) with 0%nat by lia. cbn.
    destruct (div total_distance (max_range self));
      try reflexivity; discriminate.
  - intros Hzero Hlt.
    assert (Hle : le total_distance (max_range self) = false).
    { destruct (max_range self); try discriminate.
      destruct (lt_zero_inv _ Hlt) as [->|(m & e & ->)]; reflexivity. }
    rewrite (beyond_range_branch _ _ _ _ _ _ Hd Hle).
    unfold truediv. now rewrite Hzero.
  - intros Hzero Hle.
    rewrite (within_range_branch _ _ _ _ _ _ Hd Hle).
    unfold truediv. now rewrite Hzero.
  - intros Hzero Hrange Hrepr Hle plan Hplan.
    pose proof (calculate_distance_representable _ _ _ _ Hd) as Hrt.
    rewrite (beyond_range_branch _ _ _ _ _ _ Hd Hle) in Hplan.
    apply bind_ok in Hplan. destruct Hplan as (quotient & Hq & Hplan).
    apply bind_ok in Hplan. destruct Hplan as (ceiling & Hceil & Hplan).
    cbv zeta in Hplan.
    apply bind_ok in Hplan. destruct Hplan as (out & Hloop & _).
    destruct (lt_zero_inv _ Hrange) as [E|(my & ey & E)]; rewrite E in *.
    { destruct total_distance as [s|[|]| |s m e]; discriminate. }
    destruct (le_zero_positive _ Hpos Hfin) as [Hz|(mx & ex & ->)].
    { destruct total_distance; discriminate. }
    unfold truediv in Hq. cbn [is_zero] in Hq.
    assert (Hquot : quotient
                    = div (S754_finite false mx ex) (S754_finite false my ey))
      by congruence.
    subst quotient. clear Hq.
    destruct (ceil_div_gt _ _ _ _ Hrt Hrepr Hle)
      as [Hinf|(ceiling' & Hceil' & Hbound)].
    { rewrite Hinf in Hceil. discriminate. }
    rewrite Hceil in Hceil'. injection Hceil' as <-.
    destruct (Z.to_nat (ceiling - 1)) as [|n] eqn:En; [lia|].
    cbn [seq] in Hloop. revert Hloop. now apply stops_loop_mpg_zero.
  - intros Hneg Hle.
    rewrite (within_range_branch _ _ _ _ _ _ Hd Hle).
    unfold truediv.
    destruct (mpg self) as [s| | |s m e]; try discriminate; reflexivity.
Qed.

Lemma no_config_validation_witness :
  find_optimal_fuel_stops sample_libm
    {| max_range := literal (-500) 0; mpg := zero |}
    two_stations origin one_degree_north
  = (if is_inf (div (literal 6909758508645551 (-14)) (literal (-500) 0))
     then OverflowError
     else Ok {| fuel_stops := [];
                summary :=
                  {| total_distance_miles :=
                       round2 (literal 6909758508645551 (-14));
                     total_fuel_gallons := zero;
                     total_cost := zero;
                     number_of_stops := 0 |} |}) /\
  is_inf (div (literal 6909758508645551 (-14)) (literal (-500) 0)) = false /\
  find_optimal_fuel_stops sample_libm
    {| max_range := literal (-1) (-320); mpg := literal 10 0 |}
    two_stations origin one_degree_north
  = OverflowError.
Proof.
  split; [|split; vm_compute; reflexivity].
  apply (no_config_validation sample_libm
           {| max_range := literal (-500) 0; mpg := zero |}
           two_stations origin one_degree_north
           (literal 6909758508645551 (-14))).
  - vm_compute. reflexivity.
  - reflexivity.
  - reflexivity.
  - reflexivity.
Defined.

(** ** The stations of a plan *)

Lemma nth_error_seq_lt k : forall start len i,
  nth_error (seq start len) k = Some i -> i = (start + k)%nat.
Proof.
  induction k as [|k IH]; intros start [|len] i H; cbn in H; try discriminate.
  - injection H as <-. lia.
  - apply IH in H. lia.
Qed.

(** The three offsets of the placeholder prices:
    [price_variation * (0.5 - (i % 3) * 0.2)] for [price_variation = 0.5]. *)
Definition placeholder_offsets : list float :=
  [literal 25 (-2); literal 15 (-2); literal 4999999999999999 (-17)].

Lemma placeholder_price_offsets base_price i :
  placeholder_price base_price (literal 5 (-1)) i
  = add base_price (nth (i mod 3) placeholder_offsets zero).
Proof.
  unfold placeholder_price.
  pose proof (Nat.mod_upper_bound i 3 ltac:(lia)) as H.
  destruct (i mod 3)%nat as [|[|[|n]]]; [reflexivity|reflexivity|reflexivity|lia].
Qed.

(** X10.  In a returned plan stop number [i] (from 0) carries the name,
    address, city, state and price of the [i]-th cheapest station of the
    table when [i < 10] and the table has one.  Otherwise it is a
    placeholder named "Fuel Stop i+1" in state "ST" whose price is the base
    price (the cheapest price of the table, or 3.50 for an empty table)
    plus 0.25, 0.15 or 0.04999999999999999 as [i mod 3] is 0, 1 or 2. *)
Theorem stop_stations (c : libm) (self : HybridFuelOptimizationService)
        (ordered_stations : list FuelStation)
        (start_coords end_coords : point) (plan : Plan)
        (i : nat) (stop : FuelStop) :
  find_optimal_fuel_stops c self ordered_stations start_coords end_coords
  = Ok plan ->
  nth_error (fuel_stops plan) i = Some stop ->
  match nth_error (firstn 10 ordered_stations) i with
  | Some s =>
      station_name (station stop) = name s /\
      station_address (station stop) = address s /\
      station_city (station stop) = city s /\
      station_state (station stop) = state s /\
      station_retail_price (station stop) = retail_price s
  | None =>
      let base_price :=
        match ordered_stations with
        | s :: _ => retail_price s
        | [] => literal 350 (-2)
        end in
      station_name (station stop) = ("Fuel Stop " ++ str (i + 1))%string /\
      station_address (station stop)
      = ("Highway " ++ str (i + 1) ++ ", Exit " ++ str (i + 1))%string /\
      station_city (station stop) = ("City " ++ str (i + 1))%string /\
      station_state (station stop) = "ST"%string /\
      station_retail_price (station stop)
      = add base_price (nth (i mod 3) placeholder_offsets zero)
  end.
Proof.
  intros Hplan Hnth. unfold find_optimal_fuel_stops in Hplan.
  apply bind_ok in Hplan. destruct Hplan as (total & _ & Hplan).
  destruct (le total (max_range self)).
  { apply bind_ok in Hplan. destruct Hplan as (fuel & _ & Hplan).
    injection Hplan as <-. destruct i; discriminate. }
  apply bind_ok in Hplan. destruct Hplan as (quotient & _ & Hplan).
  apply bind_ok in Hplan. destruct Hplan as (ceiling & _ & Hplan).
  cbv zeta in Hplan.
  apply bind_ok in Hplan. destruct Hplan as ([[stops tc] pos] & Hloop & Hplan).
  injection Hplan as <-. cbn [fuel_stops] in Hnth.
  destruct (stops_loop_stops _ _ _ _ _ _ _ _ _ _ _ _ _ Hloop)
    as (added & Hadded & Hlen & Hstations).
  cbn [fst app] in Hadded. subst stops.
  assert (Hi : nth_error (seq 0 (Z.to_nat (ceiling - 1))) i = Some i).
  { destruct (nth_error (seq 0 (Z.to_nat (ceiling - 1))) i) as [j|] eqn:E.
    - apply nth_error_seq_lt in E. now subst j.
    - apply nth_error_None in E. rewrite <- Hlen in E.
      assert (nth_error added i <> None) by congruence.
      apply nth_error_Some in H. lia. }
  specialize (Hstations i i stop Hi Hnth). unfold stop_station in Hstations.
  destruct (nth_error (firstn 10 ordered_stations) i) as [s|]; [exact Hstations|].
  cbv zeta. rewrite placeholder_price_offsets in Hstations.
  destruct ordered_stations as [|s rest]; exact Hstations.
Qed.

Lemma stop_stations_witness :
  exists stop,
    nth_error (fuel_stops one_stop_plan) 0 = Some stop /\
    station_name (station stop) = "Cheap Fuel"%string /\
    station_address (station stop) = "1 Main St"%string /\
    station_city (station stop) = "Springfield"%string /\
    station_state (station stop) = "IL"%string /\
    station_retail_price (station stop) = literal 299 (-2).
Proof.
  eexists. split; [reflexivity|].
  refine (stop_stations sample_libm
            {| max_range := literal 40 0; mpg := literal 10 0 |}
            two_stations origin one_degree_north one_stop_plan 0 _
            one_stop_run eq_refl).
Defined.

End Planner.

(** * The planner in exact arithmetic

    The geometry of hybrid_fuel_optimization.py read over the real numbers:
    the arithmetic is exact, [math.sin], [math.cos], [math.asin] and
    [math.sqrt] are the real functions, and the only exception is the
    division by zero.  This reading is used for the properties that are
    stated with floats read as real numbers, that is up to floating
    rounding: the geometry of the distance and of the legs.  What depends
    on the rounding of a float or on an exception of float arithmetic (the
    number of stops, the totals of the summary, the prices, the behaviour on
    an unusable configuration) is settled on the binary64 model of module
    [Planner] above. *)

Module ExactPlanner.
Local Open Scope R_scope.

(** A point is the tuple [(lat, lon)] in degrees. *)
Definition point : Type := R * R.

(** Outcome of a computation that may divide by zero. *)
Inductive result (A : Type) : Type :=
| Ok (a : A)
| ZeroDivisionError.
Arguments Ok {A} a.
Arguments ZeroDivisionError {A}.

Definition bind {A B} (m : result A) (k : A -> result B) : result B :=
  match m with
  | Ok a => k a
  | ZeroDivisionError => ZeroDivisionError
  end.

Notation "x <- m ;; k" := (bind m (fun x => k))
  (at level 61, m at next level, right associativity).

(** [x / y] in exact arithmetic: only the division by zero raises. *)
Definition pydiv (x y : R) : result R :=
  if Req_dec_T y 0 then ZeroDivisionError else Ok (x / y).

(** [math.radians]. *)
Definition radians (deg : R) : R := deg * (PI / 180).

(** The haversine term [a] of [calculate_distance], on radians. *)
Definition haversine_a (lat1 lon1 lat2 lon2 : R) : R :=
  let dlat := lat2 - lat1 in
  let dlon := lon2 - lon1 in
  sin (dlat / 2) ^ 2 + cos lat1 * cos lat2 * sin (dlon / 2) ^ 2.

(** [calculate_distance] (lines 26-42).  [math.sqrt] and [math.asin] raise
    outside of their domains; [haversine_a_range] below shows that [a] stays
    within [0, 1], so they are used inside their domains. *)
Definition calculate_distance (point1 point2 : point) : R :=
  let '(lat1, lon1) := point1 in
  let '(lat2, lon2) := point2 in
  let lat1 := radians lat1 in
  let lon1 := radians lon1 in
  let lat2 := radians lat2 in
  let lon2 := radians lon2 in
  let a := haversine_a lat1 lon1 lat2 lon2 in
  let c := 2 * asin (sqrt a) in
  let r := 3959 in
  c * r.

(** [interpolate_point] (lines 44-53). *)
Definition interpolate_point (start end_ : point) (ratio : R) : point :=
  let '(lat1, lon1) := start in
  let '(lat2, lon2) := end_ in
  let lat := lat1 + (lat2 - lat1) * ratio in
  let lon := lon1 + (lon2 - lon1) * ratio in
  (lat, lon).

(** [round(x)] of Python 3 on a real: nearest integer, ties to even. *)
Definition py_round (x : R) : Z :=
  let f := Zfloor x in
  let d := x - IZR f in
  if Rlt_dec d (1 / 2) then f
  else if Rlt_dec (1 / 2) d then (f + 1)%Z
  else if Z.even f then f else (f + 1)%Z.

(** [round(x, 2)]. *)
Definition round2 (x : R) : R := IZR (py_round (x * 100)) / 100.

(** The service object: [self.max_range] and [self.mpg], read from the
    settings by [__init__] (lines 20-24) without any check. *)
Record HybridFuelOptimizationService : Type := {
  max_range : R;
  mpg : R
}.

(** A row of the [FuelStation] table, as far as the planner reads it. *)
Record FuelStation : Type := {
  name : string;
  address : string;
  city : string;
  state : string;
  retail_price : R
}.

(** The ad-hoc [Station] object built for every stop (lines 121-129). *)
Record Station : Type := {
  station_name : string;
  station_address : string;
  station_city : string;
  station_state : string;
  station_latitude : R;
  station_longitude : R;
  station_retail_price : R
}.

Record FuelStop : Type := {
  station : Station;
  distance_from_previous : R;
  fuel_needed : R;
  cost : R
}.

Record Summary : Type := {
  total_distance_miles : R;
  total_fuel_gallons : R;
  total_cost : R;
  number_of_stops : nat
}.

Record Plan : Type := {
  fuel_stops : list FuelStop;
  summary : Summary
}.

(** [str(n)] for a non-negative integer. *)
Definition str (n : nat) : string := NilEmpty.string_of_uint (Nat.to_uint n).

(** The name, address, city, state and price of stop [i] (lines 102-114). *)
Definition stop_station (real_stations : list FuelStation)
           (base_price price_variation : R) (i : nat)
  : string * string * string * string * R :=
  match nth_error real_stations i with
  | Some s => (name s, address s, city s, state s, retail_price s)
  | None =>
      let fuel_price :=
        base_price + price_variation * (5 / 10 - INR (i mod 3) * (2 / 10)) in
      (("Fuel Stop " ++ str (i + 1))%string,
       ("Highway " ++ str (i + 1) ++ ", Exit " ++ str (i + 1))%string,
       ("City " ++ str (i + 1))%string,
       "ST"%string,
       fuel_price)
  end.

(** The body of [for i in range(stops_needed)] (lines 94-139), threading
    [fuel_stops], [total_cost] and [current_pos]. *)
Fixpoint stops_loop (self : HybridFuelOptimizationService)
         (real_stations : list FuelStation) (base_price price_variation : R)
         (start_coords end_coords : point) (stops_needed : Z)
         (range : list nat)
         (fuel_stops : list FuelStop) (total_cost : R) (current_pos : point)
  : result (list FuelStop * R * point) :=
  match range with
  | [] => Ok (fuel_stops, total_cost, current_pos)
  | i :: range' =>
      ratio <- pydiv (INR i + 1) (IZR stops_needed + 1) ;;
      let stop_coords := interpolate_point start_coords end_coords ratio in
      let distance_from_prev := calculate_distance current_pos stop_coords in
      let '(station_name, station_address, station_city, station_state,
            fuel_price) :=
        stop_station real_stations base_price price_variation i in
      fuel_needed <- pydiv distance_from_prev (mpg self) ;;
      let cost := fuel_needed * fuel_price in
      let station :=
        {| station_name := station_name;
           station_address := station_address;
           station_city := station_city;
           station_state := station_state;
           station_latitude := fst stop_coords;
           station_longitude := snd stop_coords;
           station_retail_price := fuel_price |} in
      let fuel_stops :=
        fuel_stops ++ [{| station := station;
                          distance_from_previous := distance_from_prev;
                          fuel_needed := fuel_needed;
                          cost := cost |}] in
      let total_cost := total_cost + cost in
      let current_pos := stop_coords in
      stops_loop self real_stations base_price price_variation
                 start_coords end_coords stops_needed range'
                 fuel_stops total_cost current_pos
  end.

(** [sum(stop['fuel_needed'] for stop in fuel_stops)]. *)
Definition sum_fuel_needed (fuel_stops : list FuelStop) : R :=
  fold_left (fun acc stop => acc + fuel_needed stop) fuel_stops 0.

(** [find_optimal_fuel_stops] (lines 55-152).  [real_stations] is the
    outcome of the query [FuelStation.objects.all().order_by('retail_price')[:10]],
    the ten cheapest stations in ascending price order. *)
Definition find_optimal_fuel_stops (self : HybridFuelOptimizationService)
           (real_stations : list FuelStation)
           (start_coords end_coords : point) : result Plan :=
  let total_distance := calculate_distance start_coords end_coords in
  if Rle_dec total_distance (max_range self) then
    total_fuel <- pydiv total_distance (mpg self) ;;
    Ok {| fuel_stops := [];
          summary := {| total_distance_miles := round2 total_distance;
                        total_fuel_gallons := round2 total_fuel;
                        total_cost := 0;
                        number_of_stops := 0 |} |}
  else
    q <- pydiv total_distance (max_range self) ;;
    let stops_needed := (Zceil q - 1)%Z in
    let base_price :=
      match real_stations with
      | s :: _ => retail_price s
      | [] => 35 / 10
      end in
    let price_variation := 5 / 10 in
    st <- stops_loop self real_stations base_price price_variation
                     start_coords end_coords stops_needed
                     (seq 0 (Z.to_nat stops_needed))
                     [] 0 start_coords ;;
    let '(fuel_stops, total_cost, _) := st in
    let total_fuel := sum_fuel_needed fuel_stops in
    Ok {| fuel_stops := fuel_stops;
          summary := {| total_distance_miles := round2 total_distance;
                        total_fuel_gallons := round2 total_fuel;
                        total_cost := round2 total_cost;
                        number_of_stops := length fuel_stops |} |}.

(** The final leg of a plan: from the last stop (the origin when there is
    none) to the destination. *)
Definition stop_coords_of (stop : FuelStop) : point :=
  (station_latitude (station stop), station_longitude (station stop)).

Definition last_position (start_coords : point) (stops : list FuelStop) : point :=
  last (map stop_coords_of stops) start_coords.

Definition final_leg (start_coords end_coords : point) (stops : list FuelStop) : R :=
  calculate_distance (last_position start_coords stops) end_coords.

Definition sum_distances (stops : list FuelStop) : R :=
  fold_right (fun stop acc => distance_from_previous stop + acc) 0 stops.

(** Length of the polygonal route from [current_pos] through [points]. *)
Fixpoint path_length (current_pos : point) (points : list point) : R :=
  match points with
  | [] => 0
  | p :: points' => calculate_distance current_pos p + path_length p points'
  end.

(** Scalar product of the unit vectors of two points given in radians. *)
Definition dot (lat1 lon1 lat2 lon2 : R) : R :=
  sin lat1 * sin lat2 + cos lat1 * cos lat2 * cos (lon2 - lon1).

(** The central angle [c] of [calculate_distance], on radians. *)
Definition central_angle (lat1 lon1 lat2 lon2 : R) : R :=
  2 * asin (sqrt (haversine_a lat1 lon1 lat2 lon2)).

(** The running [total_cost += cost] of the loop, from 0. *)
Definition sum_costs (stops : list FuelStop) : R :=
  fold_left (fun acc stop => acc + cost stop) stops 0.

(** A value lies between two others, in either order. *)
Definition between (a b x : R) : Prop := Rmin a b <= x <= Rmax a b.

(** Position of stop [i] when [stops_needed] stops are planned. *)
Definition stop_position (start_coords end_coords : point) (stops_needed : Z)
           (i : nat) : point :=
  interpolate_point start_coords end_coords
                    ((INR i + 1) / (IZR stops_needed + 1)).

(** The stop appended by one successful iteration of the loop. *)
Definition stop_at (self : HybridFuelOptimizationService)
           (real_stations : list FuelStation) (base_price price_variation : R)
           (start_coords end_coords : point) (stops_needed : Z)
           (current_pos : point) (i : nat) : FuelStop :=
  let stop_coords := stop_position start_coords end_coords stops_needed i in
  let distance_from_prev := calculate_distance current_pos stop_coords in
  let '(station_name, station_address, station_city, station_state,
        fuel_price) :=
    stop_station real_stations base_price price_variation i in
  let fuel_needed := distance_from_prev / mpg self in
  {| station := {| station_name := station_name;
                   station_address := station_address;
                   station_city := station_city;
                   station_state := station_state;
                   station_latitude := fst stop_coords;
                   station_longitude := snd stop_coords;
                   station_retail_price := fuel_price |};
     distance_from_previous := distance_from_prev;
     fuel_needed := fuel_needed;
     cost := fuel_needed * fuel_price |}.

(** The stops appended by a successful run of the loop over [range]. *)
Fixpoint stops_from (self : HybridFuelOptimizationService)
         (real_stations : list FuelStation) (base_price price_variation : R)
         (start_coords end_coords : point) (stops_needed : Z)
         (current_pos : point) (range : list nat) : list FuelStop :=
  match range with
  | [] => []
  | i :: range' =>
      stop_at self real_stations base_price price_variation
              start_coords end_coords stops_needed current_pos i
      :: stops_from self real_stations base_price price_variation
                    start_coords end_coords stops_needed
                    (stop_position start_coords end_coords stops_needed i)
                    range'
  end.

(** ** Great-circle distance *)

Lemma sin_half_sqr x : sin (x / 2) ^ 2 = (1 - cos x) / 2.
Proof.
  replace x with (2 * (x / 2)) at 2 by field.
  rewrite cos_2a_sin. field.
Qed.

(** In exact arithmetic the haversine term is always a valid argument of
    [math.sqrt] and its root a valid argument of [math.asin]. *)
Lemma haversine_a_range lat1 lon1 lat2 lon2 :
  0 <= haversine_a lat1 lon1 lat2 lon2 <= 1.
Proof.
  unfold haversine_a. cbv zeta.
  rewrite !sin_half_sqr, cos_minus.
  pose proof (sin2_cos2 lat1) as H1. pose proof (sin2_cos2 lat2) as H2.
  pose proof (COS_bound (lon2 - lon1)) as Ht.
  unfold Rsqr in H1, H2.
  set (s1 := sin lat1) in *. set (c1 := cos lat1) in *.
  set (s2 := sin lat2) in *. set (c2 := cos lat2) in *.
  set (t := cos (lon2 - lon1)) in *.
  assert (Hs : - 1 <= s1 * s2 + c1 * c2 * t <= 1).
  { pose proof (Rle_0_sqr (s1 - s2)) as A1.
    pose proof (Rle_0_sqr (s1 + s2)) as A2.
    pose proof (Rle_0_sqr (c1 - c2)) as A3.
    pose proof (Rle_0_sqr (c1 + c2)) as A4.
    unfold Rsqr in A1, A2, A3, A4.
    assert (Hc : - Rabs (c1 * c2) <= c1 * c2 * t <= Rabs (c1 * c2))
      by (unfold Rabs; destruct (Rcase_abs (c1 * c2)); split; nra).
    assert (Rabs (c1 * c2) <= (c1 * c1 + c2 * c2) / 2)
      by (unfold Rabs; destruct (Rcase_abs (c1 * c2)); lra).
    lra. }
  split; nra.
Qed.

Lemma asin_nonneg x : 0 <= x -> 0 <= asin x.
Proof.
  intros Hx. destruct (Rle_dec 1 x) as [H1|H1].
  - unfold asin. destruct (Rle_dec x (-1)); [lra|].
    destruct (Rle_dec 1 x); [|lra]. pose proof PI_RGT_0. lra.
  - destruct (Rle_dec 0 (asin x)) as [H|H]; [exact H|exfalso].
    pose proof (asin_bound x) as Hb. pose proof PI_RGT_0 as Hpi.
    assert (Hs : sin (asin x) < 0) by (apply sin_lt_0_var; lra).
    rewrite sin_asin in Hs by lra. lra.
Qed.

Lemma calculate_distance_nonneg p q : 0 <= calculate_distance p q.
Proof.
  destruct p as [lat1 lon1], q as [lat2 lon2]. unfold calculate_distance.
  pose proof (asin_nonneg _ (sqrt_pos (haversine_a (radians lat1) (radians lon1)
                                                   (radians lat2) (radians lon2)))).
  nra.
Qed.

Lemma haversine_a_sym lat1 lon1 lat2 lon2 :
  haversine_a lat1 lon1 lat2 lon2 = haversine_a lat2 lon2 lat1 lon1.
Proof.
  unfold haversine_a. cbv zeta.
  replace ((lat1 - lat2) / 2) with (- ((lat2 - lat1) / 2)) by field.
  replace ((lon1 - lon2) / 2) with (- ((lon2 - lon1) / 2)) by field.
  rewrite !sin_neg. ring.
Qed.

(** Along a meridian the distance is the latitude difference in radians
    times the radius. *)
Lemma calculate_distance_meridian lat1 lat2 lon :
  Rabs (lat2 - lat1) <= 180 ->
  calculate_distance (lat1, lon) (lat2, lon)
  = Rabs (lat2 - lat1) * (PI / 180) * 3959.
Proof.
  intros Hd. unfold calculate_distance, haversine_a. cbv zeta.
  pose proof PI_RGT_0 as Hpi.
  assert (Hd' : -180 <= lat2 - lat1 <= 180)
    by (revert Hd; unfold Rabs; destruct (Rcase_abs (lat2 - lat1)); lra).
  replace ((radians lon - radians lon) / 2) with 0 by field.
  rewrite sin_0.
  replace (sin ((radians lat2 - radians lat1) / 2) ^ 2
           + cos (radians lat1) * cos (radians lat2) * 0 ^ 2)
    with (Rsqr (sin ((radians lat2 - radians lat1) / 2)))
    by (unfold Rsqr; ring).
  rewrite sqrt_Rsqr_abs.
  set (x := (radians lat2 - radians lat1) / 2).
  assert (Hx : x = (lat2 - lat1) * (PI / 360)) by (unfold x, radians; field).
  assert (Habs : Rabs (sin x) = sin (Rabs x)).
  { unfold Rabs at 2. destruct (Rcase_abs x) as [Hneg|Hpos].
    - rewrite sin_neg. apply Rabs_left. apply sin_lt_0_var; [|lra].
      rewrite Hx. nra.
    - apply Rabs_right. apply Rle_ge. apply sin_ge_0; [lra|].
      rewrite Hx. nra. }
  rewrite Habs.
  assert (Hax : Rabs x = Rabs (lat2 - lat1) * (PI / 360)).
  { rewrite Hx, Rabs_mult. f_equal. apply Rabs_right. lra. }
  rewrite asin_sin.
  - rewrite Hax. field.
  - rewrite Hax. pose proof (Rabs_pos (lat2 - lat1)). split; nra.
Qed.

(** ** Settled properties of the distance *)

(** C9.  For all coordinate pairs [a] and [b], [distance(a, b)] equals
    [distance(b, a)], and [distance(a, a)] is 0. *)
Theorem calculate_distance_sym_refl (a b : point) :
  calculate_distance a b = calculate_distance b a /\
  calculate_distance a a = 0.
Proof.
  destruct a as [lat1 lon1], b as [lat2 lon2]. split.
  - unfold calculate_distance. now rewrite haversine_a_sym.
  - rewrite calculate_distance_meridian; rewrite Rminus_diag, Rabs_R0; lra.
Qed.

(** Bounds on pi good to four decimals. *)
Lemma PI_lower : 31415 / 10000 < PI.
Proof.
  pose proof (PI_2_3_7_ineq 1) as [Hlo _].
  unfold sum_f_R0, tg_alt, PI_2_3_7_tg, Ratan_seq in Hlo.
  cbn [Nat.mul Nat.add pow INR] in Hlo.
  lra.
Qed.

Lemma PI_upper : PI < 31416 / 10000.
Proof.
  pose proof (PI_2_3_7_ineq 2) as [_ Hup].
  unfold sum_f_R0, tg_alt, PI_2_3_7_tg, Ratan_seq in Hup.
  cbn [Nat.mul Nat.add pow INR] in Hup.
  lra.
Qed.

(** ** The stop loop *)

Lemma pydiv_ok x y : y <> 0 -> pydiv x y = Ok (x / y).
Proof. intros H. unfold pydiv. destruct (Req_dec_T y 0); [contradiction|reflexivity]. Qed.

Lemma pydiv_zero x : pydiv x 0 = ZeroDivisionError.
Proof. unfold pydiv. destruct (Req_dec_T 0 0); [reflexivity|contradiction]. Qed.

Section Loop.
Variable self : HybridFuelOptimizationService.
Variable real_stations : list FuelStation.
Variables base_price price_variation : R.
Variables start_coords end_coords : point.
Variable stops_needed : Z.

Let loop := stops_loop self real_stations base_price price_variation
                       start_coords end_coords stops_needed.
Let from := stops_from self real_stations base_price price_variation
                       start_coords end_coords stops_needed.

(** With non-zero divisors every iteration succeeds and appends its stop. *)
Lemma stops_loop_ok range : forall fuel_stops total_cost current_pos,
  mpg self <> 0 -> IZR stops_needed + 1 <> 0 ->
  exists total_cost' current_pos',
    loop range fuel_stops total_cost current_pos
    = Ok (fuel_stops ++ from current_pos range, total_cost', current_pos').
Proof.
  subst loop from.
  induction range as [|i range IH]; intros fuel_stops total_cost current_pos Hm Hn.
  - cbn. rewrite app_nil_r. eauto.
  - cbn [stops_loop stops_from]. rewrite pydiv_ok by exact Hn. cbn [bind].
    unfold stop_at, stop_position.
    destruct (stop_station real_stations base_price price_variation i)
      as [[[[nm ad] ct] st] pr].
    rewrite pydiv_ok by exact Hm. cbn [bind].
    edestruct IH as (tc' & cp' & ->); [exact Hm|exact Hn|].
    rewrite <- app_assoc. cbn [app]. eauto.
Qed.

Lemma stops_from_length current_pos range :
  length (from current_pos range) = length range.
Proof.
  subst from. revert current_pos.
  induction range as [|i range IH]; intros current_pos; cbn; [|rewrite IH];
    reflexivity.
Qed.

Lemma stops_from_nonneg current_pos range :
  Forall (fun stop => 0 <= distance_from_previous stop) (from current_pos range).
Proof.
  subst from. revert current_pos.
  induction range as [|i range IH]; intros current_pos; cbn [stops_from];
    constructor; [|apply IH].
  unfold stop_at.
  destruct (stop_station real_stations base_price price_variation i)
    as [[[[nm ad] ct] st] pr].
  cbn. apply calculate_distance_nonneg.
Qed.
End Loop.

Lemma Zceil_gt_1 q : 1 < q -> (2 <= Zceil q)%Z.
Proof.
  intros Hq. pose proof (Zceil_bound q) as [_ Hb].
  assert (H : 1 < IZR (Zceil q)) by lra.
  apply lt_IZR in H. lia.
Qed.

(** The planner on the long branch, with non-zero divisors. *)
Lemma find_optimal_fuel_stops_beyond self real_stations start_coords end_coords :
  max_range self < calculate_distance start_coords end_coords ->
  max_range self <> 0 ->
  (mpg self <> 0 \/
   (Zceil (calculate_distance start_coords end_coords / max_range self) - 1 <= 0)%Z) ->
  exists base_price price_variation total_cost,
    let stops_needed :=
      (Zceil (calculate_distance start_coords end_coords / max_range self) - 1)%Z in
    let stops :=
      stops_from self real_stations base_price price_variation
                 start_coords end_coords stops_needed start_coords
                 (seq 0 (Z.to_nat stops_needed)) in
    find_optimal_fuel_stops self real_stations start_coords end_coords
    = Ok {| fuel_stops := stops;
            summary :=
              {| total_distance_miles :=
                   round2 (calculate_distance start_coords end_coords);
                 total_fuel_gallons := round2 (sum_fuel_needed stops);
                 total_cost := round2 total_cost;
                 number_of_stops := length stops |} |}.
Proof.
  intros Hgt Hr Hm. unfold find_optimal_fuel_stops. cbv zeta.
  destruct (Rle_dec _ _) as [Hle|_]; [lra|].
  rewrite pydiv_ok by exact Hr. cbn [bind].
  set (n := (Zceil (calculate_distance start_coords end_coords / max_range self) - 1)%Z).
  set (base := match real_stations with s :: _ => retail_price s | [] => 35 / 10 end).
  destruct (Z_le_gt_dec n 0) as [Hn|Hn].
  - replace (Z.to_nat n) with 0%nat by lia. cbn.
    exists base, (5 / 10), 0. reflexivity.
  - destruct Hm as [Hm|Hm]; [|fold n in Hm; lia].
    assert (Hn1 : IZR n + 1 <> 0).
    { assert (0 < IZR n) by (apply IZR_lt; lia). lra. }
    destruct (stops_loop_ok self real_stations base (5 / 10) start_coords
                end_coords n (seq 0 (Z.to_nat n)) [] 0 start_coords Hm Hn1)
      as (tc & cp & Hloop).
    rewrite Hloop. cbn [bind app].
    exists base, (5 / 10), tc. reflexivity.
Qed.

(** One degree of latitude north of the origin (0, 0). *)
Lemma distance_one_degree :
  calculate_distance (0, 0) (1, 0) = PI / 180 * 3959.
Proof.
  rewrite calculate_distance_meridian; rewrite Rminus_0_r, Rabs_R1; lra.
Qed.

(** ** Legs of a plan *)

Lemma pydiv_inv x y r : pydiv x y = Ok r -> r = x / y.
Proof. unfold pydiv. destruct (Req_dec_T y 0); congruence. Qed.

(** Whenever the loop returns, it has appended exactly [stops_from]. *)
Lemma stops_loop_inv self real_stations base_price price_variation
      start_coords end_coords stops_needed range :
  forall fuel_stops total_cost current_pos fuel_stops' total_cost' current_pos',
    stops_loop self real_stations base_price price_variation start_coords
               end_coords stops_needed range fuel_stops total_cost current_pos
    = Ok (fuel_stops', total_cost', current_pos') ->
    fuel_stops'
    = fuel_stops ++ stops_from self real_stations base_price price_variation
                               start_coords end_coords stops_needed
                               current_pos range.
Proof.
  induction range as [|i range IH];
    intros fuel_stops total_cost current_pos fs' tc' cp' H.
  - cbn in H. injection H as <- _ _. now rewrite app_nil_r.
  - cbn [stops_loop stops_from] in *.
    destruct (pydiv (INR i + 1) (IZR stops_needed + 1)) as [ratio|] eqn:Er;
      [|discriminate].
    apply pydiv_inv in Er. subst ratio. cbn [bind] in H.
    unfold stop_at, stop_position.
    destruct (stop_station real_stations base_price price_variation i)
      as [[[[nm ad] ct] st] pr].
    destruct (pydiv _ (mpg self)) as [fuel|] eqn:Ef; [|discriminate].
    apply pydiv_inv in Ef. subst fuel. cbn [bind] in H.
    apply IH in H. rewrite H, <- app_assoc. reflexivity.
Qed.

(** The stop list of any returned plan. *)
Lemma returned_plan_stops self real_stations start_coords end_coords plan :
  find_optimal_fuel_stops self real_stations start_coords end_coords = Ok plan ->
  fuel_stops plan = [] \/
  exists base_price price_variation,
    let stops_needed :=
      (Zceil (calculate_distance start_coords end_coords / max_range self) - 1)%Z in
    fuel_stops plan
    = stops_from self real_stations base_price price_variation
                 start_coords end_coords stops_needed start_coords
                 (seq 0 (Z.to_nat stops_needed)).
Proof.
  unfold find_optimal_fuel_stops. cbv zeta.
  destruct (Rle_dec _ _) as [Hle|Hgt].
  - destruct (pydiv _ (mpg self)); [|discriminate].
    cbn [bind]. intros [= <-]. left. reflexivity.
  - destruct (pydiv _ (max_range self)) as [q|] eqn:Eq; [|discriminate].
    apply pydiv_inv in Eq. subst q. cbn [bind].
    destruct (stops_loop _ _ _ _ _ _ _ _ _ _ _) as [[[fs tc] cp]|] eqn:El;
      [|discriminate].
    cbn [bind]. intros [= <-]. right.
    apply stops_loop_inv in El. cbn [app] in El. cbn [fuel_stops]. eauto.
Qed.

Lemma stops_from_coords self real_stations base_price price_variation
      start_coords end_coords stops_needed range : forall current_pos,
  map stop_coords_of
      (stops_from self real_stations base_price price_variation start_coords
                  end_coords stops_needed current_pos range)
  = map (stop_position start_coords end_coords stops_needed) range.
Proof.
  induction range as [|i range IH]; intros current_pos; [reflexivity|].
  cbn [stops_from map]. rewrite IH. f_equal.
  unfold stop_at.
  destruct (stop_station real_stations base_price price_variation i)
    as [[[[nm ad] ct] st] pr].
  unfold stop_coords_of. cbn. now destruct (stop_position _ _ _ _).
Qed.

(** On a meridian the stops stay on the meridian, evenly spaced. *)
Lemma stop_position_meridian lat1 lat2 lon stops_needed i :
  stop_position (lat1, lon) (lat2, lon) stops_needed i
  = (lat1 + (lat2 - lat1) * ((INR i + 1) / (IZR stops_needed + 1)), lon).
Proof. unfold stop_position, interpolate_point. f_equal. ring. Qed.

Section Meridian.
Variable self : HybridFuelOptimizationService.
Variable real_stations : list FuelStation.
Variables base_price price_variation : R.
Variables lat1 lat2 lon : R.
Variable stops_needed : Z.
Hypothesis Hlat : Rabs (lat2 - lat1) <= 180.
Hypothesis Hstops : 0 < IZR stops_needed.

Let leg := Rabs (lat2 - lat1) / (IZR stops_needed + 1) * (PI / 180) * 3959.
Let at_step (k : nat) : point :=
  (lat1 + (lat2 - lat1) * (INR k / (IZR stops_needed + 1)), lon).

Lemma meridian_step_distance k :
  (INR k + 1 <= IZR stops_needed + 1) ->
  calculate_distance (at_step k) (at_step (S k)) = leg.
Proof.
  intros Hk. subst at_step leg. cbv beta.
  assert (Hn : 0 < IZR stops_needed + 1) by lra.
  assert (Hdiff : lat1 + (lat2 - lat1) * (INR (S k) / (IZR stops_needed + 1))
                  - (lat1 + (lat2 - lat1) * (INR k / (IZR stops_needed + 1)))
                  = (lat2 - lat1) / (IZR stops_needed + 1))
    by (rewrite S_INR; field; lra).
  assert (Habs : Rabs ((lat2 - lat1) / (IZR stops_needed + 1))
                 = Rabs (lat2 - lat1) / (IZR stops_needed + 1)).
  { unfold Rdiv. rewrite Rabs_mult. f_equal. apply Rabs_right.
    apply Rle_ge, Rlt_le, Rinv_0_lt_compat. exact Hn. }
  rewrite calculate_distance_meridian; rewrite Hdiff, Habs; [reflexivity|].
  apply Rle_trans with (Rabs (lat2 - lat1)); [|exact Hlat].
  pose proof (Rabs_pos (lat2 - lat1)) as Hp.
  apply Rmult_le_reg_r with (IZR stops_needed + 1); [exact Hn|].
  unfold Rdiv. rewrite Rmult_assoc, Rinv_l by lra. nra.
Qed.

Lemma meridian_sum_distances len : forall a,
  INR a + INR len <= IZR stops_needed + 1 ->
  sum_distances
    (stops_from self real_stations base_price price_variation
                (lat1, lon) (lat2, lon) stops_needed (at_step a)
                (seq a len))
  = INR len * leg.
Proof.
  induction len as [|len IH]; intros a Ha.
  - cbn. lra.
  - rewrite S_INR in Ha.
    cbn [seq stops_from sum_distances fold_right].
    fold (sum_distances
            (stops_from self real_stations base_price price_variation
                        (lat1, lon) (lat2, lon) stops_needed
                        (stop_position (lat1, lon) (lat2, lon) stops_needed a)
                        (seq (S a) len))).
    assert (Hpos : stop_position (lat1, lon) (lat2, lon) stops_needed a
                   = at_step (S a)).
    { rewrite stop_position_meridian. subst at_step. cbv beta.
      now rewrite S_INR. }
    rewrite Hpos, IH by (rewrite S_INR; lra).
    unfold stop_at.
    destruct (stop_station real_stations base_price price_variation a)
      as [[[[nm ad] ct] st] pr].
    cbn [distance_from_previous]. rewrite Hpos.
    rewrite meridian_step_distance by (pose proof (pos_INR len); lra).
    rewrite S_INR. ring.
Qed.

(** The legs of a run of [stops_needed] stops along a meridian add up,
    with the final leg, to the distance between the end points. *)
Lemma meridian_legs_total :
  let stops :=
    stops_from self real_stations base_price price_variation
               (lat1, lon) (lat2, lon) stops_needed (lat1, lon)
               (seq 0 (Z.to_nat stops_needed)) in
  sum_distances stops + final_leg (lat1, lon) (lat2, lon) stops
  = calculate_distance (lat1, lon) (lat2, lon).
Proof.
  intros stops.
  assert (Hn : (0 < stops_needed)%Z) by (apply lt_IZR; exact Hstops).
  assert (HINR : INR (Z.to_nat stops_needed) = IZR stops_needed)
    by (rewrite INR_IZR_INZ, Z2Nat.id by lia; reflexivity).
  assert (Hstart : (lat1, lon) = at_step 0).
  { subst at_step. cbv beta. f_equal. cbn [INR]. unfold Rdiv. ring. }
  assert (Hend : (lat2, lon) = at_step (S (Z.to_nat stops_needed))).
  { subst at_step. cbv beta. f_equal. rewrite S_INR, HINR. field. lra. }
  assert (Hsum : sum_distances stops = IZR stops_needed * leg).
  { subst stops. rewrite Hstart at 2.
    rewrite meridian_sum_distances by (cbn [INR]; lra).
    now rewrite HINR. }
  assert (Hlast : last_position (lat1, lon) stops
                  = at_step (Z.to_nat stops_needed)).
  { unfold last_position. subst stops. rewrite stops_from_coords.
    destruct (Z.to_nat stops_needed) as [|m] eqn:Em; [lia|].
    rewrite seq_S, map_app. cbn [map Nat.add]. rewrite last_last.
    rewrite stop_position_meridian. subst at_step. cbv beta.
    now rewrite S_INR. }
  unfold final_leg. rewrite Hsum, Hlast.
  rewrite Hend at 1. rewrite meridian_step_distance by lra.
  rewrite calculate_distance_meridian by exact Hlat.
  subst leg. field. lra.
Qed.
End Meridian.

(** ** The triangle inequality on the sphere *)

Lemma haversine_a_dot lat1 lon1 lat2 lon2 :
  haversine_a lat1 lon1 lat2 lon2 = (1 - dot lat1 lon1 lat2 lon2) / 2.
Proof.
  unfold haversine_a, dot. cbv zeta. rewrite !sin_half_sqr, cos_minus.
  pose proof (sin2_cos2 lat1) as H1. pose proof (sin2_cos2 lat2) as H2.
  unfold Rsqr in H1, H2. field.
Qed.

Lemma central_angle_range lat1 lon1 lat2 lon2 :
  0 <= central_angle lat1 lon1 lat2 lon2 <= PI.
Proof.
  unfold central_angle.
  pose proof (asin_nonneg _ (sqrt_pos (haversine_a lat1 lon1 lat2 lon2))).
  pose proof (asin_bound (sqrt (haversine_a lat1 lon1 lat2 lon2))).
  lra.
Qed.

Lemma cos_central_angle lat1 lon1 lat2 lon2 :
  cos (central_angle lat1 lon1 lat2 lon2) = dot lat1 lon1 lat2 lon2.
Proof.
  unfold central_angle. rewrite cos_2a_sin.
  pose proof (haversine_a_range lat1 lon1 lat2 lon2) as [Ha0 Ha1].
  assert (Hs : 0 <= sqrt (haversine_a lat1 lon1 lat2 lon2) <= 1).
  { split; [apply sqrt_pos|]. rewrite <- sqrt_1. apply sqrt_le_1; lra. }
  rewrite sin_asin by lra.
  rewrite Rmult_assoc, sqrt_sqrt by exact Ha0.
  rewrite haversine_a_dot. field.
Qed.

(** Gram's inequality for three unit vectors. *)
Lemma gram lat1 lon1 lat2 lon2 lat3 lon3 :
  let x := dot lat1 lon1 lat2 lon2 in
  let y := dot lat2 lon2 lat3 lon3 in
  let z := dot lat1 lon1 lat3 lon3 in
  (x * y - z) ^ 2 <= (1 - x ^ 2) * (1 - y ^ 2).
Proof.
  intros x y z. subst x y z. unfold dot.
  rewrite !cos_minus.
  pose proof (sin2_cos2 lat1) as A1. pose proof (sin2_cos2 lat2) as A2.
  pose proof (sin2_cos2 lat3) as A3. pose proof (sin2_cos2 lon1) as B1.
  pose proof (sin2_cos2 lon2) as B2. pose proof (sin2_cos2 lon3) as B3.
  unfold Rsqr in *.
  set (s1 := sin lat1) in *. set (c1 := cos lat1) in *.
  set (s2 := sin lat2) in *. set (c2 := cos lat2) in *.
  set (s3 := sin lat3) in *. set (c3 := cos lat3) in *.
  set (u1 := sin lon1) in *. set (v1 := cos lon1) in *.
  set (u2 := sin lon2) in *. set (v2 := cos lon2) in *.
  set (u3 := sin lon3) in *. set (v3 := cos lon3) in *.
  (* the unit vectors p_i = (c_i v_i, c_i u_i, s_i) *)
  set (det := c1 * v1 * (c2 * u2 * s3 - s2 * (c3 * u3))
              - c1 * u1 * (c2 * v2 * s3 - s2 * (c3 * v3))
              + s1 * (c2 * v2 * (c3 * u3) - c2 * u2 * (c3 * v3))).
  assert (N1 : c1 * v1 * (c1 * v1) + c1 * u1 * (c1 * u1) + s1 * s1 = 1) by nra.
  assert (N2 : c2 * v2 * (c2 * v2) + c2 * u2 * (c2 * u2) + s2 * s2 = 1) by nra.
  assert (N3 : c3 * v3 * (c3 * v3) + c3 * u3 * (c3 * u3) + s3 * s3 = 1) by nra.
  set (x := s1 * s2 + c1 * c2 * (v2 * v1 + u2 * u1)).
  set (y := s2 * s3 + c2 * c3 * (v3 * v2 + u3 * u2)).
  set (z := s1 * s3 + c1 * c3 * (v3 * v1 + u3 * u1)).
  assert (Hgram :
            (c1 * v1 * (c1 * v1) + c1 * u1 * (c1 * u1) + s1 * s1)
            * (c2 * v2 * (c2 * v2) + c2 * u2 * (c2 * u2) + s2 * s2)
            * (c3 * v3 * (c3 * v3) + c3 * u3 * (c3 * u3) + s3 * s3)
            + 2 * x * y * z
            - (c1 * v1 * (c1 * v1) + c1 * u1 * (c1 * u1) + s1 * s1) * y ^ 2
            - (c2 * v2 * (c2 * v2) + c2 * u2 * (c2 * u2) + s2 * s2) * z ^ 2
            - (c3 * v3 * (c3 * v3) + c3 * u3 * (c3 * u3) + s3 * s3) * x ^ 2
            = det ^ 2) by (unfold x, y, z, det; ring).
  rewrite N1, N2, N3 in Hgram.
  pose proof (pow2_ge_0 det) as Hdet.
  nra.
Qed.

Lemma central_angle_triangle lat1 lon1 lat2 lon2 lat3 lon3 :
  central_angle lat1 lon1 lat3 lon3
  <= central_angle lat1 lon1 lat2 lon2 + central_angle lat2 lon2 lat3 lon3.
Proof.
  pose proof (central_angle_range lat1 lon1 lat2 lon2) as Ha.
  pose proof (central_angle_range lat2 lon2 lat3 lon3) as Hb.
  pose proof (central_angle_range lat1 lon1 lat3 lon3) as Hc.
  set (alpha := central_angle lat1 lon1 lat2 lon2) in *.
  set (beta := central_angle lat2 lon2 lat3 lon3) in *.
  set (gamma := central_angle lat1 lon1 lat3 lon3) in *.
  destruct (Rle_dec PI (alpha + beta)) as [Hbig|Hsmall]; [lra|].
  apply Rnot_le_lt in Hsmall.
  destruct (Rle_dec gamma (alpha + beta)) as [Hle|Hgt]; [exact Hle|exfalso].
  apply Rnot_le_lt in Hgt.
  assert (Hcos : cos gamma < cos (alpha + beta))
    by (apply cos_decreasing_1; lra).
  rewrite cos_plus in Hcos.
  pose proof (gram lat1 lon1 lat2 lon2 lat3 lon3) as Hg. cbv zeta in Hg.
  rewrite <- !cos_central_angle in Hg.
  fold alpha beta gamma in Hg.
  pose proof (sin_ge_0 alpha ltac:(lra) ltac:(lra)) as Hsa.
  pose proof (sin_ge_0 beta ltac:(lra) ltac:(lra)) as Hsb.
  pose proof (sin2_cos2 alpha) as Sa. pose proof (sin2_cos2 beta) as Sb.
  unfold Rsqr in Sa, Sb.
  assert (Hsq : (cos alpha * cos beta - cos gamma) ^ 2
                <= (sin alpha * sin beta) ^ 2) by nra.
  assert (Hp : 0 <= sin alpha * sin beta) by nra.
  nra.
Qed.

Lemma calculate_distance_triangle p q r :
  calculate_distance p r <= calculate_distance p q + calculate_distance q r.
Proof.
  destruct p as [lat1 lon1], q as [lat2 lon2], r as [lat3 lon3].
  unfold calculate_distance.
  pose proof (central_angle_triangle (radians lat1) (radians lon1)
                (radians lat2) (radians lon2) (radians lat3) (radians lon3)) as H.
  unfold central_angle in H. lra.
Qed.

(** A polygonal route is never shorter than the distance of its ends. *)
Lemma path_length_ge points : forall current_pos destination,
  calculate_distance current_pos destination
  <= path_length current_pos (points ++ [destination]).
Proof.
  induction points as [|p points IH]; intros current_pos destination.
  - cbn. lra.
  - cbn [app path_length].
    pose proof (calculate_distance_triangle current_pos p destination).
    pose proof (IH p destination). lra.
Qed.

Lemma last_cons (l : list point) : forall p c, last (p :: l) c = last l p.
Proof.
  induction l as [|q l IH]; intros p c; [reflexivity|].
  change (last (p :: q :: l) c) with (last (q :: l) c).
  now rewrite !IH.
Qed.

Lemma path_length_snoc points : forall current_pos destination,
  path_length current_pos (points ++ [destination])
  = path_length current_pos points
    + calculate_distance (last points current_pos) destination.
Proof.
  induction points as [|p points IH]; intros current_pos destination.
  - cbn. lra.
  - cbn [app path_length]. rewrite IH, last_cons. lra.
Qed.

Lemma stops_from_path self real_stations base_price price_variation
      start_coords end_coords stops_needed range : forall current_pos,
  sum_distances (stops_from self real_stations base_price price_variation
                            start_coords end_coords stops_needed
                            current_pos range)
  = path_length current_pos
                (map (stop_position start_coords end_coords stops_needed) range).
Proof.
  induction range as [|i range IH]; intros current_pos; [reflexivity|].
  cbn [stops_from map path_length sum_distances fold_right].
  fold (sum_distances
          (stops_from self real_stations base_price price_variation
                      start_coords end_coords stops_needed
                      (stop_position start_coords end_coords stops_needed i)
                      range)).
  rewrite IH. unfold stop_at.
  destruct (stop_station real_stations base_price price_variation i)
    as [[[[nm ad] ct] st] pr].
  reflexivity.
Qed.

(** The legs of the stops of a run, with the final leg, are at least the
    distance between origin and destination. *)
Lemma stops_from_legs_ge self real_stations base_price price_variation
      start_coords end_coords stops_needed range :
  let stops :=
    stops_from self real_stations base_price price_variation start_coords
               end_coords stops_needed start_coords range in
  calculate_distance start_coords end_coords
  <= sum_distances stops + final_leg start_coords end_coords stops.
Proof.
  intros stops. unfold final_leg, last_position. subst stops.
  rewrite stops_from_coords, stops_from_path, <- path_length_snoc.
  apply path_length_ge.
Qed.

(** ** A route over the pole: (0, 0) to (90, 180) through (45, 90) *)

Lemma radians_0 : radians 0 = 0.
Proof. unfold radians. ring. Qed.

Lemma radians_45 : radians 45 = PI / 4.
Proof. unfold radians. field. Qed.

Lemma radians_90 : radians 90 = PI / 2.
Proof. unfold radians. field. Qed.

Lemma radians_180 : radians 180 = PI.
Proof. unfold radians. field. Qed.

Lemma quarter_turn a : a = 1 / 2 -> 2 * asin (sqrt a) * 3959 = PI / 2 * 3959.
Proof.
  intros ->. replace (1 / 2) with (/ 2) by lra.
  rewrite sqrt_inv, asin_inv_sqrt2. field.
Qed.

Lemma distance_origin_pole :
  calculate_distance (0, 0) (90, 180) = PI / 2 * 3959.
Proof.
  unfold calculate_distance. rewrite radians_0, radians_90, radians_180.
  apply quarter_turn. unfold haversine_a. cbv zeta.
  rewrite sin_half_sqr, Rminus_0_r, cos_PI2. lra.
Qed.

Lemma distance_origin_stop :
  calculate_distance (0, 0) (45, 90) = PI / 2 * 3959.
Proof.
  unfold calculate_distance. rewrite radians_0, radians_45, radians_90.
  apply quarter_turn. unfold haversine_a. cbv zeta.
  rewrite !sin_half_sqr, !Rminus_0_r, cos_PI2, cos_0. lra.
Qed.

Lemma distance_stop_pole :
  calculate_distance (45, 90) (90, 180) = PI / 4 * 3959.
Proof.
  unfold calculate_distance. rewrite radians_45, radians_90, radians_180.
  unfold haversine_a. cbv zeta. rewrite cos_PI2.
  pose proof PI_RGT_0 as Hpi.
  replace ((PI / 2 - PI / 4) / 2) with (PI / 8) by field.
  replace (sin (PI / 8) ^ 2 + cos (PI / 4) * 0 * sin ((PI - PI / 2) / 2) ^ 2)
    with (Rsqr (sin (PI / 8))) by (unfold Rsqr; ring).
  rewrite sqrt_Rsqr_abs, Rabs_right
    by (apply Rle_ge, sin_ge_0; lra).
  rewrite asin_sin by (split; lra). field.
Qed.

Lemma stop_position_pole : stop_position (0, 0) (90, 180) 3 1 = (45, 90).
Proof.
  unfold stop_position, interpolate_point. cbn [INR]. f_equal; field.
Qed.

(** ** Settled properties of the legs *)

(** C3 (as stated, refuted).  From (0, 0) to (90, 180) with a range of 2000
    miles the planner places three stops, the second of them at (45, 90);
    their [distanceFromPrevious] plus the final leg exceed the total route
    distance by more than 3000 miles, far beyond any rounding. *)
Lemma legs_exceed_total :
  exists plan,
    find_optimal_fuel_stops {| max_range := 2000; mpg := 10 |} [] (0, 0) (90, 180)
    = Ok plan /\
    length (fuel_stops plan) = 3%nat /\
    sum_distances (fuel_stops plan) + final_leg (0, 0) (90, 180) (fuel_stops plan)
    > calculate_distance (0, 0) (90, 180) + 3000.
Proof.
  pose proof PI_lower as Hlo. pose proof PI_upper as Hup.
  destruct (find_optimal_fuel_stops_beyond
              {| max_range := 2000; mpg := 10 |} [] (0, 0) (90, 180))
    as (bp & pv & tc & Heq).
  { rewrite distance_origin_pole. cbn [max_range]. lra. }
  { cbn [max_range]. lra. }
  { left. cbn [mpg]. lra. }
  cbv zeta in Heq. cbn [max_range] in Heq.
  assert (Hn : Zceil (calculate_distance (0, 0) (90, 180) / 2000) = 4%Z).
  { apply Zceil_eq. rewrite distance_origin_pole. simpl. lra. }
  rewrite Hn in Heq. change (4 - 1)%Z with 3%Z in Heq.
  change (Z.to_nat 3) with 3%nat in Heq.
  eexists. split; [exact Heq|]. cbn [fuel_stops].
  split; [reflexivity|].
  unfold final_leg, last_position.
  rewrite stops_from_coords, stops_from_path, <- path_length_snoc.
  cbn [seq map app path_length]. rewrite stop_position_pole.
  pose proof (calculate_distance_triangle
                (0, 0) (stop_position (0, 0) (90, 180) 3 0) (45, 90)).
  pose proof (calculate_distance_triangle
                (45, 90) (stop_position (0, 0) (90, 180) 3 2) (90, 180)).
  rewrite distance_origin_stop in *. rewrite distance_stop_pole in *.
  rewrite distance_origin_pole. lra.
Qed.

(** C3 (amended).  For every plan produced by the planner, multi-stop or
    not, each stop's [distanceFromPrevious] is non-negative, and the sum of
    [distanceFromPrevious] over all stops plus the final leg is at least the
    total route distance within floating rounding tolerance; it equals the
    total route distance within floating rounding tolerance when origin and
    destination have valid latitudes and lie on a common meridian.  The
    tolerance is read as exactness over the real numbers: the statement is
    that of the exact-arithmetic reading of the planner. *)
Theorem stop_distances self real_stations start_coords end_coords plan :
  find_optimal_fuel_stops self real_stations start_coords end_coords = Ok plan ->
  Forall (fun stop => 0 <= distance_from_previous stop) (fuel_stops plan) /\
  calculate_distance start_coords end_coords
  <= sum_distances (fuel_stops plan)
     + final_leg start_coords end_coords (fuel_stops plan) /\
  (snd start_coords = snd end_coords ->
   -90 <= fst start_coords <= 90 -> -90 <= fst end_coords <= 90 ->
   sum_distances (fuel_stops plan)
   + final_leg start_coords end_coords (fuel_stops plan)
   = calculate_distance start_coords end_coords).
Proof.
  intros Hplan.
  assert (Hnil : sum_distances [] + final_leg start_coords end_coords []
                 = calculate_distance start_coords end_coords)
    by (unfold final_leg, last_position; cbn; lra).
  destruct (returned_plan_stops _ _ _ _ _ Hplan) as [->|(bp & pv & Hstops)].
  { split; [constructor|]. split; [lra|]. intros _ _ _. exact Hnil. }
  cbv zeta in Hstops. rewrite Hstops. split; [apply stops_from_nonneg|].
  split; [apply stops_from_legs_ge|].
  destruct start_coords as [lat1 lon1], end_coords as [lat2 lon2].
  cbn [fst snd]. intros <- H1 H2.
  set (n := (Zceil (calculate_distance (lat1, lon1) (lat2, lon1)
                    / max_range self) - 1)%Z) in *.
  destruct (Z_le_gt_dec n 0) as [Hn|Hn].
  - replace (Z.to_nat n) with 0%nat by lia. exact Hnil.
  - apply meridian_legs_total.
    + unfold Rabs. destruct (Rcase_abs (lat2 - lat1)); lra.
    + apply IZR_lt. lia.
Qed.

Lemma stop_distances_witness :
  exists plan,
    find_optimal_fuel_stops {| max_range := 30; mpg := 10 |} [] (0, 0) (1, 0)
    = Ok plan /\
    length (fuel_stops plan) = 2%nat /\
    Forall (fun stop => 0 <= distance_from_previous stop) (fuel_stops plan) /\
    sum_distances (fuel_stops plan) + final_leg (0, 0) (1, 0) (fuel_stops plan)
    = calculate_distance (0, 0) (1, 0).
Proof.
  pose proof PI_lower as Hlo. pose proof PI_upper as Hup.
  destruct (find_optimal_fuel_stops_beyond
              {| max_range := 30; mpg := 10 |} [] (0, 0) (1, 0))
    as (bp & pv & tc & Heq).
  { rewrite distance_one_degree. cbn [max_range]. lra. }
  { cbn [max_range]. lra. }
  { left. cbn [mpg]. lra. }
  eexists. split; [exact Heq|].
  split.
  { cbv zeta. cbn [max_range fuel_stops].
    replace (Zceil (calculate_distance (0, 0) (1, 0) / 30)) with 3%Z
      by (symmetry; apply Zceil_eq; rewrite distance_one_degree; simpl; lra).
    reflexivity. }
  destruct (stop_distances _ _ _ _ _ Heq) as (Hnn & _ & Hsum).
  split; [exact Hnn|].
  apply Hsum; cbn [fst snd]; lra.
Defined.

(** ** Further properties of the distance, interpolation and rounding *)

(** X4.  A distance is never negative and never exceeds half the
    circumference of the sphere of radius 3959 miles. *)
Theorem calculate_distance_bounds (a b : point) :
  0 <= calculate_distance a b <= PI * 3959.
Proof.
  destruct a as [lat1 lon1], b as [lat2 lon2]. unfold calculate_distance.
  pose proof (central_angle_range (radians lat1) (radians lon1)
                (radians lat2) (radians lon2)) as H.
  unfold central_angle in H. split; nra.
Qed.

(** X5.  Distances satisfy the triangle inequality: going through a third
    point is never shorter. *)
Theorem distance_triangle_inequality (a b c : point) :
  calculate_distance a c <= calculate_distance a b + calculate_distance b c.
Proof.
  pose proof (path_length_ge [b] a c) as H. cbn in H. lra.
Qed.

Lemma between_affine a b ratio :
  0 <= ratio <= 1 -> between a b (a + (b - a) * ratio).
Proof.
  intros Hr. unfold between, Rmin, Rmax.
  destruct (Rle_dec a b); split; nra.
Qed.

(** X6.  [interpolate_point] returns the start at ratio 0 and the end at
    ratio 1, and for a ratio in [0, 1] a point whose latitude and longitude
    lie between those of the two ends. *)
Theorem interpolate_point_between (start end_ : point) (ratio : R) :
  0 <= ratio <= 1 ->
  interpolate_point start end_ 0 = start /\
  interpolate_point start end_ 1 = end_ /\
  between (fst start) (fst end_) (fst (interpolate_point start end_ ratio)) /\
  between (snd start) (snd end_) (snd (interpolate_point start end_ ratio)).
Proof.
  intros Hr. destruct start as [lat1 lon1], end_ as [lat2 lon2].
  unfold interpolate_point. cbn [fst snd]. repeat split.
  - f_equal; ring.
  - f_equal; ring.
  - apply between_affine; exact Hr.
  - apply between_affine; exact Hr.
  - apply between_affine; exact Hr.
  - apply between_affine; exact Hr.
Qed.

Lemma interpolate_point_between_witness :
  interpolate_point (0, 0) (90, 180) 0 = (0, 0) /\
  interpolate_point (0, 0) (90, 180) 1 = (90, 180) /\
  between 0 90 (fst (interpolate_point (0, 0) (90, 180) (1 / 2))) /\
  between 0 180 (snd (interpolate_point (0, 0) (90, 180) (1 / 2))).
Proof.
  apply (interpolate_point_between (0, 0) (90, 180) (1 / 2)). lra.
Defined.

Lemma py_round_near y : Rabs (IZR (py_round y) - y) <= 1 / 2.
Proof.
  unfold py_round. cbv zeta.
  pose proof (Zfloor_bound y) as [Hlo Hhi].
  destruct (Rlt_dec (y - IZR (Zfloor y)) (1 / 2)) as [H1|H1].
  - apply Rabs_le. lra.
  - destruct (Rlt_dec (1 / 2) (y - IZR (Zfloor y))) as [H2|H2].
    + rewrite plus_IZR. apply Rabs_le. lra.
    + destruct (Z.even (Zfloor y)); [|rewrite plus_IZR]; apply Rabs_le; lra.
Qed.

(** X12.  [round(x, 2)] moves a value by at most half a hundredth and
    leaves multiples of one hundredth unchanged. *)
Theorem round2_error (x : R) :
  Rabs (round2 x - x) <= 5 / 1000 /\
  (forall k : Z, round2 (IZR k / 100) = IZR k / 100).
Proof.
  split.
  - unfold round2. pose proof (py_round_near (x * 100)) as H.
    replace (IZR (py_round (x * 100)) / 100 - x)
      with ((IZR (py_round (x * 100)) - x * 100) / 100) by field.
    unfold Rdiv at 1. rewrite Rabs_mult.
    rewrite (Rabs_right (/ 100)) by lra. lra.
  - intros k. unfold round2.
    replace (IZR k / 100 * 100) with (IZR k) by field.
    unfold py_round. cbv zeta. rewrite ZfloorZ, Rminus_diag.
    destruct (Rlt_dec 0 (1 / 2)); [reflexivity|lra].
Qed.

(** ** Accounting of a plan *)

Lemma stops_loop_cost self real_stations base_price price_variation
      start_coords end_coords stops_needed range :
  forall fuel_stops total_cost current_pos fuel_stops' total_cost' current_pos',
    stops_loop self real_stations base_price price_variation start_coords
               end_coords stops_needed range fuel_stops total_cost current_pos
    = Ok (fuel_stops', total_cost', current_pos') ->
    total_cost'
    = fold_left (fun acc stop => acc + cost stop)
                (stops_from self real_stations base_price price_variation
                            start_coords end_coords stops_needed
                            current_pos range)
                total_cost.
Proof.
  induction range as [|i range IH];
    intros fuel_stops total_cost current_pos fs' tc' cp' H.
  - cbn in H. now injection H as _ <- _.
  - cbn [stops_loop stops_from fold_left] in *.
    destruct (pydiv (INR i + 1) (IZR stops_needed + 1)) as [ratio|] eqn:Er;
      [|discriminate].
    apply pydiv_inv in Er. subst ratio. cbn [bind] in H.
    unfold stop_at, stop_position.
    destruct (stop_station real_stations base_price price_variation i)
      as [[[[nm ad] ct] st] pr].
    destruct (pydiv _ (mpg self)) as [fuel|] eqn:Ef; [|discriminate].
    apply pydiv_inv in Ef. subst fuel. cbn [bind] in H.
    apply IH in H. exact H.
Qed.

(** A returned plan with stops, in full. *)
Lemma returned_plan_full self real_stations start_coords end_coords plan :
  find_optimal_fuel_stops self real_stations start_coords end_coords = Ok plan ->
  fuel_stops plan <> [] ->
  let total_distance := calculate_distance start_coords end_coords in
  let stops_needed := (Zceil (total_distance / max_range self) - 1)%Z in
  let base_price :=
    match real_stations with s :: _ => retail_price s | [] => 35 / 10 end in
  let stops :=
    stops_from self real_stations base_price (5 / 10) start_coords end_coords
               stops_needed start_coords (seq 0 (Z.to_nat stops_needed)) in
  max_range self < total_distance /\
  (0 < stops_needed)%Z /\
  plan = {| fuel_stops := stops;
            summary := {| total_distance_miles := round2 total_distance;
                          total_fuel_gallons := round2 (sum_fuel_needed stops);
                          total_cost := round2 (sum_costs stops);
                          number_of_stops := length stops |} |}.
Proof.
  unfold find_optimal_fuel_stops. cbv zeta.
  destruct (Rle_dec _ _) as [Hle|Hgt].
  - destruct (pydiv _ (mpg self)); [|discriminate].
    cbn [bind]. intros [= <-] Hne. now destruct Hne.
  - destruct (pydiv _ (max_range self)) as [q|] eqn:Eq; [|discriminate].
    apply pydiv_inv in Eq. subst q. cbn [bind].
    destruct (stops_loop _ _ _ _ _ _ _ _ _ _ _) as [[[fs tc] cp]|] eqn:El;
      [|discriminate].
    cbn [bind]. intros [= <-] Hne. cbn [fuel_stops] in Hne.
    pose proof (stops_loop_inv _ _ _ _ _ _ _ _ _ _ _ _ _ _ El) as Hfs.
    pose proof (stops_loop_cost _ _ _ _ _ _ _ _ _ _ _ _ _ _ El) as Htc.
    cbn [app] in Hfs. subst fs tc.
    split; [lra|]. split; [|reflexivity].
    destruct (Z_lt_le_dec 0 (Zceil (calculate_distance start_coords end_coords
                                    / max_range self) - 1)) as [H|H]; [exact H|].
    exfalso. apply Hne.
    replace (Z.to_nat _) with 0%nat by lia. reflexivity.
Qed.

Lemma sum_fuel_needed_distances self real_stations base_price price_variation
      start_coords end_coords stops_needed range : forall current_pos acc,
  fold_left (fun acc stop => acc + fuel_needed stop)
            (stops_from self real_stations base_price price_variation
                        start_coords end_coords stops_needed current_pos range)
            acc
  = acc + sum_distances
            (stops_from self real_stations base_price price_variation
                        start_coords end_coords stops_needed current_pos range)
          / mpg self.
Proof.
  induction range as [|i range IH]; intros current_pos acc.
  - cbn. unfold Rdiv. ring.
  - cbn [stops_from fold_left sum_distances fold_right]. rewrite IH.
    fold (sum_distances
            (stops_from self real_stations base_price price_variation
                        start_coords end_coords stops_needed
                        (stop_position start_coords end_coords stops_needed i)
                        range)).
    unfold stop_at.
    destruct (stop_station real_stations base_price price_variation i)
      as [[[[nm ad] ct] st] pr].
    cbn [fuel_needed distance_from_previous]. unfold Rdiv. ring.
Qed.

Lemma stops_from_accounting self real_stations base_price price_variation
      start_coords end_coords stops_needed range : forall current_pos,
  Forall (fun stop =>
            fuel_needed stop = distance_from_previous stop / mpg self /\
            cost stop = fuel_needed stop * station_retail_price (station stop))
         (stops_from self real_stations base_price price_variation
                     start_coords end_coords stops_needed current_pos range).
Proof.
  induction range as [|i range IH]; intros current_pos; cbn [stops_from];
    constructor; [|apply IH].
  unfold stop_at.
  destruct (stop_station real_stations base_price price_variation i)
    as [[[[nm ad] ct] st] pr].
  cbn. split; reflexivity.
Qed.

(** One stop is needed from (0, 0) to (1, 0) with a range of 50 miles. *)
Lemma one_degree_plan :
  exists plan,
    find_optimal_fuel_stops {| max_range := 50; mpg := 10 |} [] (0, 0) (1, 0)
    = Ok plan /\ length (fuel_stops plan) = 1%nat.
Proof.
  pose proof PI_lower as Hlo. pose proof PI_upper as Hup.
  destruct (find_optimal_fuel_stops_beyond
              {| max_range := 50; mpg := 10 |} [] (0, 0) (1, 0))
    as (bp & pv & tc & Heq).
  { rewrite distance_one_degree. cbn [max_range]. lra. }
  { cbn [max_range]. lra. }
  { left. cbn [mpg]. lra. }
  cbv zeta in Heq. cbn [max_range] in Heq.
  assert (Hn : Zceil (calculate_distance (0, 0) (1, 0) / 50) = 2%Z).
  { apply Zceil_eq. rewrite distance_one_degree. simpl. lra. }
  rewrite Hn in Heq. change (2 - 1)%Z with 1%Z in Heq.
  change (Z.to_nat 1) with 1%nat in Heq.
  eexists. split; [exact Heq|]. reflexivity.
Qed.

(** X8.  In every returned plan each stop's fuel is its
    [distance_from_previous] divided by the mpg, and its cost is that fuel
    times the price of its station. *)
Theorem stop_accounting self real_stations start_coords end_coords plan :
  find_optimal_fuel_stops self real_stations start_coords end_coords = Ok plan ->
  Forall (fun stop =>
            fuel_needed stop = distance_from_previous stop / mpg self /\
            cost stop = fuel_needed stop * station_retail_price (station stop))
         (fuel_stops plan).
Proof.
  intros Hplan.
  destruct (returned_plan_stops _ _ _ _ _ Hplan) as [->|(bp & pv & Hstops)].
  - constructor.
  - cbv zeta in Hstops. rewrite Hstops. apply stops_from_accounting.
Qed.

Lemma stop_accounting_witness :
  exists plan,
    find_optimal_fuel_stops {| max_range := 50; mpg := 10 |} [] (0, 0) (1, 0)
    = Ok plan /\
    length (fuel_stops plan) = 1%nat /\
    Forall (fun stop =>
              fuel_needed stop = distance_from_previous stop / 10 /\
              cost stop = fuel_needed stop * station_retail_price (station stop))
           (fuel_stops plan).
Proof.
  destruct one_degree_plan as (plan & Hplan & Hlen).
  exists plan. split; [exact Hplan|]. split; [exact Hlen|].
  exact (stop_accounting _ _ _ _ _ Hplan).
Defined.

(** X9.  In a returned plan with at least one stop the summary is that of
    its stops: [number_of_stops] is their number, [total_cost] is their
    summed cost rounded to two decimals, and [total_fuel_gallons] is their
    summed [distance_from_previous] over the mpg, rounded to two decimals;
    the fuel of the final leg to the destination is not counted. *)
Theorem summary_of_stops self real_stations start_coords end_coords plan :
  find_optimal_fuel_stops self real_stations start_coords end_coords = Ok plan ->
  fuel_stops plan <> [] ->
  number_of_stops (summary plan) = length (fuel_stops plan) /\
  total_cost (summary plan) = round2 (sum_costs (fuel_stops plan)) /\
  total_fuel_gallons (summary plan)
  = round2 (sum_distances (fuel_stops plan) / mpg self) /\
  total_distance_miles (summary plan)
  = round2 (calculate_distance start_coords end_coords).
Proof.
  intros Hplan Hne.
  destruct (returned_plan_full _ _ _ _ _ Hplan Hne) as (_ & _ & ->).
  cbn [summary fuel_stops number_of_stops total_cost total_fuel_gallons
       total_distance_miles].
  repeat split. f_equal. unfold sum_fuel_needed.
  rewrite sum_fuel_needed_distances. ring.
Qed.

Lemma summary_of_stops_witness :
  exists plan,
    find_optimal_fuel_stops {| max_range := 50; mpg := 10 |} [] (0, 0) (1, 0)
    = Ok plan /\
    number_of_stops (summary plan) = length (fuel_stops plan) /\
    total_fuel_gallons (summary plan)
    = round2 (sum_distances (fuel_stops plan) / 10).
Proof.
  destruct one_degree_plan as (plan & Hplan & Hlen).
  assert (Hne : fuel_stops plan <> [])
    by (intros E; rewrite E in Hlen; discriminate).
  destruct (summary_of_stops _ _ _ _ _ Hplan Hne) as (Hn & _ & Hf & _).
  exists plan. split; [exact Hplan|]. split; [exact Hn|exact Hf].
Defined.

(** ** Where the stops are *)

Lemma stop_ratio_range stops_needed i :
  (i < Z.to_nat stops_needed)%nat ->
  0 <= (INR i + 1) / (IZR stops_needed + 1) <= 1.
Proof.
  intros Hi.
  assert (Hn : INR (Z.to_nat stops_needed) = IZR stops_needed)
    by (rewrite INR_IZR_INZ, Z2Nat.id by lia; reflexivity).
  pose proof (pos_INR i) as H0.
  assert (H1 : INR i + 1 <= IZR stops_needed)
    by (rewrite <- Hn, <- S_INR; apply le_INR; lia).
  split.
  - apply Rmult_le_pos; [lra|]. apply Rlt_le, Rinv_0_lt_compat. lra.
  - apply Rmult_le_reg_r with (IZR stops_needed + 1); [lra|].
    unfold Rdiv. rewrite Rmult_assoc, Rinv_l by lra. lra.
Qed.

(** X7.  Every stop of a returned plan lies in the latitude/longitude box
    spanned by origin and destination. *)
Theorem stops_within_box self real_stations start_coords end_coords plan :
  find_optimal_fuel_stops self real_stations start_coords end_coords = Ok plan ->
  Forall (fun stop =>
            between (fst start_coords) (fst end_coords)
                    (station_latitude (station stop)) /\
            between (snd start_coords) (snd end_coords)
                    (station_longitude (station stop)))
         (fuel_stops plan).
Proof.
  intros Hplan.
  destruct (returned_plan_stops _ _ _ _ _ Hplan) as [->|(bp & pv & Hstops)];
    [constructor|].
  cbv zeta in Hstops. rewrite Hstops. clear Hstops Hplan.
  set (n := (Zceil (calculate_distance start_coords end_coords
                    / max_range self) - 1)%Z).
  apply Forall_forall. intros stop Hin.
  apply (in_map stop_coords_of) in Hin. rewrite stops_from_coords in Hin.
  apply in_map_iff in Hin. destruct Hin as (i & Hpos & Hi).
  apply in_seq in Hi.
  pose proof (stop_ratio_range n i ltac:(lia)) as Hr.
  unfold stop_coords_of in Hpos.
  destruct start_coords as [lat1 lon1], end_coords as [lat2 lon2].
  unfold stop_position, interpolate_point in Hpos.
  injection Hpos as Hlat Hlon. rewrite <- Hlat, <- Hlon. cbn [fst snd].
  split; apply between_affine; exact Hr.
Qed.

Lemma stops_within_box_witness :
  exists plan,
    find_optimal_fuel_stops {| max_range := 50; mpg := 10 |} [] (0, 0) (1, 0)
    = Ok plan /\
    length (fuel_stops plan) = 1%nat /\
    Forall (fun stop =>
              between 0 1 (station_latitude (station stop)) /\
              between 0 0 (station_longitude (station stop)))
           (fuel_stops plan).
Proof.
  destruct one_degree_plan as (plan & Hplan & Hlen).
  exists plan. split; [exact Hplan|]. split; [exact Hlen|].
  exact (stops_within_box _ _ _ _ _ Hplan).
Defined.

(** ** Legs along a meridian *)

Section MeridianLegs.
Variable self : HybridFuelOptimizationService.
Variable real_stations : list FuelStation.
Variables base_price price_variation : R.
Variables lat1 lat2 lon : R.
Variable stops_needed : Z.
Hypothesis Hlat : Rabs (lat2 - lat1) <= 180.
Hypothesis Hstops : 0 < IZR stops_needed.

Let leg := calculate_distance (lat1, lon) (lat2, lon) / (IZR stops_needed + 1).
Let at_step (k : nat) : point :=
  (lat1 + (lat2 - lat1) * (INR k / (IZR stops_needed + 1)), lon).

Lemma meridian_leg_distance k :
  (INR k + 1 <= IZR stops_needed + 1) ->
  calculate_distance (at_step k) (at_step (S k)) = leg.
Proof.
  intros Hk. subst at_step leg. cbv beta.
  rewrite (meridian_step_distance lat1 lat2 lon stops_needed Hlat Hstops k Hk).
  rewrite calculate_distance_meridian by exact Hlat. field. lra.
Qed.

Lemma meridian_each_leg len : forall a,
  INR a + INR len <= IZR stops_needed + 1 ->
  Forall (fun stop => distance_from_previous stop = leg)
         (stops_from self real_stations base_price price_variation
                     (lat1, lon) (lat2, lon) stops_needed (at_step a)
                     (seq a len)).
Proof.
  induction len as [|len IH]; intros a Ha; [constructor|].
  rewrite S_INR in Ha. cbn [seq stops_from].
  assert (Hpos : stop_position (lat1, lon) (lat2, lon) stops_needed a
                 = at_step (S a)).
  { rewrite stop_position_meridian. subst at_step. cbv beta.
    now rewrite S_INR. }
  constructor.
  - unfold stop_at.
    destruct (stop_station real_stations base_price price_variation a)
      as [[[[nm ad] ct] st] pr].
    cbn [distance_from_previous]. rewrite Hpos.
    apply meridian_leg_distance. pose proof (pos_INR len). lra.
  - rewrite Hpos. apply IH. rewrite S_INR. lra.
Qed.

Lemma meridian_all_legs :
  let stops :=
    stops_from self real_stations base_price price_variation
               (lat1, lon) (lat2, lon) stops_needed (lat1, lon)
               (seq 0 (Z.to_nat stops_needed)) in
  Forall (fun stop => distance_from_previous stop = leg) stops /\
  final_leg (lat1, lon) (lat2, lon) stops = leg.
Proof.
  intros stops.
  assert (Hn : (0 < stops_needed)%Z) by (apply lt_IZR; exact Hstops).
  assert (HINR : INR (Z.to_nat stops_needed) = IZR stops_needed)
    by (rewrite INR_IZR_INZ, Z2Nat.id by lia; reflexivity).
  assert (Hstart : (lat1, lon) = at_step 0).
  { subst at_step. cbv beta. f_equal. cbn [INR]. unfold Rdiv. ring. }
  assert (Hall : Forall (fun stop => distance_from_previous stop = leg) stops).
  { subst stops. rewrite Hstart at 2. apply meridian_each_leg.
    cbn [INR]. lra. }
  split; [exact Hall|].
  pose proof (meridian_legs_total self real_stations base_price price_variation
                lat1 lat2 lon stops_needed Hlat Hstops) as Htot.
  cbv zeta in Htot. fold stops in Htot.
  pose proof (meridian_sum_distances self real_stations base_price
                price_variation lat1 lat2 lon stops_needed Hlat Hstops
                (Z.to_nat stops_needed) 0%nat ltac:(cbn [INR]; lra)) as Hsum.
  cbv beta in Hsum. replace (lat1 + (lat2 - lat1) * (INR 0 / (IZR stops_needed + 1)), lon)
    with (lat1, lon) in Hsum by (f_equal; cbn [INR]; unfold Rdiv; ring).
  fold stops in Hsum. rewrite Hsum, HINR in Htot.
  rewrite calculate_distance_meridian in Htot by exact Hlat.
  subst leg. rewrite calculate_distance_meridian by exact Hlat.
  apply Rplus_eq_reg_l
    with (IZR stops_needed
          * (Rabs (lat2 - lat1) / (IZR stops_needed + 1) * (PI / 180) * 3959)).
  rewrite Htot. field. lra.
Qed.
End MeridianLegs.

(** X11.  For origin and destination with valid latitudes on a common
    meridian and a positive range, every leg of the returned plan, the final
    leg to the destination included, is the total distance divided by the
    number of stops plus one, and is within the range. *)
Theorem meridian_legs_within_range self real_stations lat1 lat2 lon plan :
  find_optimal_fuel_stops self real_stations (lat1, lon) (lat2, lon) = Ok plan ->
  0 < max_range self ->
  -90 <= lat1 <= 90 -> -90 <= lat2 <= 90 ->
  let leg := calculate_distance (lat1, lon) (lat2, lon)
             / (INR (length (fuel_stops plan)) + 1) in
  Forall (fun stop => distance_from_previous stop = leg) (fuel_stops plan) /\
  final_leg (lat1, lon) (lat2, lon) (fuel_stops plan) = leg /\
  leg <= max_range self.
Proof.
  intros Hplan Hr H1 H2 leg.
  assert (Hlat : Rabs (lat2 - lat1) <= 180)
    by (unfold Rabs; destruct (Rcase_abs (lat2 - lat1)); lra).
  pose proof (calculate_distance_nonneg (lat1, lon) (lat2, lon)) as Hd.
  destruct (fuel_stops plan) as [|stop0 rest] eqn:E.
  - subst leg. cbn [length INR]. unfold final_leg, last_position. cbn [map last].
    split; [constructor|].
    replace (calculate_distance (lat1, lon) (lat2, lon) / (0 + 1))
      with (calculate_distance (lat1, lon) (lat2, lon)) by field.
    split; [reflexivity|].
    revert Hplan. unfold find_optimal_fuel_stops. cbv zeta.
    destruct (Rle_dec _ _) as [Hle|Hgt]; [intros _; exact Hle|].
    destruct (pydiv _ (max_range self)) as [q|] eqn:Eq; [|discriminate].
    apply pydiv_inv in Eq. subst q. cbn [bind].
    destruct (stops_loop _ _ _ _ _ _ _ _ _ _ _) as [[[fs tc] cp]|] eqn:El;
      [|discriminate].
    cbn [bind]. intros Hp.
    apply stops_loop_inv in El. cbn [app] in El.
    injection Hp as Hp. rewrite <- Hp in E. cbn [fuel_stops] in E.
    rewrite E in El.
    assert (Hq : 1 < calculate_distance (lat1, lon) (lat2, lon) / max_range self).
    { apply Rnot_le_lt in Hgt.
      apply Rmult_lt_reg_r with (max_range self); [lra|].
      unfold Rdiv. rewrite Rmult_assoc, Rinv_l by lra. lra. }
    pose proof (Zceil_gt_1 _ Hq) as Hn.
    destruct (Z.to_nat _) as [|k] eqn:Ek in El; [lia|].
    cbn [seq stops_from] in El. discriminate.
  - assert (Hne : fuel_stops plan <> []) by (rewrite E; discriminate).
    destruct (returned_plan_full _ _ _ _ _ Hplan Hne) as (Hgt & Hn & Hp).
    cbv zeta in Hp.
    set (n := (Zceil (calculate_distance (lat1, lon) (lat2, lon)
                      / max_range self) - 1)%Z) in *.
    assert (Hstops : 0 < IZR n) by (apply IZR_lt; exact Hn).
    pose proof (meridian_all_legs self real_stations
                  match real_stations with s :: _ => retail_price s | [] => 35 / 10 end
                  (5 / 10) lat1 lat2 lon n Hlat Hstops) as Hall.
    cbv zeta in Hall.
    assert (Hfs : fuel_stops plan
                  = stops_from self real_stations
                      match real_stations with s :: _ => retail_price s | [] => 35 / 10 end
                      (5 / 10) (lat1, lon) (lat2, lon) n (lat1, lon)
                      (seq 0 (Z.to_nat n)))
      by (rewrite Hp; reflexivity).
    rewrite <- Hfs, E in Hall.
    assert (Hlen : INR (length (stop0 :: rest)) = IZR n).
    { rewrite <- E, Hfs, stops_from_length, length_seq.
      rewrite INR_IZR_INZ, Z2Nat.id by lia. reflexivity. }
    subst leg. rewrite Hlen.
    destruct Hall as [Hlegs Hfinal]. split; [exact Hlegs|]. split; [exact Hfinal|].
    pose proof (Zceil_bound (calculate_distance (lat1, lon) (lat2, lon)
                             / max_range self)) as [_ Hc].
    assert (Hc' : calculate_distance (lat1, lon) (lat2, lon) / max_range self
                  <= IZR n + 1).
    { unfold n. rewrite minus_IZR. lra. }
    apply Rmult_le_reg_r with (IZR n + 1); [lra|].
    unfold Rdiv. rewrite Rmult_assoc, Rinv_l, Rmult_1_r by lra.
    apply Rmult_le_compat_r with (r := max_range self) in Hc'; [|lra].
    unfold Rdiv in Hc'. rewrite Rmult_assoc, Rinv_l, Rmult_1_r in Hc' by lra.
    lra.
Qed.

Lemma meridian_legs_within_range_witness :
  exists plan,
    find_optimal_fuel_stops {| max_range := 50; mpg := 10 |} [] (0, 0) (1, 0)
    = Ok plan /\
    length (fuel_stops plan) = 1%nat /\
    Forall (fun stop => distance_from_previous stop <= 50) (fuel_stops plan).
Proof.
  destruct one_degree_plan as (plan & Hplan & Hlen).
  exists plan. split; [exact Hplan|]. split; [exact Hlen|].
  destruct (meridian_legs_within_range _ _ _ _ _ _ Hplan)
    as (Hlegs & _ & Hle); cbn [max_range]; try lra.
  apply Forall_forall. intros stop Hin.
  rewrite Forall_forall in Hlegs. rewrite (Hlegs stop Hin). exact Hle.
Defined.

End ExactPlanner.

From stdpp Require Import gmap strings.

Module Geocode.

(** Python strings are modelled here by 8-bit [string]s. *)

(** [str.isspace] on a character below 256. *)
Definition is_space (c : ascii) : bool :=
  let n := nat_of_ascii c in
  ((9 <=? n) && (n <=? 13)) || ((28 <=? n) && (n <=? 32))
  || (n =? 133) || (n =? 160).

Fixpoint lstrip_chars (s : list ascii) : list ascii :=
  match s with
  | c :: s' => if is_space c then lstrip_chars s' else s
  | [] => []
  end.

(** [s.strip()]. *)
Definition strip (s : string) : string :=
  string_of_list_ascii
    (rev (lstrip_chars (rev (lstrip_chars (list_ascii_of_string s))))).

(** [sep in s] for a one-character [sep]. *)
Fixpoint contains (sep : ascii) (s : string) : bool :=
  match s with
  | EmptyString => false
  | String c s' => Ascii.eqb c sep || contains sep s'
  end.

(** [s.split(sep)] for a one-character [sep]. *)
Fixpoint split (sep : ascii) (s : string) : list string :=
  match s with
  | EmptyString => [EmptyString]
  | String c s' =>
      if Ascii.eqb c sep then EmptyString :: split sep s'
      else match split sep s' with
           | part :: parts => String c part :: parts
           | [] => [String c EmptyString]
           end
  end.

(** [s.replace(" ", "_")]. *)
Fixpoint replace_spaces (s : string) : string :=
  match s with
  | EmptyString => EmptyString
  | String c s' =>
      String (if Ascii.eqb c " " then "_"%char else c) (replace_spaces s')
  end.

(** [s.lower()] on characters below 256. *)
Definition lower_char (c : ascii) : ascii :=
  let n := nat_of_ascii c in
  if ((65 <=? n) && (n <=? 90))
     || ((192 <=? n) && (n <=? 222) && negb (n =? 215))
  then ascii_of_nat (n + 32) else c.

Fixpoint lower (s : string) : string :=
  match s with
  | EmptyString => EmptyString
  | String c s' => String (lower_char c) (lower s')
  end.

(** What the outside world is asked to do, in order. *)
Inductive event : Type :=
| Request (query : string)       (* GET <base_url>/search?q=query *)
| Sleep (seconds : Q)            (* asyncio.sleep *)
| Save (station_name : string)   (* station.save() *)
| LogError (message : string)    (* self.log_error *)
| LogWarning (message : string). (* logger.warning *)

(** Answer of the geocoding provider to one request. *)
Inductive response (F : Type) : Type :=
| Found (lat lon : F)     (* a non-empty result list *)
| NoResult                (* an empty result list *)
| ProviderException.      (* transport error, bad status, bad payload *)
Arguments Found {F} lat lon.
Arguments NoResult {F}.
Arguments ProviderException {F}.

(** A row of [FuelStation] as the geocoder reads and updates it. *)
Record FuelStation (F : Type) : Type := {
  name : string;
  address : string;
  city : string;
  state : string;
  latitude : option F;
  longitude : option F;
  geocoded : bool
}.
Arguments name {F}.
Arguments address {F}.
Arguments city {F}.
Arguments state {F}.
Arguments latitude {F}.
Arguments longitude {F}.
Arguments geocoded {F}.

(** The state the services act on: the Django cache and the history of
    what was asked of the outside world.  The cache is a finite map whose
    entries do not expire within a run; whether the backend raises on a
    read or on a write is decided by the environment (see
    [get_from_cache] and [set_cache]). *)
Record world (F : Type) : Type := {
  cache : gmap string (F * F);
  trace : list event
}.
Arguments cache {F}.
Arguments trace {F}.

(** The cache key and the provider query of an address. *)
Definition cache_key_of (address city state : string) : string :=
  lower (replace_spaces
           ("geocode:" +:+ address +:+ ":" +:+ city +:+ ":" +:+ state)).

Definition query_of (address city state : string) : string :=
  address +:+ ", " +:+ city +:+ ", " +:+ state +:+ ", USA".

Section Services.
(** Python floats and the built-in [float(s)] ([None] for [ValueError]). *)
Variable F : Type.
Variable float : string -> option F.
(** The provider's answer to a query, given the history so far. *)
Variable provider : list event -> string -> response F.
(** Whether [cache.get(key)] and [cache.set(key, ...)] raise, given the
    history so far. *)
Variable cache_get_raises : list event -> string -> bool.
Variable cache_set_raises : list event -> string -> bool.
(** Whether [station.save()] raises. *)
Variable save_raises : FuelStation F -> bool.

Definition emit (e : event) (w : world F) : world F :=
  {| cache := cache w; trace := trace w ++ [e] |}.

(** [BaseService.get_from_cache] (base.py, lines 15-21): an exception of
    the backend is logged and read as a miss. *)
Definition get_from_cache (cache_key : string) (w : world F)
  : option (F * F) * world F :=
  if cache_get_raises (trace w) cache_key
  then (None, emit (LogWarning ("Cache get error for key " +:+ cache_key)) w)
  else (cache w !! cache_key, w).

(** [BaseService.set_cache] (base.py, lines 23-30): an exception of the
    backend is logged and [False] is returned. *)
Definition set_cache (cache_key : string) (data : F * F) (w : world F)
  : bool * world F :=
  if cache_set_raises (trace w) cache_key
  then (false, emit (LogWarning ("Cache set error for key " +:+ cache_key)) w)
  else (true, {| cache := <[cache_key := data]> (cache w); trace := trace w |}).

(** [self.rate_limit_delay = 1.1]. *)
Definition rate_limit_delay : Q := 11 # 10.

(** [GeocodingService.geocode_address] (geocoding.py, lines 23-67). *)
Definition geocode_address (address city state : string) (w : world F)
  : option (F * F) * world F :=
  let cache_key := cache_key_of address city state in
  let '(cached_result, w) := get_from_cache cache_key w in
  match cached_result with
  | Some cached_result => (Some cached_result, w)
  | None =>
      let query := query_of address city state in
      let w := emit (Request query) w in
      match provider (trace w) query with
      | Found lat lon =>
          let result := (lat, lon) in
          let '(_, w) := set_cache cache_key result w in
          (Some result, w)
      | NoResult => (None, w)
      | ProviderException =>
          (None, emit (LogError ("Geocoding error for " +:+ query)) w)
      end
  end.

(** [RoutePlanningService.geocode_location] (routing.py, lines 72-99), for
    a [location] that is a string (the branch of lines 77-78 needs a dict).
    [parsed] is the outcome of the [try] block: [None] when the text has no
    comma or a [ValueError] was raised and passed over. *)
Definition geocode_location (location : string) (w : world F)
  : option (F * F) * world F :=
  let parsed :=
    if contains "," location then
      match split "," location with
      | [lat; lon] =>
          match float (strip lat) with
          | Some lat =>
              match float (strip lon) with
              | Some lon => Some (lat, lon)
              | None => None
              end
          | None => None
          end
      | _ => None
      end
    else None in
  match parsed with
  | Some coords => (Some coords, w)
  | None =>
      match split "," location with
      | city :: state :: _ => geocode_address "" (strip city) (strip state) w
      | _ => (None, w)
      end
  end.

(** The body of [for i, station in enumerate(stations_to_geocode)]
    (geocoding.py, lines 81-104); [n] is [len(stations_to_geocode)]. *)
Fixpoint batch_loop (n i : nat) (todo : list (FuelStation F))
         (geocoded_stations : list (FuelStation F)) (w : world F)
  : list (FuelStation F) * world F :=
  match todo with
  | [] => (geocoded_stations, w)
  | station :: todo' =>
      let '(coords, w) :=
        geocode_address (address station) (city station) (state station) w in
      let pause (w : world F) :=
        if (i <? n - 1)%nat then emit (Sleep rate_limit_delay) w else w in
      match coords with
      | Some (lat, lon) =>
          let station :=
            {| name := name station; address := address station;
               city := city station; state := state station;
               latitude := Some lat; longitude := Some lon;
               geocoded := true |} in
          if save_raises station then
            let w :=
              emit (LogError ("Error geocoding station " +:+ name station)) w in
            batch_loop n (S i) todo' (geocoded_stations ++ [station]) w
          else
            let w := emit (Save (name station)) w in
            batch_loop n (S i) todo' (geocoded_stations ++ [station])
                       (pause w)
      | None =>
          batch_loop n (S i) todo' (geocoded_stations ++ [station]) (pause w)
      end
  end.

(** [GeocodingService.geocode_fuel_stations] (geocoding.py, lines 69-106). *)
Definition geocode_fuel_stations (stations : list (FuelStation F)) (w : world F)
  : list (FuelStation F) * world F :=
  let stations_to_geocode :=
    List.filter (fun s => negb (geocoded s)) stations in
  match stations_to_geocode with
  | [] => (stations, w)
  | _ => batch_loop (length stations_to_geocode) 0 stations_to_geocode [] w
  end.
End Services.

(** The provider query and the cache key of a station. *)
Definition station_query (F : Type) (s : FuelStation F) : string :=
  query_of (address s) (city s) (state s).

Definition station_key (F : Type) (s : FuelStation F) : string :=
  cache_key_of (address s) (city s) (state s).

(** Whether the address of a station is in the cache. *)
Definition in_cache (F : Type) (w : world F) (s : FuelStation F) : bool :=
  match cache w !! station_key F s with
  | Some _ => true
  | None => false
  end.

(** What a batch run may make of a station: the station itself, or the
    station with coordinates and the [geocoded] flag set. *)
Definition processed (F : Type) (s s' : FuelStation F) : Prop :=
  name s' = name s /\ address s' = address s /\
  city s' = city s /\ state s' = state s /\
  (s' = s \/
   (geocoded s' = true /\ is_Some (latitude s') /\ is_Some (longitude s'))).

(** ** Observations on a history *)

Fixpoint requests (evs : list event) : list string :=
  match evs with
  | [] => []
  | Request q :: evs' => q :: requests evs'
  | _ :: evs' => requests evs'
  end.

Fixpoint sleeps (evs : list event) : list Q :=
  match evs with
  | [] => []
  | Sleep d :: evs' => d :: sleeps evs'
  | _ :: evs' => sleeps evs'
  end.

(** Every request but possibly the first is preceded, since the request
    before it, by a pause of at least [delay] seconds.  [rested] tells
    whether such a pause has been seen since the last request. *)
Fixpoint spaced (delay : Q) (rested : bool) (evs : list event) : bool :=
  match evs with
  | [] => true
  | Request _ :: evs' => rested && spaced delay false evs'
  | Sleep d :: evs' =>
      spaced delay (rested || Qle_bool delay d) evs'
  | _ :: evs' => spaced delay rested evs'
  end.

(** ** A reading of [float] on plain decimal literals

    [float] is a parameter of the services.  For closed examples it is
    instantiated with this reading of an optional sign, digits and an
    optional fraction, on which it agrees with Python's [float]. *)

Fixpoint digits_value (acc : Z) (s : string) : option Z :=
  match s with
  | EmptyString => Some acc
  | String c s' =>
      let n := nat_of_ascii c in
      if ((48 <=? n) && (n <=? 57))%nat
      then digits_value (10 * acc + Z.of_nat (n - 48)) s'
      else None
  end.

Definition unsigned_decimal (s : string) : option Q :=
  match split "." s with
  | [int] =>
      match int with
      | EmptyString => None
      | _ => option_map inject_Z (digits_value 0 int)
      end
  | [int; frac] =>
      match int, frac with
      | EmptyString, EmptyString => None
      | _, _ =>
          match digits_value 0 int, digits_value 0 frac with
          | Some i, Some f =>
              let scale := (10 ^ Z.of_nat (String.length frac))%Z in
              Some (Qmake (i * scale + f) (Z.to_pos scale))
          | _, _ => None
          end
      end
  | _ => None
  end.

Definition decimal_float (s : string) : option Q :=
  match s with
  | String "-" s' => option_map Qopp (unsigned_decimal s')
  | String "+" s' => unsigned_decimal s'
  | _ => unsigned_decimal s
  end.

(** An empty cache and an empty history. *)
Definition fresh : world Q := {| cache := ∅; trace := [] |}.

(** A provider that never finds anything. *)
Definition silent_provider : list event -> string -> response Q :=
  fun _ _ => NoResult.

(** A provider that knows one address. *)
Definition springfield_provider : list event -> string -> response Q :=
  fun _ query =>
    if String.eqb query "1 Main St, Springfield, IL, USA"
    then Found (Qmake 398 10) (- Qmake 896 10)%Q
    else NoResult.

(** A cache backend that never raises, and one that always does. *)
Definition reliable : list event -> string -> bool := fun _ _ => false.

Definition broken : list event -> string -> bool := fun _ _ => true.

(** Two stations that are not geocoded yet, and a cache that already
    holds the coordinates of both addresses. *)
Definition station_a : FuelStation Q :=
  {| name := "A"; address := "1 Main St"; city := "Springfield"; state := "IL";
     latitude := None; longitude := None; geocoded := false |}.

Definition station_b : FuelStation Q :=
  {| name := "B"; address := "2 Oak Ave"; city := "Peoria"; state := "IL";
     latitude := None; longitude := None; geocoded := false |}.

Definition warm : world Q :=
  {| cache := <["geocode:1_main_st:springfield:il" := (Qmake 398 10, - Qmake 896 10)%Q]>
              (<["geocode:2_oak_ave:peoria:il" := (Qmake 407 10, - Qmake 896 10)%Q]> ∅);
     trace := [] |}.

(** The state after the address of [station_a] has been fetched from
    [springfield_provider], starting from nothing. *)
Definition resolved : world Q :=
  snd (geocode_address Q springfield_provider reliable reliable
         "1 Main St" "Springfield" "IL" fresh).

Definition saves_succeed : FuelStation Q -> bool := fun _ => false.

Definition saves_fail : FuelStation Q -> bool := fun _ => true.

(** ** Location resolution *)

Lemma split_no_sep sep s : contains sep s = false -> split sep s = [s].
Proof.
  induction s as [|c s IH]; cbn; [reflexivity|].
  destruct (Ascii.eqb c sep); cbn; [discriminate|].
  intros H. now rewrite IH.
Qed.

(** ** Settled properties of location resolution *)

(** C6 (as stated, refuted).  The text ["100,200"] parses as a numeric
    pair whose latitude 100 lies outside [-90, 90]; resolution does not
    fail: it returns the coordinate (100, 200). *)
Lemma out_of_range_pair_returned :
  geocode_location Q decimal_float silent_provider reliable reliable
                   "100,200" fresh
  = (Some (100, 200)%Q, fresh) /\
  ~ (-90 <= 100 <= 90)%Q.
Proof.
  split; [vm_compute; reflexivity|].
  intros [_ H]. vm_compute in H. apply H. reflexivity.
Qed.

(** C6 (amended).  For every location text that parses as a literal
    "lat,lon" numeric pair, resolution returns that coordinate directly,
    without issuing any network call and leaving the cache untouched,
    whatever the values of lat and lon: no range is checked. *)
Theorem literal_pair_returned_directly
        (F : Type) (float : string -> option F)
        (provider : list event -> string -> response F)
        (cache_get_raises cache_set_raises : list event -> string -> bool)
        (location lat lon : string) (la lo : F) (w : world F) :
  split "," location = [lat; lon] ->
  float (strip lat) = Some la ->
  float (strip lon) = Some lo ->
  geocode_location F float provider cache_get_raises cache_set_raises
                   location w
  = (Some (la, lo), w).
Proof.
  intros Hs Hla Hlo. unfold geocode_location.
  destruct (contains "," location) eqn:Hc.
  - rewrite Hs, Hla, Hlo. reflexivity.
  - rewrite split_no_sep in Hs by exact Hc. discriminate.
Qed.

Lemma literal_pair_returned_directly_witness :
  geocode_location Q decimal_float silent_provider reliable reliable
                   "40.7, -74.0" fresh
  = (Some (Qmake 407 10, - Qmake 740 10)%Q, fresh).
Proof.
  apply (literal_pair_returned_directly Q decimal_float silent_provider
           reliable reliable "40.7, -74.0" "40.7" " -74.0").
  - vm_compute. reflexivity.
  - vm_compute. reflexivity.
  - vm_compute. reflexivity.
Defined.

(** C10.  For every location string that contains no comma, resolution
    returns failure without issuing any request to the geocoding provider
    (the history and the cache are unchanged); only inputs containing at
    least one comma can reach the provider. *)
Theorem comma_gates_provider
        (F : Type) (float : string -> option F)
        (provider : list event -> string -> response F)
        (cache_get_raises cache_set_raises : list event -> string -> bool)
        (location : string) (w : world F) :
  (contains "," location = false ->
   geocode_location F float provider cache_get_raises cache_set_raises
                    location w
   = (None, w)) /\
  (requests (trace (snd (geocode_location F float provider cache_get_raises
                           cache_set_raises location w)))
   <> requests (trace w) ->
   contains "," location = true).
Proof.
  assert (Hnone : contains "," location = false ->
                  geocode_location F float provider cache_get_raises
                                   cache_set_raises location w
                  = (None, w)).
  { intros H. unfold geocode_location.
    rewrite H, split_no_sep by exact H. reflexivity. }
  split; [exact Hnone|].
  intros Hreq. destruct (contains "," location) eqn:Hc; [reflexivity|].
  rewrite Hnone in Hreq by reflexivity. now destruct Hreq.
Qed.

Lemma comma_gates_provider_witness :
  geocode_location Q decimal_float silent_provider reliable reliable
                   "Chicago" fresh
  = (None, fresh).
Proof.
  apply (proj1 (comma_gates_provider Q decimal_float silent_provider
                  reliable reliable "Chicago" fresh)).
  reflexivity.
Defined.

(** ** Histories without requests and pauses *)

Lemma requests_app evs evs' : requests (evs ++ evs') = requests evs ++ requests evs'.
Proof.
  induction evs as [|[q|x|x|x|x] evs IH]; cbn; rewrite ?IH; reflexivity.
Qed.

Lemma sleeps_app evs evs' : sleeps (evs ++ evs') = sleeps evs ++ sleeps evs'.
Proof.
  induction evs as [|[q|x|x|x|x] evs IH]; cbn; rewrite ?IH; reflexivity.
Qed.

(** A stretch of history that holds saves and log entries only. *)
Definition quiet (evs : list event) : Prop :=
  requests evs = [] /\ sleeps evs = [].

Lemma quiet_nil : quiet [].
Proof. split; reflexivity. Qed.

Lemma quiet_app evs evs' : quiet evs -> quiet evs' -> quiet (evs ++ evs').
Proof.
  intros [Hr Hs] [Hr' Hs']. split.
  - now rewrite requests_app, Hr, Hr'.
  - now rewrite sleeps_app, Hs, Hs'.
Qed.

Lemma spaced_quiet delay rested evs tl :
  quiet evs -> spaced delay rested (evs ++ tl) = spaced delay rested tl.
Proof.
  induction evs as [|[q|x|x|x|x] evs IH]; intros [Hr Hs]; cbn in *;
    try discriminate; try reflexivity; apply IH; split; assumption.
Qed.

Lemma quiet_save n : quiet [Save n].
Proof. split; reflexivity. Qed.

Lemma quiet_warning m : quiet [LogWarning m].
Proof. split; reflexivity. Qed.

Lemma quiet_error m : quiet [LogError m].
Proof. split; reflexivity. Qed.

#[local] Hint Resolve quiet_nil quiet_app quiet_save quiet_warning quiet_error
  : core.

(** ** One address lookup *)

Section Lookup.
Variable F : Type.
Variable provider : list event -> string -> response F.
Variable cache_get_raises cache_set_raises : list event -> string -> bool.

Abbreviation get_from_cache := (get_from_cache F cache_get_raises).
Abbreviation set_cache := (set_cache F cache_set_raises).
Abbreviation geocode_address :=
  (geocode_address F provider cache_get_raises cache_set_raises).

(** A read leaves the cache alone, logs at most a warning, and returns
    what the cache holds unless the backend raises. *)
Lemma get_from_cache_shape key (w : world F) :
  cache (snd (get_from_cache key w)) = cache w /\
  (exists evs, quiet evs /\
               trace (snd (get_from_cache key w)) = trace w ++ evs) /\
  (forall r, fst (get_from_cache key w) = Some r -> cache w !! key = Some r) /\
  (cache_get_raises (trace w) key = false ->
   get_from_cache key w = (cache w !! key, w)).
Proof.
  unfold Geocode.get_from_cache.
  destruct (cache_get_raises (trace w) key); cbn.
  - split; [reflexivity|]. split; [eauto|]. split; [discriminate|discriminate].
  - split; [reflexivity|]. split.
    + exists []. split; [auto|]. now rewrite app_nil_r.
    + split; [intros r H; exact H|reflexivity].
Qed.

(** A write changes the entry of its key at most, logs at most a warning,
    and stores the data unless the backend raises. *)
Lemma set_cache_shape key data (w : world F) :
  (exists evs, quiet evs /\
               trace (snd (set_cache key data w)) = trace w ++ evs) /\
  (cache (snd (set_cache key data w)) = <[key := data]> (cache w) \/
   (cache (snd (set_cache key data w)) = cache w /\
    cache_set_raises (trace w) key = true)) /\
  (cache_set_raises (trace w) key = false ->
   cache (snd (set_cache key data w)) = <[key := data]> (cache w)).
Proof.
  unfold Geocode.set_cache.
  destruct (cache_set_raises (trace w) key); cbn.
  - split; [eauto|]. split; [auto|discriminate].
  - split; [|split; [auto|reflexivity]].
    exists []. split; [auto|]. now rewrite app_nil_r.
Qed.

(** One address lookup asks the provider at most once. *)
Lemma geocode_address_trace address city state (w : world F) :
  exists pre post,
    quiet pre /\ quiet post /\
    (trace (snd (geocode_address address city state w)) = trace w ++ pre \/
     trace (snd (geocode_address address city state w))
     = trace w ++ pre ++ Request (query_of address city state) :: post).
Proof.
  unfold Geocode.geocode_address. cbv zeta.
  destruct (get_from_cache_shape (cache_key_of address city state) w)
    as (_ & (pre & Hpre & Htr) & _).
  destruct (get_from_cache (cache_key_of address city state) w)
    as [[hit|] w1]; cbn [fst snd] in *.
  - exists pre, []. auto.
  - destruct (provider _ _) as [lat lon| |].
    + destruct (set_cache_shape (cache_key_of address city state) (lat, lon)
                  (emit F (Request (query_of address city state)) w1))
        as ((post & Hpost & Htr') & _).
      destruct (set_cache _ _ _) as [ok w2]. cbn [fst snd] in *.
      exists pre, post. split; [exact Hpre|]. split; [exact Hpost|]. right.
      rewrite Htr'. cbn [emit trace]. rewrite Htr, <- !app_assoc. reflexivity.
    + exists pre, []. split; [exact Hpre|]. split; [auto|]. right.
      cbn [emit trace snd]. rewrite Htr, <- !app_assoc. reflexivity.
    + exists pre, [LogError ("Geocoding error for "
                             +:+ query_of address city state)].
      split; [exact Hpre|]. split; [auto|]. right.
      cbn [emit trace snd]. rewrite Htr, <- !app_assoc. reflexivity.
Qed.

(** A lookup that reads the cache without failure and finds the address
    there returns it and changes nothing. *)
Lemma geocode_address_hit address city state (w : world F) r :
  cache_get_raises (trace w) (cache_key_of address city state) = false ->
  cache w !! cache_key_of address city state = Some r ->
  geocode_address address city state w = (Some r, w).
Proof.
  intros Hget H. unfold Geocode.geocode_address. cbv zeta.
  destruct (get_from_cache_shape (cache_key_of address city state) w)
    as (_ & _ & _ & Hread).
  rewrite (Hread Hget), H. reflexivity.
Qed.

(** A lookup of an address that is not in the cache asks the provider. *)
Lemma geocode_address_miss address city state (w : world F) :
  cache w !! cache_key_of address city state = None ->
  exists pre post,
    quiet pre /\ quiet post /\
    trace (snd (geocode_address address city state w))
    = trace w ++ pre ++ Request (query_of address city state) :: post.
Proof.
  intros Hmiss.
  destruct (geocode_address_trace address city state w)
    as (pre & post & Hpre & Hpost & Htr).
  unfold Geocode.geocode_address in *. cbv zeta in *.
  destruct (get_from_cache_shape (cache_key_of address city state) w)
    as (_ & (pre' & Hpre' & Htr') & Hsome & _).
  destruct (get_from_cache (cache_key_of address city state) w)
    as [[hit|] w1]; cbn [fst snd] in *.
  - specialize (Hsome hit eq_refl). congruence.
  - destruct (provider _ _) as [lat lon| |].
    + destruct (set_cache_shape (cache_key_of address city state) (lat, lon)
                  (emit F (Request (query_of address city state)) w1))
        as ((post' & Hpost' & Htr'') & _).
      destruct (set_cache _ _ _) as [ok w2]. cbn [fst snd] in *.
      exists pre', post'. split; [exact Hpre'|]. split; [exact Hpost'|].
      rewrite Htr''. cbn [emit trace]. rewrite Htr', <- !app_assoc. reflexivity.
    + exists pre', []. split; [exact Hpre'|]. split; [auto|].
      cbn [emit trace snd]. rewrite Htr', <- !app_assoc. reflexivity.
    + exists pre', [LogError ("Geocoding error for "
                              +:+ query_of address city state)].
      split; [exact Hpre'|]. split; [auto|].
      cbn [emit trace snd]. rewrite Htr', <- !app_assoc. reflexivity.
Qed.

(** The cache after an address lookup. *)
Lemma geocode_address_cache_shape address city state (w : world F) :
  let key := cache_key_of address city state in
  let run := geocode_address address city state w in
  (forall k, k <> key -> cache (snd run) !! k = cache w !! k) /\
  (is_Some (cache w !! key) -> is_Some (cache (snd run) !! key)) /\
  (fst run = None -> cache (snd run) = cache w) /\
  (cache_get_raises (trace w) key = false -> cache w ⊆ cache (snd run)) /\
  (forall r, fst run = Some r ->
             cache (snd run) !! key = Some r \/
             (cache (snd run) = cache w /\
              exists history, cache_set_raises history key = true)).
Proof.
  intros key run. subst run. unfold Geocode.geocode_address. cbv zeta.
  fold key.
  destruct (get_from_cache_shape key w) as (Hc & _ & Hsome & Hread).
  destruct (get_from_cache key w) as [[hit|] w1] eqn:Eget; cbn [fst snd] in *.
  - rewrite Hc. specialize (Hsome hit eq_refl).
    split; [reflexivity|]. split; [auto|]. split; [discriminate|].
    split; [reflexivity|]. intros r [= <-]. now left.
  - destruct (provider _ _) as [lat lon| |].
    + destruct (set_cache_shape key (lat, lon)
                  (emit F (Request (query_of address city state)) w1))
        as (_ & Hset & _).
      destruct (set_cache _ _ _) as [ok w2]. cbn [fst snd emit cache] in *.
      rewrite Hc in Hset.
      destruct Hset as [-> | [-> Hraise]].
      * split; [intros k Hk; now rewrite lookup_insert_ne|].
        split; [intros _; rewrite lookup_insert_eq; eauto|].
        split; [discriminate|].
        split.
        { intros Hget. apply insert_subseteq.
          specialize (Hread Hget). now injection Hread as <- _. }
        intros r [= <-]. left. apply lookup_insert_eq.
      * split; [reflexivity|]. split; [auto|]. split; [discriminate|].
        split; [reflexivity|]. intros r _. right. eauto.
    + cbn [snd emit cache]. rewrite Hc.
      split; [reflexivity|]. split; [auto|]. split; [reflexivity|].
      split; [reflexivity|discriminate].
    + cbn [snd emit cache]. rewrite Hc.
      split; [reflexivity|]. split; [auto|]. split; [reflexivity|].
      split; [reflexivity|discriminate].
Qed.
End Lookup.

(** ** Batch geocoding *)

(** The events of one address lookup: log entries, with at most one
    request to the provider among them. *)
Definition lookup_events (query : string) (evs : list event) : Prop :=
  exists pre post,
    quiet pre /\ quiet post /\
    (evs = pre \/ evs = pre ++ Request query :: post).

Lemma lookup_events_spec query evs :
  lookup_events query evs ->
  sleeps evs = [] /\
  ((requests evs = [] /\
    forall delay rested tl,
      spaced delay rested (evs ++ tl) = spaced delay rested tl) \/
   (requests evs = [query] /\
    forall delay tl, spaced delay true (evs ++ tl) = spaced delay false tl)).
Proof.
  intros (pre & post & [Hr Hs] & [Hr' Hs'] & [-> | ->]).
  - split; [exact Hs|]. left. split; [exact Hr|].
    intros delay rested tl. apply spaced_quiet. now split.
  - split; [rewrite sleeps_app; cbn; now rewrite Hs, Hs'|]. right. split.
    + rewrite requests_app. cbn. now rewrite Hr, Hr'.
    + intros delay tl. rewrite <- app_assoc.
      rewrite spaced_quiet by now split.
      cbn [app spaced andb]. apply spaced_quiet. now split.
Qed.

Section Batch.
Variable F : Type.
Variable provider : list event -> string -> response F.
Variable cache_get_raises cache_set_raises : list event -> string -> bool.
Variable save_raises : FuelStation F -> bool.

Abbreviation geocode_address :=
  (geocode_address F provider cache_get_raises cache_set_raises).
Abbreviation batch_loop :=
  (batch_loop F provider cache_get_raises cache_set_raises save_raises).

Let d := rate_limit_delay.

Ltac step_world w :=
  unfold emit; cbn [cache trace app];
  rewrite <- ?app_assoc, ?app_nil_r; try reflexivity; now destruct w.

Lemma geocode_address_events address city state (w : world F) :
  exists evs,
    trace (snd (geocode_address address city state w)) = trace w ++ evs /\
    lookup_events (query_of address city state) evs /\
    (cache w !! cache_key_of address city state = None ->
     requests evs = [query_of address city state]).
Proof.
  destruct (cache w !! cache_key_of address city state) as [r|] eqn:Hc.
  - destruct (geocode_address_trace F provider cache_get_raises
                cache_set_raises address city state w)
      as (pre & post & Hpre & Hpost & [Htr|Htr]).
    + exists pre. split; [exact Htr|]. split; [|discriminate].
      exists pre, post. auto.
    + eexists. split; [exact Htr|]. split; [|discriminate].
      exists pre, post. auto.
  - destruct (geocode_address_miss F provider cache_get_raises
                cache_set_raises address city state w Hc)
      as (pre & post & Hpre & Hpost & Htr).
    eexists. split; [exact Htr|]. split.
    + exists pre, post. auto.
    + intros _. rewrite requests_app. cbn.
      destruct Hpre as [-> _], Hpost as [-> _]. reflexivity.
Qed.

(** One turn of the loop: the station is looked up, then the loop goes on
    with the next index, one more station in the result, the cache left by
    the lookup, and a history extended by log entries and at most one
    pause. *)
Lemma batch_loop_step n i station todo acc (w : world F) :
  let look :=
    geocode_address (address station) (city station) (state station) w in
  exists station' logged pause,
    batch_loop n i (station :: todo) acc w
    = batch_loop n (S i) todo (acc ++ [station'])
        {| cache := cache (snd look);
           trace := trace (snd look) ++ logged ++ pause |} /\
    processed F station station' /\
    quiet logged /\
    (pause = [] \/ (pause = [Sleep d] /\ (i <? n - 1)%nat = true)) /\
    ((forall s, save_raises s = false) ->
     pause = if (i <? n - 1)%nat then [Sleep d] else []).
Proof.
  intros look. subst look. cbn [Geocode.batch_loop].
  destruct (geocode_address (address station) (city station) (state station) w)
    as [[[lat lon]|] w1]; cbn [snd].
  - set (st' := {| name := name station; address := address station;
                   city := city station; state := state station;
                   latitude := Some lat; longitude := Some lon;
                   geocoded := true |}).
    assert (Hproc : processed F station st')
      by (unfold processed, st'; cbn; eauto 10).
    destruct (save_raises st') eqn:Hsave.
    + exists st', [LogError ("Error geocoding station " +:+ name station)], [].
      split; [step_world w1|].
      split; [exact Hproc|]. split; [auto|]. split; [auto|].
      intros H. rewrite H in Hsave. discriminate.
    + destruct (i <? n - 1)%nat eqn:Hi.
      * exists st', [Save (name station)], [Sleep d].
        split; [step_world w1|].
        split; [exact Hproc|]. split; [auto|]. split; [auto|]. reflexivity.
      * exists st', [Save (name station)], [].
        split; [step_world w1|].
        split; [exact Hproc|]. split; [auto|]. split; [auto|]. reflexivity.
  - assert (Hkeep : processed F station station)
      by (unfold processed; auto 10).
    destruct (i <? n - 1)%nat eqn:Hi.
    + exists station, [], [Sleep d].
      split; [step_world w1|].
      split; [exact Hkeep|]. split; [auto|]. split; [auto|]. reflexivity.
    + exists station, [], [].
      split; [step_world w1|].
      split; [exact Hkeep|]. split; [auto|]. split; [auto|]. reflexivity.
Qed.

Lemma pause_index n i (todo : list (FuelStation F)) :
  (i + S (length todo) = n)%nat ->
  (i <? n - 1)%nat = negb (Nat.eqb (length todo) 0).
Proof.
  intros Hn. destruct (length todo) as [|m]; cbn [Nat.eqb negb].
  - apply Nat.ltb_ge. lia.
  - apply Nat.ltb_lt. lia.
Qed.

(** As long as saving does not fail, a pause follows every station but
    the last, and no two requests follow one another without a pause. *)
Lemma batch_loop_trace :
  (forall s, save_raises s = false) ->
  forall todo n i acc (w : world F),
    (i + length todo = n)%nat ->
    exists evs,
      trace (snd (batch_loop n i todo acc w)) = trace w ++ evs /\
      (todo = [] -> evs = []) /\
      sleeps evs = repeat d (length todo - 1) /\
      spaced d true evs = true.
Proof.
  intros Hsave.
  induction todo as [|station todo IH]; intros n i acc w Hn.
  - exists []. cbn. rewrite app_nil_r. auto.
  - destruct (batch_loop_step n i station todo acc w)
      as (st' & logged & pause & -> & _ & Hlog & _ & Hpause).
    specialize (Hpause Hsave). cbn [length] in Hn.
    rewrite (pause_index n i todo Hn) in Hpause.
    destruct (geocode_address_events (address station) (city station)
                (state station) w) as (ea & Hea & Hev & _).
    destruct (lookup_events_spec _ _ Hev) as (Hsl & Hsp).
    match goal with
    | |- context [Geocode.batch_loop _ _ _ _ _ _ _ _ ?acc' ?w2] =>
        destruct (IH n (S i) acc' w2 ltac:(lia))
          as (er & Her & Hnil & Hsler & Hsper)
    end.
    exists (ea ++ logged ++ pause ++ er).
    split; [rewrite Her; cbn [trace]; rewrite Hea, <- !app_assoc; reflexivity|].
    split; [discriminate|].
    destruct Hlog as [Hlr Hls].
    split.
    + rewrite !sleeps_app, Hsl, Hls, Hsler. cbn [app length].
      destruct todo as [|next todo]; subst pause; cbn; [reflexivity|].
      now rewrite Nat.sub_0_r.
    + assert (Hrest : forall rested,
                 spaced d rested (logged ++ pause ++ er) = true).
      { intros rested. rewrite spaced_quiet by now split.
        destruct todo as [|next todo]; subst pause; cbn [Nat.eqb negb length app].
        - rewrite (Hnil eq_refl). reflexivity.
        - cbn [spaced]. replace (Qle_bool d d) with true by reflexivity.
          now rewrite orb_true_r. }
      destruct Hsp as [[_ Hsp]|[_ Hsp]]; rewrite Hsp; apply Hrest.
Qed.

(** Whether saving fails or not: the result, the order of the requests
    and the number of pauses. *)
Lemma batch_loop_shape : forall todo n i acc (w : world F),
  (i + length todo = n)%nat ->
  exists evs res,
    fst (batch_loop n i todo acc w) = acc ++ res /\
    Forall2 (processed F) todo res /\
    trace (snd (batch_loop n i todo acc w)) = trace w ++ evs /\
    sublist (requests evs) (map (station_query F) todo) /\
    Forall (fun delay => delay = rate_limit_delay) (sleeps evs) /\
    (length (sleeps evs) <= length todo - 1)%nat.
Proof.
  induction todo as [|station todo IH]; intros n i acc w Hn.
  - exists [], []. cbn. rewrite !app_nil_r.
    repeat split; auto; constructor.
  - destruct (batch_loop_step n i station todo acc w)
      as (st' & logged & pause & -> & Hproc & Hlog & Hpause & _).
    cbn [length] in Hn.
    rewrite (pause_index n i todo Hn) in Hpause.
    destruct (geocode_address_events (address station) (city station)
                (state station) w) as (ea & Hea & Hev & _).
    destruct (lookup_events_spec _ _ Hev) as (Hsl & Hsp).
    match goal with
    | |- context [Geocode.batch_loop _ _ _ _ _ _ _ _ ?acc' ?w2] =>
        destruct (IH n (S i) acc' w2 ltac:(lia))
          as (er & res & Hres & Hall & Her & Hsub & Hfor & Hlen)
    end.
    exists (ea ++ logged ++ pause ++ er), (st' :: res).
    split; [rewrite Hres, <- app_assoc; reflexivity|].
    split; [constructor; assumption|].
    split; [rewrite Her; cbn [trace]; rewrite Hea, <- !app_assoc; reflexivity|].
    destruct Hlog as [Hlr Hls].
    assert (Hpr : requests pause = [])
      by (destruct Hpause as [->|[-> _]]; reflexivity).
    split.
    { rewrite !requests_app, Hlr, Hpr. cbn [app map].
      change (station_query F station :: map (station_query F) todo)
        with ([station_query F station] ++ map (station_query F) todo).
      apply sublist_app; [|exact Hsub].
      destruct Hsp as [[-> _]|[-> _]]; [apply sublist_nil_l|reflexivity]. }
    rewrite !sleeps_app, Hsl, Hls. cbn [app].
    split.
    { apply Forall_app. split; [|exact Hfor].
      destruct Hpause as [->|[-> _]]; cbn; repeat constructor. }
    rewrite length_app. cbn [length].
    destruct Hpause as [->|[-> Hi]]; cbn [sleeps length]; [lia|].
    destruct (length todo); cbn [Nat.eqb negb] in Hi; [discriminate|lia].
Qed.

(** Stations found in the cache are served without any request. *)
Lemma batch_loop_hits : forall todo n i acc (w : world F),
  (forall s, In s todo -> is_Some (cache w !! station_key F s)) ->
  (forall history s,
     In s todo -> cache_get_raises history (station_key F s) = false) ->
  requests (trace (snd (batch_loop n i todo acc w))) = requests (trace w).
Proof.
  induction todo as [|station todo IH]; intros n i acc w Hhit Hget;
    [reflexivity|].
  destruct (batch_loop_step n i station todo acc w)
    as (st' & logged & pause & -> & _ & [Hlr _] & Hpause & _).
  destruct (Hhit station (or_introl eq_refl)) as [r Hr].
  rewrite (geocode_address_hit F provider cache_get_raises cache_set_raises
             _ _ _ w r (Hget _ station (or_introl eq_refl)) Hr).
  cbn [snd]. rewrite IH.
  - cbn [trace]. rewrite !requests_app, Hlr.
    destruct Hpause as [->|[-> _]]; cbn; now rewrite app_nil_r.
  - intros s Hs. cbn [cache]. apply Hhit. now right.
  - intros history s Hs. apply Hget. now right.
Qed.

(** Stations with distinct keys of which none is in the cache are all
    requested, in order. *)
Lemma batch_loop_misses : forall todo n i acc (w : world F),
  NoDup (map (station_key F) todo) ->
  (forall s, In s todo -> cache w !! station_key F s = None) ->
  requests (trace (snd (batch_loop n i todo acc w)))
  = requests (trace w) ++ map (station_query F) todo.
Proof.
  induction todo as [|station todo IH]; intros n i acc w Hnd Hmiss.
  - cbn. now rewrite app_nil_r.
  - destruct (batch_loop_step n i station todo acc w)
      as (st' & logged & pause & -> & _ & [Hlr _] & Hpause & _).
    destruct (geocode_address_events (address station) (city station)
                (state station) w) as (ea & Hea & _ & Hreq).
    specialize (Hreq (Hmiss station (or_introl eq_refl))).
    destruct (geocode_address_cache_shape F provider cache_get_raises
                cache_set_raises (address station) (city station)
                (state station) w) as (Hother & _).
    cbn [map] in Hnd. apply NoDup_cons in Hnd. destruct Hnd as [Hnotin Hnd].
    rewrite IH.
    + cbn [trace]. rewrite Hea, !requests_app, Hreq, Hlr.
      destruct Hpause as [->|[-> _]]; cbn;
        rewrite ?app_nil_r, <- app_assoc; reflexivity.
    + exact Hnd.
    + intros s Hs. cbn [cache]. rewrite Hother; [apply Hmiss; now right|].
      intros E. apply Hnotin.
      change (station_key F station ∈ map (station_key F) todo).
      unfold station_key at 1. rewrite <- E.
      apply list_elem_of_In. now apply in_map.
Qed.

(** With distinct keys and cache reads that do not fail, the stations
    requested are exactly those that are not in the cache, in order. *)
Lemma batch_loop_requests : forall todo n i acc (w : world F),
  NoDup (map (station_key F) todo) ->
  (forall history s,
     In s todo -> cache_get_raises history (station_key F s) = false) ->
  requests (trace (snd (batch_loop n i todo acc w)))
  = requests (trace w)
    ++ map (station_query F)
           (List.filter (fun s => negb (in_cache F w s)) todo).
Proof.
  induction todo as [|station todo IH]; intros n i acc w Hnd Hget.
  - cbn. now rewrite app_nil_r.
  - destruct (batch_loop_step n i station todo acc w)
      as (st' & logged & pause & -> & _ & [Hlr _] & Hpause & _).
    cbn [map] in Hnd. apply NoDup_cons in Hnd. destruct Hnd as [Hnotin Hnd].
    assert (Hpr : requests pause = [])
      by (destruct Hpause as [->|[-> _]]; reflexivity).
    destruct (geocode_address_cache_shape F provider cache_get_raises
                cache_set_raises (address station) (city station)
                (state station) w) as (Hother & _).
    rewrite IH; [|exact Hnd|intros history s Hs; apply Hget; now right].
    rewrite (filter_ext_in _ (fun s => negb (in_cache F w s)) todo).
    2:{ intros s Hs. unfold in_cache. cbn [cache].
        rewrite Hother; [reflexivity|].
        intros E. apply Hnotin.
        change (station_key F station ∈ map (station_key F) todo).
        unfold station_key at 1. rewrite <- E.
        apply list_elem_of_In. now apply in_map. }
    change (List.filter (fun s => negb (in_cache F w s)) (station :: todo))
      with (if negb (in_cache F w station)
            then station :: List.filter (fun s => negb (in_cache F w s)) todo
            else List.filter (fun s => negb (in_cache F w s)) todo).
    cbn [trace].
    destruct (cache w !! cache_key_of (address station) (city station)
                                      (state station)) as [r|] eqn:Hc.
    + assert (Hin : in_cache F w station = true)
        by (unfold in_cache, station_key; now rewrite Hc).
      rewrite Hin.
      rewrite (geocode_address_hit F provider cache_get_raises
                 cache_set_raises _ _ _ w r
                 (Hget _ station (or_introl eq_refl)) Hc).
      cbn [snd negb]. rewrite !requests_app, Hlr, Hpr, !app_nil_r.
      reflexivity.
    + assert (Hin : in_cache F w station = false)
        by (unfold in_cache, station_key; now rewrite Hc).
      rewrite Hin.
      destruct (geocode_address_events (address station) (city station)
                  (state station) w) as (ea & Hea & _ & Hreq).
      specialize (Hreq Hc).
      rewrite Hea, !requests_app, Hreq, Hlr, Hpr. cbn [negb map app].
      rewrite !app_nil_r, <- app_assoc. reflexivity.
Qed.

(** The cache after a batch: only the entries of the stations' keys may
    differ, none is removed, and none is changed when the cache reads do
    not fail. *)
Lemma batch_loop_cache : forall todo n i acc (w : world F),
  let final := snd (batch_loop n i todo acc w) in
  (forall k, (forall s, In s todo -> k <> station_key F s) ->
             cache final !! k = cache w !! k) /\
  (forall k, is_Some (cache w !! k) -> is_Some (cache final !! k)) /\
  ((forall history s,
      In s todo -> cache_get_raises history (station_key F s) = false) ->
   cache w ⊆ cache final).
Proof.
  induction todo as [|station todo IH]; intros n i acc w; cbn zeta.
  - cbn. auto.
  - destruct (batch_loop_step n i station todo acc w)
      as (st' & logged & pause & -> & _).
    destruct (geocode_address_cache_shape F provider cache_get_raises
                cache_set_raises (address station) (city station)
                (state station) w) as (Hother & Hkeep & _ & Hsub & _).
    match goal with
    | |- context [Geocode.batch_loop _ _ _ _ _ _ _ _ ?acc' ?w2] =>
        destruct (IH n (S i) acc' w2) as (IHother & IHkeep & IHsub)
    end.
    cbn [cache] in IHother, IHkeep, IHsub.
    split; [|split].
    + intros k Hk. rewrite IHother by (intros s Hs; apply Hk; now right).
      apply Hother. apply Hk. now left.
    + intros k Hsome. apply IHkeep.
      destruct (decide (k = cache_key_of (address station) (city station)
                                         (state station))) as [->|Hne].
      * now apply Hkeep.
      * now rewrite Hother.
    + intros Hget. etrans.
      * apply Hsub. apply (Hget _ station). now left.
      * apply IHsub. intros history s Hs. apply Hget. now right.
Qed.
End Batch.

(** ** Settled properties of batch geocoding *)

(** C8 (as stated, refuted).  In a batch of two stations whose addresses
    are both in the cache no request is issued, and yet the run pauses for
    1.1 seconds: a cache hit does not bypass the delay. *)
Lemma cached_items_still_delayed :
  is_Some (cache warm !! cache_key_of (address station_a) (city station_a)
                                      (state station_a)) /\
  is_Some (cache warm !! cache_key_of (address station_b) (city station_b)
                                      (state station_b)) /\
  requests (trace (snd (geocode_fuel_stations Q silent_provider reliable
                          reliable saves_succeed
                          [station_a; station_b] warm))) = [] /\
  sleeps (trace (snd (geocode_fuel_stations Q silent_provider reliable
                        reliable saves_succeed
                        [station_a; station_b] warm))) = [Qmake 11 10].
Proof.
  split; [vm_compute; eauto|]. split; [vm_compute; eauto|].
  split; vm_compute; reflexivity.
Qed.

(** C8 (amended).  During batch geocoding the stations not yet geocoded
    are processed sequentially in submission order.  Requests are issued
    only by that processing, in submission order and at most one per
    station; none is issued when every station is found in the cache (the
    cache reads not failing), every station is requested when the stations
    have distinct cache keys of which none is in the cache, and in general,
    when the keys are distinct and the cache reads do not fail, the
    requests are exactly those of the stations that are not in the cache.
    As long as saving a station does not
    fail, a pause of 1.1 seconds follows every station but the last,
    whether it was resolved from the cache or by a request; hence any two
    consecutive requests are separated by a pause of at least 1.1
    seconds. *)
Theorem batch_pauses
        (F : Type) (provider : list event -> string -> response F)
        (cache_get_raises cache_set_raises : list event -> string -> bool)
        (save_raises : FuelStation F -> bool)
        (stations : list (FuelStation F)) (w : world F) :
  let stations_to_geocode := List.filter (fun s => negb (geocoded s)) stations in
  exists evs,
    trace (snd (geocode_fuel_stations F provider cache_get_raises
                  cache_set_raises save_raises stations w))
    = trace w ++ evs /\
    sublist (requests evs) (map (station_query F) stations_to_geocode) /\
    ((forall s, In s stations_to_geocode ->
                is_Some (cache w !! station_key F s)) ->
     (forall history s, In s stations_to_geocode ->
                        cache_get_raises history (station_key F s) = false) ->
     requests evs = []) /\
    ((forall s, In s stations_to_geocode ->
                cache w !! station_key F s = None) ->
     NoDup (map (station_key F) stations_to_geocode) ->
     requests evs = map (station_query F) stations_to_geocode) /\
    (NoDup (map (station_key F) stations_to_geocode) ->
     (forall history s, In s stations_to_geocode ->
                        cache_get_raises history (station_key F s) = false) ->
     requests evs
     = map (station_query F)
           (List.filter (fun s => negb (in_cache F w s))
                        stations_to_geocode)) /\
    ((forall s, save_raises s = false) ->
     sleeps evs = repeat rate_limit_delay (length stations_to_geocode - 1) /\
     spaced rate_limit_delay true evs = true).
Proof.
  intros stations_to_geocode.
  assert (Hrun : geocode_fuel_stations F provider cache_get_raises
                   cache_set_raises save_raises stations w
                 = match stations_to_geocode with
                   | [] => (stations, w)
                   | _ => batch_loop F provider cache_get_raises
                            cache_set_raises save_raises
                            (length stations_to_geocode) 0
                            stations_to_geocode [] w
                   end) by reflexivity.
  destruct stations_to_geocode as [|s todo] eqn:E.
  - rewrite Hrun. exists []. cbn. rewrite app_nil_r.
    repeat split. constructor.
  - destruct (batch_loop_shape F provider cache_get_raises cache_set_raises
                save_raises (s :: todo) (length (s :: todo)) 0%nat [] w eq_refl)
      as (evs & res & _ & _ & Htrace & Hsub & _).
    rewrite Hrun. exists evs.
    split; [exact Htrace|]. split; [exact Hsub|].
    split; [|split; [|split]].
    + intros Hhit Hget.
      pose proof (batch_loop_hits F provider cache_get_raises cache_set_raises
                    save_raises (s :: todo) (length (s :: todo)) 0%nat [] w
                    Hhit Hget) as Hreq.
      rewrite Htrace, requests_app in Hreq.
      rewrite <- (app_nil_r (requests (trace w))) in Hreq at 2.
      now apply app_inv_head in Hreq.
    + intros Hmiss Hnd.
      pose proof (batch_loop_misses F provider cache_get_raises
                    cache_set_raises save_raises (s :: todo)
                    (length (s :: todo)) 0%nat [] w Hnd Hmiss) as Hreq.
      rewrite Htrace, requests_app in Hreq.
      now apply app_inv_head in Hreq.
    + intros Hnd Hget.
      pose proof (batch_loop_requests F provider cache_get_raises
                    cache_set_raises save_raises (s :: todo)
                    (length (s :: todo)) 0%nat [] w Hnd Hget) as Hreq.
      rewrite Htrace, requests_app in Hreq.
      now apply app_inv_head in Hreq.
    + intros Hsave.
      destruct (batch_loop_trace F provider cache_get_raises cache_set_raises
                  save_raises Hsave (s :: todo) (length (s :: todo)) 0%nat []
                  w eq_refl)
        as (evs' & Htrace' & _ & Hsleeps & Hspaced).
      rewrite Htrace in Htrace'. apply app_inv_head in Htrace'. subst evs'.
      split; assumption.
Qed.

Lemma batch_pauses_witness :
  exists evs,
    trace (snd (geocode_fuel_stations Q silent_provider reliable reliable
                  saves_succeed [station_a; station_b] fresh))
    = trace fresh ++ evs /\
    requests evs = ["1 Main St, Springfield, IL, USA"
                    ; "2 Oak Ave, Peoria, IL, USA"]%string /\
    sleeps evs = repeat rate_limit_delay 1 /\
    spaced rate_limit_delay true evs = true.
Proof.
  destruct (batch_pauses Q silent_provider reliable reliable saves_succeed
              [station_a; station_b] fresh)
    as (evs & Htrace & _ & _ & Hmiss & _ & Hpause).
  exists evs. split; [exact Htrace|]. split.
  - apply Hmiss.
    + intros s _. apply lookup_empty.
    + cbn. apply NoDup_cons_2; [|apply NoDup_singleton].
      intros H. apply list_elem_of_singleton in H. discriminate.
  - apply Hpause. reflexivity.
Defined.

(** ** Further properties of address lookup *)

Lemma replace_spaces_app a b :
  replace_spaces (a +:+ b) = replace_spaces a +:+ replace_spaces b.
Proof.
  induction a as [|c a IH]; [reflexivity|].
  change (String c a +:+ b) with (String c (a +:+ b)).
  cbn [replace_spaces]. now rewrite IH.
Qed.

Lemma lower_app a b : lower (a +:+ b) = lower a +:+ lower b.
Proof.
  induction a as [|c a IH]; [reflexivity|].
  change (String c a +:+ b) with (String c (a +:+ b)).
  cbn [lower]. now rewrite IH.
Qed.

Lemma cache_key_of_parts address city state :
  cache_key_of address city state
  = "geocode:" +:+ lower (replace_spaces address) +:+ ":"
    +:+ lower (replace_spaces city) +:+ ":" +:+ lower (replace_spaces state).
Proof.
  unfold cache_key_of.
  rewrite !replace_spaces_app, !lower_app. reflexivity.
Qed.

(** After a lookup that returned coordinates, and whose cache write (if
    there was one) did not fail, a lookup under the same key that reads
    the cache without failure returns them and changes nothing. *)
Lemma geocode_address_stored
      (F : Type) (provider provider' : list event -> string -> response F)
      (cache_get_raises cache_set_raises cache_get_raises' cache_set_raises'
       : list event -> string -> bool)
      (address city state address' city' state' : string)
      (w w' : world F) (r : F * F) :
  cache_key_of address city state = cache_key_of address' city' state' ->
  geocode_address F provider cache_get_raises cache_set_raises
                  address city state w = (Some r, w') ->
  (forall history,
     cache_set_raises history (cache_key_of address city state) = false) ->
  cache_get_raises' (trace w') (cache_key_of address' city' state') = false ->
  geocode_address F provider' cache_get_raises' cache_set_raises'
                  address' city' state' w' = (Some r, w').
Proof.
  intros Hkey Hfirst Hset Hget.
  apply geocode_address_hit; [exact Hget|]. rewrite <- Hkey.
  destruct (geocode_address_cache_shape F provider cache_get_raises
              cache_set_raises address city state w)
    as (_ & _ & _ & _ & Hsome).
  rewrite Hfirst in Hsome. cbn [fst snd] in Hsome.
  destruct (Hsome r eq_refl) as [H|[_ [history Hraise]]]; [exact H|].
  rewrite Hset in Hraise. discriminate.
Qed.

(** X13.  Once an address has been resolved, resolving it again returns
    the same coordinates from the cache, with no request and no change of
    state, whatever the provider would answer; this needs the cache write
    of the first lookup and the cache read of the second not to have
    failed. *)
Theorem geocode_address_again
        (F : Type) (provider provider' : list event -> string -> response F)
        (cache_get_raises cache_set_raises cache_get_raises' cache_set_raises'
         : list event -> string -> bool)
        (address city state : string) (w w' : world F) (r : F * F) :
  geocode_address F provider cache_get_raises cache_set_raises
                  address city state w = (Some r, w') ->
  (forall history,
     cache_set_raises history (cache_key_of address city state) = false) ->
  cache_get_raises' (trace w') (cache_key_of address city state) = false ->
  geocode_address F provider' cache_get_raises' cache_set_raises'
                  address city state w' = (Some r, w').
Proof.
  intros Hfirst Hset Hget.
  exact (geocode_address_stored F provider provider' cache_get_raises
           cache_set_raises cache_get_raises' cache_set_raises'
           address city state address city state w w' r
           eq_refl Hfirst Hset Hget).
Qed.

Lemma geocode_address_again_witness :
  requests (trace resolved) = ["1 Main St, Springfield, IL, USA"%string] /\
  geocode_address Q silent_provider reliable reliable
                  "1 Main St" "Springfield" "IL" resolved
  = (Some (Qmake 398 10, - Qmake 896 10)%Q, resolved).
Proof.
  split; [vm_compute; reflexivity|].
  apply (geocode_address_again Q springfield_provider silent_provider
           reliable reliable reliable reliable
           "1 Main St" "Springfield" "IL" fresh resolved).
  - vm_compute. reflexivity.
  - reflexivity.
  - reflexivity.
Defined.

(** When the cache write fails the coordinates are returned but not
    stored, and the next lookup asks the provider again. *)
Lemma failed_write_asks_again :
  exists w',
    geocode_address Q springfield_provider reliable broken
                    "1 Main St" "Springfield" "IL" fresh
    = (Some (Qmake 398 10, - Qmake 896 10)%Q, w') /\
    cache w' = cache fresh /\
    requests (trace (snd (geocode_address Q springfield_provider reliable
                            broken "1 Main St" "Springfield" "IL" w')))
    = ["1 Main St, Springfield, IL, USA"; "1 Main St, Springfield, IL, USA"]%string.
Proof.
  eexists. split; [vm_compute; reflexivity|].
  split; vm_compute; reflexivity.
Qed.

(** When the cache read fails the provider is asked although the address
    is in the cache, and its answer replaces the entry. *)
Lemma failed_read_overwrites :
  cache warm !! "geocode:2_oak_ave:peoria:il"%string
  = Some (Qmake 407 10, - Qmake 896 10)%Q /\
  cache (snd (geocode_address Q (fun _ _ => Found 1%Q 2%Q) broken reliable
                "2 Oak Ave" "Peoria" "IL" warm))
    !! "geocode:2_oak_ave:peoria:il"%string
  = Some (1, 2)%Q.
Proof. split; vm_compute; reflexivity. Qed.

(** X14.  An address lookup touches the cache under the key of its
    address only and never removes an entry.  A lookup that returns
    nothing leaves the cache as it was (failures are not cached), and so
    does every lookup whose cache read did not fail but for adding its
    entry.  A lookup that returns coordinates leaves them under its key,
    unless the cache write failed: then the cache is as it was. *)
Theorem geocode_address_cache
        (F : Type) (provider : list event -> string -> response F)
        (cache_get_raises cache_set_raises : list event -> string -> bool)
        (address city state : string) (w : world F) :
  let key := cache_key_of address city state in
  let run := geocode_address F provider cache_get_raises cache_set_raises
                             address city state w in
  (forall k, k <> key -> cache (snd run) !! k = cache w !! k) /\
  (is_Some (cache w !! key) -> is_Some (cache (snd run) !! key)) /\
  (fst run = None -> cache (snd run) = cache w) /\
  (cache_get_raises (trace w) key = false -> cache w ⊆ cache (snd run)) /\
  (forall r, fst run = Some r ->
             cache (snd run) !! key = Some r \/
             (cache (snd run) = cache w /\
              exists history, cache_set_raises history key = true)).
Proof.
  exact (geocode_address_cache_shape F provider cache_get_raises
           cache_set_raises address city state w).
Qed.

(** X15.  The cache does not tell apart addresses that differ only in
    letter case or in spaces against underscores: they have the same key,
    so that once one of them is resolved (the cache write not failing) the
    other is answered from the cache with the same coordinates (the cache
    read not failing). *)
Theorem cache_key_normalised
        (F : Type) (provider provider' : list event -> string -> response F)
        (cache_get_raises cache_set_raises cache_get_raises' cache_set_raises'
         : list event -> string -> bool)
        (address1 city1 state1 address2 city2 state2 : string)
        (w w' : world F) (r : F * F) :
  lower (replace_spaces address1) = lower (replace_spaces address2) ->
  lower (replace_spaces city1) = lower (replace_spaces city2) ->
  lower (replace_spaces state1) = lower (replace_spaces state2) ->
  cache_key_of address1 city1 state1 = cache_key_of address2 city2 state2 /\
  (geocode_address F provider cache_get_raises cache_set_raises
                   address1 city1 state1 w = (Some r, w') ->
   (forall history,
      cache_set_raises history (cache_key_of address1 city1 state1) = false) ->
   cache_get_raises' (trace w') (cache_key_of address2 city2 state2) = false ->
   geocode_address F provider' cache_get_raises' cache_set_raises'
                   address2 city2 state2 w' = (Some r, w')).
Proof.
  intros Ha Hc Hs.
  assert (Hkey : cache_key_of address1 city1 state1
                 = cache_key_of address2 city2 state2)
    by (rewrite !cache_key_of_parts, Ha, Hc, Hs; reflexivity).
  split; [exact Hkey|]. intros Hfirst Hset Hget.
  exact (geocode_address_stored F provider provider' cache_get_raises
           cache_set_raises cache_get_raises' cache_set_raises'
           address1 city1 state1 address2 city2 state2 w w' r
           Hkey Hfirst Hset Hget).
Qed.

Lemma cache_key_normalised_witness :
  cache_key_of "1 Main St" "Springfield" "IL"
  = cache_key_of "1_MAIN_ST" "springfield" "il" /\
  requests (trace resolved) = ["1 Main St, Springfield, IL, USA"%string] /\
  geocode_address Q silent_provider reliable reliable
                  "1_MAIN_ST" "springfield" "il" resolved
  = (Some (Qmake 398 10, - Qmake 896 10)%Q, resolved).
Proof.
  destruct (cache_key_normalised Q springfield_provider silent_provider
              reliable reliable reliable reliable
              "1 Main St" "Springfield" "IL" "1_MAIN_ST" "springfield" "il"
              fresh resolved (Qmake 398 10, - Qmake 896 10)%Q
              eq_refl eq_refl eq_refl) as [Hkey Hhit].
  split; [exact Hkey|]. split; [vm_compute; reflexivity|].
  apply Hhit.
  - vm_compute. reflexivity.
  - reflexivity.
  - reflexivity.
Defined.

(** ** Further properties of location resolution *)

(** X16.  Resolving a location never overwrites the history: it extends it
    by at most one request to the provider and by no pause.  It removes no
    cache entry, and changes none when the cache reads do not fail; after a
    failed read an entry can be replaced ([failed_read_overwrites]). *)
Theorem geocode_location_effects
        (F : Type) (float : string -> option F)
        (provider : list event -> string -> response F)
        (cache_get_raises cache_set_raises : list event -> string -> bool)
        (location : string) (w : world F) :
  let run := geocode_location F float provider cache_get_raises
                              cache_set_raises location w in
  exists evs,
    trace (snd run) = trace w ++ evs /\
    (length (requests evs) <= 1)%nat /\
    sleeps evs = [] /\
    (forall k, is_Some (cache w !! k) -> is_Some (cache (snd run) !! k)) /\
    ((forall k, cache_get_raises (trace w) k = false) ->
     cache w ⊆ cache (snd run)).
Proof.
  intros run. subst run.
  assert (Hsame : exists evs : list event,
             trace w = trace w ++ evs /\ (length (requests evs) <= 1)%nat /\
             sleeps evs = [] /\
             (forall k, is_Some (cache w !! k) -> is_Some (cache w !! k)) /\
             ((forall k, cache_get_raises (trace w) k = false) ->
              cache w ⊆ cache w)).
  { exists []. rewrite app_nil_r. repeat split; cbn; auto. }
  unfold geocode_location.
  destruct (if contains "," location then _ else _) as [coords|];
    [exact Hsame|].
  destruct (split "," location) as [|city [|state rest]]; try exact Hsame.
  destruct (geocode_address_events F provider cache_get_raises
              cache_set_raises "" (strip city) (strip state) w)
    as (evs & Htrace & Hev & _).
  destruct (geocode_address_cache_shape F provider cache_get_raises
              cache_set_raises "" (strip city) (strip state) w)
    as (Hother & Hkeep & _ & Hsub & _).
  destruct (lookup_events_spec _ _ Hev) as (Hsl & Hrq).
  exists evs. split; [exact Htrace|].
  split; [destruct Hrq as [[-> _]|[-> _]]; cbn; lia|].
  split; [exact Hsl|]. split.
  - intros k Hsome.
    destruct (decide (k = cache_key_of "" (strip city) (strip state)))
      as [->|Hne]; [now apply Hkeep|now rewrite Hother].
  - intros Hget. apply Hsub, Hget.
Qed.

(** X17.  A location with three or more comma-separated parts is never
    read as a coordinate pair: it is looked up with an empty street
    address, its first part as the city and its second part as the state;
    the other parts are ignored. *)
Theorem geocode_location_many_parts
        (F : Type) (float : string -> option F)
        (provider : list event -> string -> response F)
        (cache_get_raises cache_set_raises : list event -> string -> bool)
        (location p0 p1 p2 : string) (rest : list string) (w : world F) :
  split "," location = p0 :: p1 :: p2 :: rest ->
  geocode_location F float provider cache_get_raises cache_set_raises
                   location w
  = geocode_address F provider cache_get_raises cache_set_raises
                    "" (strip p0) (strip p1) w.
Proof.
  intros Hs. unfold geocode_location. rewrite Hs.
  destruct (contains "," location); reflexivity.
Qed.

Lemma geocode_location_many_parts_witness :
  geocode_location Q decimal_float silent_provider reliable reliable
                   "1.5, 2.5, 3.5" fresh
  = geocode_address Q silent_provider reliable reliable "" "1.5" "2.5" fresh.
Proof.
  apply (geocode_location_many_parts Q decimal_float silent_provider
           reliable reliable "1.5, 2.5, 3.5" "1.5" " 2.5" " 3.5" []).
  vm_compute. reflexivity.
Defined.

(** ** Further properties of batch geocoding *)

(** X18.  A batch run with nothing to geocode returns its input
    untouched.  Otherwise it returns the stations that were not geocoded,
    in submission order and with their name and address unchanged, each
    either as it was or with coordinates and the [geocoded] flag set; the
    stations that were geocoded already are not in the result. *)
Theorem geocode_fuel_stations_result
        (F : Type) (provider : list event -> string -> response F)
        (cache_get_raises cache_set_raises : list event -> string -> bool)
        (save_raises : FuelStation F -> bool)
        (stations : list (FuelStation F)) (w : world F) :
  let stations_to_geocode := List.filter (fun s => negb (geocoded s)) stations in
  (stations_to_geocode = [] ->
   geocode_fuel_stations F provider cache_get_raises cache_set_raises
                         save_raises stations w
   = (stations, w)) /\
  (stations_to_geocode <> [] ->
   Forall2 (processed F) stations_to_geocode
           (fst (geocode_fuel_stations F provider cache_get_raises
                   cache_set_raises save_raises stations w))).
Proof.
  intros stations_to_geocode.
  assert (Hrun : geocode_fuel_stations F provider cache_get_raises
                   cache_set_raises save_raises stations w
                 = match stations_to_geocode with
                   | [] => (stations, w)
                   | _ => batch_loop F provider cache_get_raises
                            cache_set_raises save_raises
                            (length stations_to_geocode) 0
                            stations_to_geocode [] w
                   end) by reflexivity.
  rewrite Hrun. split.
  - intros ->. reflexivity.
  - intros Hne. destruct stations_to_geocode as [|s todo] eqn:E; [congruence|].
    destruct (batch_loop_shape F provider cache_get_raises cache_set_raises
                save_raises (s :: todo) (length (s :: todo)) 0%nat [] w eq_refl)
      as (evs & res & Hres & Hall & _).
    rewrite Hres. exact Hall.
Qed.

(** X19.  Whether saving succeeds or not, a batch run over [n] stations to
    geocode issues at most one request per station, in submission order,
    and pauses at most [n - 1] times, each time for 1.1 seconds.  It
    removes no cache entry, leaves the entries of other keys than the
    stations' as they were, and changes no entry at all when the cache
    reads do not fail; after a failed read an entry can be replaced
    ([failed_read_overwrites]). *)
Theorem geocode_fuel_stations_effects
        (F : Type) (provider : list event -> string -> response F)
        (cache_get_raises cache_set_raises : list event -> string -> bool)
        (save_raises : FuelStation F -> bool)
        (stations : list (FuelStation F)) (w : world F) :
  let stations_to_geocode := List.filter (fun s => negb (geocoded s)) stations in
  let run := geocode_fuel_stations F provider cache_get_raises
                                   cache_set_raises save_raises stations w in
  exists evs,
    trace (snd run) = trace w ++ evs /\
    sublist (requests evs) (map (station_query F) stations_to_geocode) /\
    Forall (fun delay => delay = rate_limit_delay) (sleeps evs) /\
    (length (sleeps evs) <= length stations_to_geocode - 1)%nat /\
    (forall k, is_Some (cache w !! k) -> is_Some (cache (snd run) !! k)) /\
    (forall k, (forall s, In s stations_to_geocode -> k <> station_key F s) ->
               cache (snd run) !! k = cache w !! k) /\
    ((forall history s, In s stations_to_geocode ->
                        cache_get_raises history (station_key F s) = false) ->
     cache w ⊆ cache (snd run)).
Proof.
  intros stations_to_geocode run. subst run.
  assert (Hrun : geocode_fuel_stations F provider cache_get_raises
                   cache_set_raises save_raises stations w
                 = match stations_to_geocode with
                   | [] => (stations, w)
                   | _ => batch_loop F provider cache_get_raises
                            cache_set_raises save_raises
                            (length stations_to_geocode) 0
                            stations_to_geocode [] w
                   end) by reflexivity.
  rewrite Hrun.
  destruct stations_to_geocode as [|s todo] eqn:E.
  - exists []. cbn. rewrite app_nil_r. repeat split; auto; constructor.
  - destruct (batch_loop_shape F provider cache_get_raises cache_set_raises
                save_raises (s :: todo) (length (s :: todo)) 0%nat [] w eq_refl)
      as (evs & res & _ & _ & Htr & Hsub & Hsl & Hlen).
    destruct (batch_loop_cache F provider cache_get_raises cache_set_raises
                save_raises (s :: todo) (length (s :: todo)) 0%nat [] w)
      as (Hother & Hkeep & Hcache).
    exists evs. auto 10.
Qed.

End Geocode.

Module Routing.
Import Geocode.

(** The route dictionary built by [get_route] from the first route of the
    provider's answer (routing.py, lines 56-61); [legs] is kept as
    received. *)
Record Route (F L : Type) : Type := {
  geometry : string;
  distance : F;
  duration : F;
  legs : L
}.

(** Answer of the routing provider to one request. *)
Inductive route_response (F L : Type) : Type :=
| RouteOk (route : Route F L)   (* code "Ok" and a non-empty route list *)
| RouteNone                     (* another code, or no route *)
| RouteException.               (* transport error, bad status, bad payload *)
Arguments RouteOk {F L} route.
Arguments RouteNone {F L}.
Arguments RouteException {F L}.

(** What the routing service asks of the outside world. *)
Inductive route_event : Type :=
| RouteRequest (url : string)
| RouteLogError (message : string)
| RouteLogWarning (message : string).

(** The state of route planning: the state of geocoding, the route entries
    of the cache (their keys start with "route:", those of geocoding with
    "geocode:", see [route_key_not_geocode_key]) and the history of the
    routing service. *)
Record state (F L : Type) : Type := {
  geo : world F;
  route_cache : gmap string (Route F L);
  route_trace : list route_event
}.
Arguments geo {F L}.
Arguments route_cache {F L}.
Arguments route_trace {F L}.

(** The result of [plan_route] (routing.py, lines 118-122). *)
Record RoutePlan (F L : Type) : Type := {
  start_coords : F * F;
  end_coords : F * F;
  route : Route F L
}.

Definition route_requests (evs : list route_event) : list string :=
  omap (fun e => match e with RouteRequest url => Some url | _ => None end) evs.

Section Services.
Variables F L : Type.
(** [float(s)] and [str(x)], the latter as used by f-strings. *)
Variable float : string -> option F.
Variable fstr : F -> string.
(** [settings.OSRM_BASE_URL]. *)
Variable osrm_base_url : string.
Variable provider : list event -> string -> response F.
Variable cache_get_raises cache_set_raises : list event -> string -> bool.
(** The routing provider's answer to a URL, given the history so far. *)
Variable router : list route_event -> string -> route_response F L.
(** Whether [cache.get(key)] and [cache.set(key, ...)] raise for a route
    key, given the history of the routing service so far. *)
Variable route_get_raises route_set_raises : list route_event -> string -> bool.

Definition log (e : route_event) (st : state F L) : state F L :=
  {| geo := geo st; route_cache := route_cache st;
     route_trace := route_trace st ++ [e] |}.

(** [BaseService.get_from_cache] (base.py, lines 15-21), on route
    entries. *)
Definition get_from_cache (cache_key : string) (st : state F L)
  : option (Route F L) * state F L :=
  if route_get_raises (route_trace st) cache_key
  then (None,
        log (RouteLogWarning ("Cache get error for key " +:+ cache_key)) st)
  else (route_cache st !! cache_key, st).

(** [BaseService.set_cache] (base.py, lines 23-30), on route entries. *)
Definition set_cache (cache_key : string) (data : Route F L) (st : state F L)
  : bool * state F L :=
  if route_set_raises (route_trace st) cache_key
  then (false,
        log (RouteLogWarning ("Cache set error for key " +:+ cache_key)) st)
  else (true, {| geo := geo st;
                 route_cache := <[cache_key := data]> (route_cache st);
                 route_trace := route_trace st |}).

Definition route_key (start_coords end_coords : F * F) : string :=
  let '(start_lat, start_lon) := start_coords in
  let '(end_lat, end_lon) := end_coords in
  "route:" +:+ fstr start_lat +:+ ":" +:+ fstr start_lon +:+ ":"
  +:+ fstr end_lat +:+ ":" +:+ fstr end_lon.

Definition route_url (start_coords end_coords : F * F) : string :=
  let '(start_lat, start_lon) := start_coords in
  let '(end_lat, end_lon) := end_coords in
  osrm_base_url +:+ "/route/v1/driving/" +:+ fstr start_lon +:+ ","
  +:+ fstr start_lat +:+ ";" +:+ fstr end_lon +:+ "," +:+ fstr end_lat.

(** [RoutePlanningService.get_route] (routing.py, lines 22-70). *)
Definition get_route (start_coords end_coords : F * F) (st : state F L)
  : option (Route F L) * state F L :=
  let cache_key := route_key start_coords end_coords in
  let '(cached_result, st) := get_from_cache cache_key st in
  match cached_result with
  | Some cached_result => (Some cached_result, st)
  | None =>
      let url := route_url start_coords end_coords in
      let st := log (RouteRequest url) st in
      match router (route_trace st) url with
      | RouteOk result =>
          let '(_, st) := set_cache cache_key result st in
          (Some result, st)
      | RouteNone => (None, st)
      | RouteException => (None, log (RouteLogError "OSRM routing error") st)
      end
  end.

(** [RoutePlanningService.plan_route] (routing.py, lines 101-122). *)
Definition plan_route (start finish : string) (st : state F L)
  : option (RoutePlan F L) * state F L :=
  let '(start_coords, w) :=
    geocode_location F float provider cache_get_raises cache_set_raises
                     start (geo st) in
  let '(end_coords, w) :=
    geocode_location F float provider cache_get_raises cache_set_raises
                     finish w in
  let st := {| geo := w; route_cache := route_cache st;
               route_trace := route_trace st |} in
  match start_coords, end_coords with
  | Some start_coords, Some end_coords =>
      let '(route_data, st) := get_route start_coords end_coords st in
      match route_data with
      | Some route_data =>
          (Some {| start_coords := start_coords; end_coords := end_coords;
                   route := route_data |}, st)
      | None => (None, st)
      end
  | _, _ => (None, st)
  end.
End Services.

(** Closed instances for examples: no legs, floats written as nothing, a
    router without routes. *)
Definition no_router : list route_event -> string -> route_response Q unit :=
  fun _ _ => RouteNone.

Definition route_reliable : list route_event -> string -> bool :=
  fun _ _ => false.

Definition blank : state Q unit :=
  {| geo := fresh; route_cache := ∅; route_trace := [] |}.

(** ** Properties of route fetching and planning *)

Lemma state_eta {F L} (st : state F L) :
  {| geo := geo st; route_cache := route_cache st;
     route_trace := route_trace st |} = st.
Proof. now destruct st. Qed.

Lemma route_requests_app evs evs' :
  route_requests (evs ++ evs') = route_requests evs ++ route_requests evs'.
Proof. unfold route_requests. apply omap_app. Qed.

Section Properties.
Variables F L : Type.
Variable fstr : F -> string.
Variable osrm_base_url : string.
Variable router : list route_event -> string -> route_response F L.
Variable route_get_raises route_set_raises : list route_event -> string -> bool.

Abbreviation get_from_cache := (get_from_cache F L route_get_raises).
Abbreviation set_cache := (set_cache F L route_set_raises).
Abbreviation get_route :=
  (get_route F L fstr osrm_base_url router route_get_raises route_set_raises).

(** A read leaves the state alone but for a warning, and returns what the
    cache holds unless the backend raises. *)
Lemma route_get_from_cache_shape key (st : state F L) :
  geo (snd (get_from_cache key st)) = geo st /\
  route_cache (snd (get_from_cache key st)) = route_cache st /\
  (exists evs, route_requests evs = [] /\
               route_trace (snd (get_from_cache key st))
               = route_trace st ++ evs) /\
  (forall r, fst (get_from_cache key st) = Some r ->
             route_cache st !! key = Some r) /\
  (route_get_raises (route_trace st) key = false ->
   get_from_cache key st = (route_cache st !! key, st)).
Proof.
  unfold Routing.get_from_cache.
  destruct (route_get_raises (route_trace st) key); cbn.
  - split; [reflexivity|]. split; [reflexivity|].
    split; [eexists; split; [|reflexivity]; reflexivity|].
    split; discriminate.
  - split; [reflexivity|]. split; [reflexivity|]. split.
    + exists []. split; [reflexivity|]. now rewrite app_nil_r.
    + split; [intros r H; exact H|reflexivity].
Qed.

(** A write changes the entry of its key at most, logs at most a warning,
    and stores the data unless the backend raises. *)
Lemma route_set_cache_shape key data (st : state F L) :
  geo (snd (set_cache key data st)) = geo st /\
  (exists evs, route_requests evs = [] /\
               route_trace (snd (set_cache key data st))
               = route_trace st ++ evs) /\
  (route_cache (snd (set_cache key data st)) = <[key := data]> (route_cache st) \/
   (route_cache (snd (set_cache key data st)) = route_cache st /\
    route_set_raises (route_trace st) key = true)).
Proof.
  unfold Routing.set_cache.
  destruct (route_set_raises (route_trace st) key); cbn.
  - split; [reflexivity|].
    split; [eexists; split; [|reflexivity]; reflexivity|]. auto.
  - split; [reflexivity|]. split; [|auto].
    exists []. split; [reflexivity|]. now rewrite app_nil_r.
Qed.

(** One route fetch, in full. *)
Lemma get_route_shape (a b : F * F) (st : state F L) :
  let key := route_key F fstr a b in
  let run := get_route a b st in
  geo (snd run) = geo st /\
  (forall k, k <> key -> route_cache (snd run) !! k = route_cache st !! k) /\
  (is_Some (route_cache st !! key) -> is_Some (route_cache (snd run) !! key)) /\
  (route_get_raises (route_trace st) key = false ->
   route_cache st ⊆ route_cache (snd run)) /\
  (fst run = None -> route_cache (snd run) = route_cache st) /\
  (forall r, fst run = Some r ->
             route_cache (snd run) !! key = Some r \/
             (route_cache (snd run) = route_cache st /\
              exists history, route_set_raises history key = true)) /\
  exists evs, route_trace (snd run) = route_trace st ++ evs /\
              (length (route_requests evs) <= 1)%nat.
Proof.
  intros key run. subst run. unfold Routing.get_route. cbv zeta. fold key.
  destruct (route_get_from_cache_shape key st)
    as (Hg & Hc & (pre & Hpre & Htr) & Hsome & Hread).
  destruct (get_from_cache key st) as [[hit|] st1] eqn:Eget;
    cbn [fst snd] in *.
  - rewrite Hc. specialize (Hsome hit eq_refl).
    split; [exact Hg|]. split; [reflexivity|]. split; [auto|].
    split; [reflexivity|]. split; [discriminate|].
    split; [intros r [= <-]; now left|].
    exists pre. split; [exact Htr|]. rewrite Hpre. cbn. lia.
  - destruct (router _ _) as [result| |].
    + destruct (route_set_cache_shape key result
                  (log F L (RouteRequest (route_url F fstr osrm_base_url a b))
                       st1))
        as (Hg' & (post & Hpost & Htr') & Hset).
      destruct (set_cache _ _ _) as [ok st2]. cbn [fst snd log geo route_cache
                                                    route_trace] in *.
      rewrite Hc in Hset.
      split; [congruence|].
      assert (Hevs : exists evs,
                 route_trace st2 = route_trace st ++ evs /\
                 (length (route_requests evs) <= 1)%nat).
      { eexists. split.
        - rewrite Htr', Htr, <- !app_assoc. reflexivity.
        - rewrite !route_requests_app, Hpre, Hpost. cbn. lia. }
      destruct Hset as [-> | [-> Hraise]].
      * split; [intros k Hk; now rewrite lookup_insert_ne|].
        split; [intros _; rewrite lookup_insert_eq; eauto|].
        split.
        { intros Hget. apply insert_subseteq.
          specialize (Hread Hget). now injection Hread as <- _. }
        split; [discriminate|].
        split; [intros r [= <-]; left; apply lookup_insert_eq|exact Hevs].
      * split; [reflexivity|]. split; [auto|]. split; [reflexivity|].
        split; [discriminate|]. split; [intros r _; right; eauto|exact Hevs].
    + cbn [snd log geo route_cache route_trace]. rewrite Hc.
      split; [exact Hg|]. split; [reflexivity|]. split; [auto|].
      split; [reflexivity|]. split; [reflexivity|]. split; [discriminate|].
      eexists. split; [rewrite Htr, <- !app_assoc; reflexivity|].
      rewrite !route_requests_app, Hpre. cbn. lia.
    + cbn [snd log geo route_cache route_trace]. rewrite Hc.
      split; [exact Hg|]. split; [reflexivity|]. split; [auto|].
      split; [reflexivity|]. split; [reflexivity|]. split; [discriminate|].
      eexists. split; [rewrite Htr, <- !app_assoc; reflexivity|].
      rewrite !route_requests_app, Hpre. cbn. lia.
Qed.
End Properties.

(** When the cache write fails the route is returned but not stored, and
    the next fetch asks the router again. *)
Lemma failed_route_write_asks_again :
  let router := fun (_ : list route_event) (_ : string) =>
    RouteOk {| geometry := "_p~iF~ps|U"; distance := 1%Q; duration := 2%Q;
               legs := tt |} in
  let fetch st :=
    get_route Q unit (fun _ => ""%string) "http://osrm" router
              route_reliable (fun _ _ => true) (0, 0)%Q (1, 1)%Q st in
  is_Some (fst (fetch blank)) /\
  route_cache (snd (fetch blank)) = route_cache blank /\
  length (route_requests (route_trace (snd (fetch (snd (fetch blank))))))
  = 2%nat.
Proof.
  cbv zeta. split; [vm_compute; eauto|]. split; vm_compute; reflexivity.
Qed.

(** X20.  A route is cached under the coordinates of its two ends.  A
    fetch never touches the geocoding state, touches the cache under its
    own key only, removes no entry, issues at most one request and does
    not cache a failure.  After a success whose cache write did not fail,
    the same fetch is answered from the cache, when its cache read does
    not fail, with the same route and without a request, whatever the
    router would answer. *)
Theorem get_route_cached
        (F L : Type) (fstr : F -> string) (osrm_base_url : string)
        (router router' : list route_event -> string -> route_response F L)
        (route_get_raises route_set_raises route_get_raises' route_set_raises'
         : list route_event -> string -> bool)
        (a b : F * F) (st : state F L) :
  let key := route_key F fstr a b in
  let run := get_route F L fstr osrm_base_url router route_get_raises
                       route_set_raises a b st in
  geo (snd run) = geo st /\
  (forall k, k <> key -> route_cache (snd run) !! k = route_cache st !! k) /\
  (is_Some (route_cache st !! key) -> is_Some (route_cache (snd run) !! key)) /\
  (route_get_raises (route_trace st) key = false ->
   route_cache st ⊆ route_cache (snd run)) /\
  (fst run = None -> route_cache (snd run) = route_cache st) /\
  (forall r, fst run = Some r ->
             (forall history, route_set_raises history key = false) ->
             route_get_raises' (route_trace (snd run)) key = false ->
             get_route F L fstr osrm_base_url router' route_get_raises'
                       route_set_raises' a b (snd run)
             = (Some r, snd run)) /\
  exists evs, route_trace (snd run) = route_trace st ++ evs /\
              (length (route_requests evs) <= 1)%nat.
Proof.
  intros key run.
  destruct (get_route_shape F L fstr osrm_base_url router route_get_raises
              route_set_raises a b st)
    as (Hgeo & Hother & Hkeep & Hsub & Hnone & Hsome & Hevs).
  fold key in Hother, Hkeep, Hsub, Hsome. fold run in Hgeo, Hother, Hkeep, Hsub,
                                                   Hnone, Hsome, Hevs.
  split; [exact Hgeo|]. split; [exact Hother|]. split; [exact Hkeep|].
  split; [exact Hsub|]. split; [exact Hnone|]. split; [|exact Hevs].
  intros r Hr Hset Hget.
  destruct (Hsome r Hr) as [Hstored|[_ [history Hraise]]];
    [|rewrite Hset in Hraise; discriminate].
  unfold get_route at 1. cbv zeta. fold key.
  destruct (route_get_from_cache_shape F L route_get_raises' key (snd run))
    as (_ & _ & _ & _ & Hread).
  rewrite (Hread Hget), Hstored. reflexivity.
Qed.

(** X21.  When the start or the finish does not resolve, [plan_route]
    returns no plan and issues no routing request; both locations have been
    resolved all the same (the finish also when the start had failed). *)
Theorem plan_route_unresolved
        (F L : Type) (float : string -> option F) (fstr : F -> string)
        (osrm_base_url : string)
        (provider : list event -> string -> response F)
        (cache_get_raises cache_set_raises : list event -> string -> bool)
        (router : list route_event -> string -> route_response F L)
        (route_get_raises route_set_raises : list route_event -> string -> bool)
        (start finish : string) (st : state F L) :
  let first := geocode_location F float provider cache_get_raises
                                cache_set_raises start (geo st) in
  let second := geocode_location F float provider cache_get_raises
                                 cache_set_raises finish (snd first) in
  fst first = None \/ fst second = None ->
  plan_route F L float fstr osrm_base_url provider cache_get_raises
             cache_set_raises router route_get_raises route_set_raises
             start finish st
  = (None, {| geo := snd second; route_cache := route_cache st;
              route_trace := route_trace st |}).
Proof.
  intros first second H. unfold plan_route. fold first.
  destruct first as [c1 w1] eqn:E1. cbn [snd] in second. fold second.
  destruct second as [c2 w2] eqn:E2. cbn [fst snd] in *.
  destruct H as [->| ->]; [reflexivity|]. now destruct c1.
Qed.

Lemma plan_route_unresolved_witness :
  plan_route Q unit decimal_float (fun _ => ""%string) "http://osrm"
             silent_provider reliable reliable no_router route_reliable
             route_reliable "Chicago" "40.7,-74.0" blank
  = (None, blank).
Proof.
  apply (plan_route_unresolved Q unit decimal_float (fun _ => ""%string)
           "http://osrm" silent_provider reliable reliable no_router
           route_reliable route_reliable "Chicago" "40.7,-74.0" blank).
  left. vm_compute. reflexivity.
Defined.

(** X22.  When start and finish are both literal "lat,lon" pairs,
    [plan_route] does not touch the geocoding state: it fetches the route
    between the two parsed coordinates and returns them with the route, or
    nothing when the fetch fails. *)
Theorem plan_route_literal
        (F L : Type) (float : string -> option F) (fstr : F -> string)
        (osrm_base_url : string)
        (provider : list event -> string -> response F)
        (cache_get_raises cache_set_raises : list event -> string -> bool)
        (router : list route_event -> string -> route_response F L)
        (route_get_raises route_set_raises : list route_event -> string -> bool)
        (start finish lat1 lon1 lat2 lon2 : string) (a b : F * F)
        (st : state F L) :
  split "," start = [lat1; lon1] ->
  float (strip lat1) = Some (fst a) -> float (strip lon1) = Some (snd a) ->
  split "," finish = [lat2; lon2] ->
  float (strip lat2) = Some (fst b) -> float (strip lon2) = Some (snd b) ->
  let fetch := get_route F L fstr osrm_base_url router route_get_raises
                         route_set_raises a b st in
  plan_route F L float fstr osrm_base_url provider cache_get_raises
             cache_set_raises router route_get_raises route_set_raises
             start finish st
  = (option_map (fun r => {| start_coords := a; end_coords := b; route := r |})
                (fst fetch),
     snd fetch) /\
  geo (snd fetch) = geo st.
Proof.
  intros Hs1 Ha1 Ha2 Hs2 Hb1 Hb2 fetch.
  assert (Hlit : forall location p q (c : F * F) (w : world F),
            split "," location = [p; q] ->
            float (strip p) = Some (fst c) -> float (strip q) = Some (snd c) ->
            geocode_location F float provider cache_get_raises
                             cache_set_raises location w
            = (Some c, w)).
  { intros location p q [c1 c2] w Hs Hp Hq. cbn [fst snd] in *.
    unfold geocode_location.
    destruct (contains "," location) eqn:Hc.
    - rewrite Hs, Hp, Hq. reflexivity.
    - rewrite split_no_sep in Hs by exact Hc. discriminate. }
  split.
  - unfold plan_route.
    rewrite (Hlit start lat1 lon1 a _ Hs1 Ha1 Ha2).
    rewrite (Hlit finish lat2 lon2 b _ Hs2 Hb1 Hb2).
    rewrite state_eta. fold fetch.
    destruct fetch as [[r|] st']; reflexivity.
  - apply (get_route_shape F L fstr osrm_base_url router route_get_raises
             route_set_raises a b st).
Qed.

Lemma plan_route_literal_witness :
  plan_route Q unit decimal_float (fun _ => ""%string) "http://osrm"
             silent_provider reliable reliable no_router route_reliable
             route_reliable "41.85,-87.65" "40.7,-74.0" blank
  = (None,
     snd (get_route Q unit (fun _ => ""%string) "http://osrm" no_router
                    route_reliable route_reliable
                    (Qmake 4185 100, - Qmake 8765 100)%Q
                    (Qmake 407 10, - Qmake 740 10)%Q blank)).
Proof.
  refine (proj1 (plan_route_literal Q unit decimal_float (fun _ => ""%string)
                   "http://osrm" silent_provider reliable reliable no_router
                   route_reliable route_reliable
                   "41.85,-87.65" "40.7,-74.0" "41.85" "-87.65" "40.7" "-74.0"
                   (Qmake 4185 100, - Qmake 8765 100)%Q
                   (Qmake 407 10, - Qmake 740 10)%Q blank _ _ _ _ _ _));
    vm_compute; reflexivity.
Defined.

(** X23.  The cache key of a route is never the cache key of a geocoded
    address, so the two kinds of entries of the one cache never overwrite
    one another. *)
Theorem route_key_not_geocode_key
        (F : Type) (fstr : F -> string) (a b : F * F)
        (address city state : string) :
  route_key F fstr a b <> cache_key_of address city state.
Proof.
  rewrite cache_key_of_parts. destruct a as [a1 a2], b as [b1 b2].
  unfold route_key. discriminate.
Qed.

End Routing.
